(** * pyScss expression engine: scopes, scanner, parser, evaluator

    A shallow embedding of [scss/rule.py] (VariableScope, Namespace, the
    block headers), [scss/expression.py] (Calculator, the AST classes, the
    Yapps parser), of [index] and [_constrain] of [scss/functions/core.py]
    and of [add_cache_buster] of [scss/functions/compass/helpers.py],
    together with the properties stated about them.

    Python objects that are shared and mutated (the dicts of a scope chain,
    generator objects, the module-level [ast_cache]) live in explicit stores;
    exceptions are results of type [outcome]. *)

From Stdlib Require Import String Ascii QArith Lqa.
From stdpp Require Import base gmap list strings pretty.

Local Open Scope string_scope.
Local Open Scope list_scope.

(** ** Exceptions *)

Inductive exn :=
| KeyError
| SyntaxError
| AttributeError
| TypeError
| IndexError
| NoMoreTokens
| OtherError (what : string).

(** The result of running a piece of Python: a value, a raised exception, or
    [OutOfFuel] when the recursion bound of the model is reached. *)
Inductive outcome (A : Type) :=
| Ok (a : A)
| Raise (e : exn)
| OutOfFuel.
Arguments Ok {A} a.
Arguments Raise {A} e.
Arguments OutOfFuel {A}.

Definition is_Ok {A} (r : outcome A) : Prop := ∃ a, r = Ok a.

(** ** rule.py: normalize_var *)

Definition underscore_to_hyphen (c : ascii) : ascii :=
  if Ascii.eqb c "_"%char then "-"%char else c.

(** [name.replace('_', '-')] on a [str]. *)
Fixpoint normalize_var (name : string) : string :=
  match name with
  | EmptyString => EmptyString
  | String.String c rest => String.String (underscore_to_hyphen c) (normalize_var rest)
  end.

(** Two names that differ only in the choice between hyphen and underscore
    at some positions. *)
Definition is_hyphen_or_underscore (c : ascii) : bool :=
  Ascii.eqb c "-"%char || Ascii.eqb c "_"%char.

Fixpoint hyphen_equiv (a b : string) : bool :=
  match a, b with
  | EmptyString, EmptyString => true
  | String.String c a', String.String d b' =>
      (Ascii.eqb c d || (is_hyphen_or_underscore c && is_hyphen_or_underscore d))
      && hyphen_equiv a' b'
  | _, _ => false
  end.

(** ** rule.py: VariableScope

    [self.maps] is a Python list whose entries are references.  An entry is
    either a dict or, after [Namespace.derive_from] with several parents, a
    generator object.  Both are mutable heap objects, so a scope is a list of
    locations into a store. *)

Inductive link :=
| Dict (l : nat)
| Generator (g : nat).

(** A VariableScope object is identified with its [maps] attribute, which is
    assigned once in [__init__] and never rebound. *)
Definition VariableScope := list link.

Section Scope.
Context {K V : Type} `{Countable K}.

(** The heap of dicts and generators.  A generator is represented by the
    VariableScope objects it has not yielded yet. *)
Record store := mkStore {
  dicts : list (gmap K V);
  generators : list (list VariableScope)
}.

(** [key == scope] for a key (a [str] or a [(str, arity)] tuple) and a
    VariableScope instance.  VariableScope defines no [__eq__], so the
    comparison falls back to identity and is False. *)
Definition key_eq_scope (key : K) (s : VariableScope) : bool := false.

(** [key in gen] on a generator: the generator is advanced, each yielded
    object is compared with the key, and iteration stops at the first
    match or when the generator is exhausted. *)
Fixpoint gen_search (key : K) (rem : list VariableScope)
  : bool * list VariableScope :=
  match rem with
  | [] => (false, [])
  | s :: rem' => if key_eq_scope key s then (true, rem') else gen_search key rem'
  end.

(** [key in map] *)
Definition contains (key : K) (m : link) (st : store) : bool * store :=
  match m with
  | Dict l =>
      (match dicts st !! l with
       | Some d => bool_decide (is_Some (d !! key))
       | None => false
       end, st)
  | Generator g =>
      match generators st !! g with
      | Some rem =>
          let '(b, rem') := gen_search key rem in
          (b, mkStore (dicts st) (<[g := rem']> (generators st)))
      | None => (false, st)
      end
  end.

(** [map[key]] *)
Definition subscript (m : link) (key : K) (st : store) : outcome V :=
  match m with
  | Dict l =>
      match dicts st !! l with
      | Some d => match d !! key with Some v => Ok v | None => Raise KeyError end
      | None => Raise KeyError
      end
  | Generator _ => Raise TypeError
  end.

(** [map[key] = value] *)
Definition store_item (m : link) (key : K) (value : V) (st : store)
  : outcome unit * store :=
  match m with
  | Dict l => (Ok tt, mkStore (alter (insert key value) l (dicts st)) (generators st))
  | Generator _ => (Raise TypeError, st)
  end.

(** [VariableScope.__getitem__] *)
Fixpoint getitem (maps : VariableScope) (key : K) (st : store)
  : outcome V * store :=
  match maps with
  | [] => (Raise KeyError, st)
  | m :: maps' =>
      let '(found, st') := contains key m st in
      if found then (subscript m key st', st') else getitem maps' key st'
  end.

(** The [for] loop of [VariableScope.__setitem__]; [None] when the loop
    ends without returning. *)
Fixpoint setitem_loop (maps : VariableScope) (key : K) (value : V) (st : store)
  : option (outcome unit) * store :=
  match maps with
  | [] => (None, st)
  | m :: maps' =>
      let '(found, st') := contains key m st in
      if found then
        let '(r, st'') := store_item m key value st' in (Some r, st'')
      else setitem_loop maps' key value st'
  end.

(** [VariableScope.__setitem__] *)
Definition setitem (maps : VariableScope) (key : K) (value : V) (st : store)
  : outcome unit * store :=
  match setitem_loop maps key value st with
  | (Some r, st') => (r, st')
  | (None, st') =>
      match maps with
      | m0 :: _ => store_item m0 key value st'
      | [] => (Raise IndexError, st')
      end
  end.

(** [VariableScope.__init__] with star-args [maps]: [self.maps = [dict()] + list(maps)].
    The fresh dict gets the next free location. *)
Definition VariableScope_init (maps : list link) (st : store)
  : VariableScope * store :=
  (Dict (length (dicts st)) :: maps,
   mkStore (dicts st ++ [∅]) (generators st)).

(** [VariableScope.new_child]: a new VariableScope whose star-args are [self.maps] *)
Definition new_child (self : VariableScope) (st : store)
  : VariableScope * store :=
  VariableScope_init self st.

(** A generator expression [(f(o) for o in others)]: a fresh generator
    object that will yield the given scopes. *)
Definition alloc_generator (items : list VariableScope) (st : store)
  : link * store :=
  (Generator (length (generators st)),
   mkStore (dicts st) (generators st ++ [items])).

(** *** Reading a chain, as a function of the dicts alone *)

(** Does the link hold the key?  A generator never does. *)
Definition link_has (ds : list (gmap K V)) (m : link) (key : K) : bool :=
  match m with
  | Dict l => match ds !! l with
              | Some d => bool_decide (is_Some (d !! key))
              | None => false
              end
  | Generator _ => false
  end.

(** Every reference of a scope points to an allocated object. *)
Definition link_wf (st : store) (m : link) : Prop :=
  match m with
  | Dict l => l < length (dicts st)
  | Generator g => g < length (generators st)
  end.

Definition scope_wf (st : store) (maps : VariableScope) : Prop :=
  Forall (link_wf st) maps.

(** The first link of the chain that already contains the key, as the
    location of its dict. *)
Fixpoint first_holder (ds : list (gmap K V)) (maps : VariableScope) (key : K)
  : option nat :=
  match maps with
  | [] => None
  | m :: maps' =>
      if link_has ds m key
      then match m with Dict l => Some l | Generator _ => None end
      else first_holder ds maps' key
  end.

(** What a chain binds a key to: the entry of the first link that holds it. *)
Definition chain_lookup (ds : list (gmap K V)) (maps : VariableScope) (key : K)
  : option V :=
  l ← first_holder ds maps key; d ← ds !! l; d !! key.

(** The result of a lookup that finds [o], or raises KeyError on [None]. *)
Definition found_or_KeyError (o : option V) : outcome V :=
  match o with Some v => Ok v | None => Raise KeyError end.

End Scope.

Arguments store K V {_ _}.

(** ** Values *)

(** Modelled from the spec: the argument of [ColorValue], which the parser
    builds with [ParserValue(COLOR)] or [ColorValue.from_name(word)];
    both are absent (scss.types). *)
Inductive color_source :=
| ParserValue (text : string)
| from_name (word : string).

(** Modelled from the spec: the value classes of the absent [scss.types]
    (Number, Color, String, Boolean, Null, List of the data model), which
    expression.py and core.py only construct and pass around.  A
    constructor records the arguments of the constructor call in the
    source.  Rendering, truthiness, equality and the arithmetic operators
    are methods of the absent classes and are taken as parameters below
    ([Externals]).  A float magnitude is represented by the exact rational
    it is read from; no arithmetic is done on it here.

    A Python object handled by the engine ([pyobj]) is either such a value
    or a plain [str]: the Namespace may hold raw source text whose parsing
    was deferred ([isinstance(value, six.string_types)] in
    [Variable.evaluate] and [Namespace.set_variable]). *)
#[warnings="-register-all"]
Inductive value :=
| NumberValue (magnitude : Q) (unit : option string)
| ColorValue (source : color_source)
| String (text : string) (quotes : option ascii)
| BooleanValue (b : bool)
| Null
| ListValue (items : list pyobj) (separator : string)
with pyobj :=
| PyStr (s : string)
| Sass (v : value).

(** [isinstance(o, six.string_types)] *)
Definition is_str (o : pyobj) : bool :=
  match o with PyStr _ => true | Sass _ => false end.

(** A registered function or mixin: an opaque Python callable, of which the
    evaluator inspects only [__name__]. *)
Record callable := mkCallable {
  callable_name : string;
  callable_id : nat
}.

(** ** rule.py: Namespace *)

(** Keys of the function and mixin tables: [(name, arity)] with arity an
    int or None. *)
Abbreviation fkey := (string * option nat)%type.

(** The Python heap as far as scopes are concerned: the dicts and generators
    of the variable chains and those of the function and mixin chains. *)
Record heap := mkHeap {
  vars : store string pyobj;
  callables : store fkey callable
}.

Record Namespace := mkNamespace {
  _variables : VariableScope;
  _functions : VariableScope;
  _mixins : VariableScope
}.

Definition empty_heap : heap := mkHeap (mkStore [] []) (mkStore [] []).

(** Run a scope operation on one of the two stores of the heap. *)
Definition on_vars {A} (f : store string pyobj → A * store string pyobj)
  (h : heap) : A * heap :=
  let '(a, s) := f (vars h) in (a, mkHeap s (callables h)).

Definition on_callables {A} (f : store fkey callable → A * store fkey callable)
  (h : heap) : A * heap :=
  let '(a, s) := f (callables h) in (a, mkHeap (vars h) s).

(** [Namespace.__init__(variables=None, functions=None, mixins=None)].
    [variables] is a dict and [functions] a library whose [_functions] is a
    dict; both are given by the location of that dict.  [mixins] is ignored
    by the source. *)
Definition Namespace_init (variables functions : option nat) (h : heap)
  : Namespace * heap :=
  let '(vs, h1) := on_vars (VariableScope_init
                     (match variables with Some l => [Dict l] | None => [] end)) h in
  let '(fs, h2) := on_callables (VariableScope_init
                     (match functions with Some l => [Dict l] | None => [] end)) h1 in
  let '(ms, h3) := on_callables (VariableScope_init []) h2 in
  (mkNamespace vs fs ms, h3).

(** [Namespace.derive_from(cls, *others)].  With one parent each chain gets a
    new child.  Otherwise each VariableScope is constructed with ONE
    argument, the generator expression [(other._variables for other in
    others)], so its [maps] is [[dict(), <generator>]]. *)
Definition derive_from (others : list Namespace) (h : heap) : Namespace * heap :=
  let '(_, h0) := Namespace_init None None h in
  match others with
  | [other] =>
      let '(vs, h1) := on_vars (new_child (_variables other)) h0 in
      let '(fs, h2) := on_callables (new_child (_functions other)) h1 in
      let '(ms, h3) := on_callables (new_child (_mixins other)) h2 in
      (mkNamespace vs fs ms, h3)
  | _ =>
      let '(gv, h1) := on_vars (alloc_generator (map _variables others)) h0 in
      let '(vs, h2) := on_vars (VariableScope_init [gv]) h1 in
      let '(gf, h3) := on_callables (alloc_generator (map _functions others)) h2 in
      let '(fs, h4) := on_callables (VariableScope_init [gf]) h3 in
      let '(gm, h5) := on_callables (alloc_generator (map _mixins others)) h4 in
      let '(ms, h6) := on_callables (VariableScope_init [gm]) h5 in
      (mkNamespace vs fs ms, h6)
  end.

(** [Namespace.derive] *)
Definition derive (self : Namespace) (h : heap) : Namespace * heap :=
  derive_from [self] h.

(** [Namespace.variable] *)
Definition variable (self : Namespace) (name : string) (h : heap)
  : outcome pyobj * heap :=
  on_vars (getitem (_variables self) (normalize_var name)) h.

(** [value.startswith('$')] *)
Definition startswith_dollar (s : string) : bool :=
  match s with
  | String.String c _ => Ascii.eqb c "$"%char
  | EmptyString => false
  end.

(** [Namespace.set_variable]; a failed [assert] is reported as [OtherError]. *)
Definition set_variable (self : Namespace) (name : string) (v : pyobj) (h : heap)
  : outcome unit * heap :=
  match v with
  | PyStr s =>
      if startswith_dollar s then (Raise (OtherError "AssertionError"), h)
      else on_vars (setitem (_variables self) (normalize_var name) v) h
  | _ => on_vars (setitem (_variables self) (normalize_var name) v) h
  end.

(** [Namespace._get_callable] *)
Definition _get_callable (chainmap : VariableScope) (name : string)
  (arity : option nat) (st : store fkey callable)
  : outcome callable * store fkey callable :=
  let name := normalize_var name in
  match arity with
  | Some a =>
      match getitem chainmap (name, Some a) st with
      | (Raise KeyError, st') => getitem chainmap (name, None) st'
      | (r, st') => (r, st')
      end
  | None => getitem chainmap (name, None) st
  end.

(** [Namespace._set_callable] *)
Definition _set_callable (chainmap : VariableScope) (name : string)
  (arity : option nat) (cb : callable) (st : store fkey callable)
  : outcome unit * store fkey callable :=
  setitem chainmap (normalize_var name, arity) cb st.

(** [Namespace.mixin], [set_mixin], [function], [set_function] *)
Definition mixin (self : Namespace) (name : string) (arity : option nat)
  (h : heap) : outcome callable * heap :=
  on_callables (_get_callable (_mixins self) name arity) h.

Definition set_mixin (self : Namespace) (name : string) (arity : option nat)
  (cb : callable) (h : heap) : outcome unit * heap :=
  on_callables (_set_callable (_mixins self) name arity cb) h.

Definition function (self : Namespace) (name : string) (arity : option nat)
  (h : heap) : outcome callable * heap :=
  on_callables (_get_callable (_functions self) name arity) h.

Definition set_function (self : Namespace) (name : string) (arity : option nat)
  (cb : callable) (h : heap) : outcome unit * heap :=
  on_callables (_set_callable (_functions self) name arity cb) h.

(** ** expression.py: the AST

    The classes [Parentheses], [UnaryOp], [BinaryOp], [AnyOp], [AllOp],
    [NotOp], [CallOp], [Literal], [Variable] (here [Variable_], the plain
    name being a keyword), [ListLiteral]; an [ArgspecLiteral] is the list
    of its [argpairs].  The operators are the functions of Python's
    [operator] module that the parser stores in the nodes. *)

Module operator.
Inductive unary := neg | pos.
Inductive binary := lt | gt | le | ge | eq | ne | add | sub | mul | truediv.
End operator.

#[warnings="-register-all"]
Inductive Expression :=
| Parentheses (contents : Expression)
| UnaryOp (op : operator.unary) (operand : Expression)
| BinaryOp (op : operator.binary) (left right : Expression)
| AnyOp (operands : list Expression)
| AllOp (operands : list Expression)
| NotOp (operand : Expression)
| CallOp (func_name : string) (argspec : list (option string * Expression))
| Literal (v : value)
| Variable_ (name : string)
| ListLiteral (items : list Expression) (comma : bool).

Definition ArgspecLiteral : Type := list (option string * Expression).

(** [isinstance(node, Literal)] *)
Definition isinstance_Literal (e : Expression) : bool :=
  match e with Literal _ => true | _ => false end.

(** [op is operator.truediv] *)
Definition is_truediv (op : operator.binary) : bool :=
  match op with operator.truediv => true | _ => false end.

(** ** What the engine imports

    Code of the repository that is not part of the modelled files and is
    used through a narrow interface: the methods of the value classes
    (scss.types), two predicates, two compiled regular expressions
    (scss.cssdefs), [dequote] (scss.util), the [DEBUG] flag (scss.config)
    and the registered Python callables.  They are parameters of the
    development.  [H] is whatever state the callables keep.

    A regular expression used with [re.sub(callback, text)] is given by the
    way it cuts a text into unmatched stretches ([inl]) and matches ([inr],
    carrying the groups the callback reads). *)

Record Externals (H : Type) := mkExternals {
  render : value → string;
  sass_bool : value → bool;
  py_str : value → string;
  sass_eq : pyobj → pyobj → bool;
  apply_unary : operator.unary → pyobj → outcome pyobj;
  apply_binary : operator.binary → pyobj → pyobj → outcome pyobj;
  COLOR_NAMES : string → bool;
  is_builtin_css_function : string → bool;
  _expr_glob_re : string → list (string + string);
  _interpolate_re : string → list (string + (string * option string * string));
  dequote : string → string;
  DEBUG : bool;
  invoke : callable → option Namespace → list pyobj → gmap string pyobj →
           heap * H → outcome pyobj * (heap * H)
}.
Arguments render {H} _ _.
Arguments sass_bool {H} _ _.
Arguments py_str {H} _ _.
Arguments sass_eq {H} _ _ _.
Arguments apply_unary {H} _ _ _.
Arguments apply_binary {H} _ _ _ _.
Arguments COLOR_NAMES {H} _ _.
Arguments is_builtin_css_function {H} _ _.
Arguments _expr_glob_re {H} _ _.
Arguments _interpolate_re {H} _ _.
Arguments dequote {H} _ _.
Arguments DEBUG {H} _.
Arguments invoke {H} _ _ _ _ _ _.

(** ** The state of a run *)

Record machine (H : Type) := mkMachine {
  mheap : heap;
  ast_cache : gmap string Expression;
  log : list string;
  host : H
}.
Arguments mkMachine {H} _ _ _ _.
Arguments mheap {H} _.
Arguments ast_cache {H} _.
Arguments log {H} _.
Arguments host {H} _.

Record Calculator := mkCalculator { namespace : Namespace }.

(** [var.lstrip('$')] and [.replace('-', '_')] *)
Fixpoint lstrip_dollar (s : string) : string :=
  match s with
  | String.String c rest => if Ascii.eqb c "$"%char then lstrip_dollar rest else s
  | EmptyString => EmptyString
  end.

Definition hyphen_to_underscore (c : ascii) : ascii :=
  if Ascii.eqb c "-"%char then "_"%char else c.

Fixpoint replace_hyphens (s : string) : string :=
  match s with
  | EmptyString => EmptyString
  | String.String c rest => String.String (hyphen_to_underscore c) (replace_hyphens rest)
  end.

(** [needle in text] for two [str] *)
Definition str_in (needle text : string) : bool :=
  match String.index 0 needle text with Some _ => true | None => false end.

Section Engine.
Context {H : Type} (X : Externals H).

(** Computations of the engine: state passing with exceptions. *)
Definition M (A : Type) : Type := machine H → outcome A * machine H.

Definition ret {A} (a : A) : M A := λ m, (Ok a, m).
Definition raise {A} (e : exn) : M A := λ m, (Raise e, m).
Definition out_of_fuel {A} : M A := λ m, (OutOfFuel, m).
Definition lift_outcome {A} (r : outcome A) : M A := λ m, (r, m).

Definition bind {A B} (c : M A) (k : A → M B) : M B :=
  λ m, match c m with
       | (Ok a, m') => k a m'
       | (Raise e, m') => (Raise e, m')
       | (OutOfFuel, m') => (OutOfFuel, m')
       end.

(** [try: x = c  except KeyError: pass]: [None] when KeyError was raised;
    what follows the statement is not covered by the [try]. *)
Definition try_KeyError {A} (c : M A) : M (option A) :=
  λ m, match c m with
       | (Ok a, m') => (Ok (Some a), m')
       | (Raise KeyError, m') => (Ok None, m')
       | (Raise e, m') => (Raise e, m')
       | (OutOfFuel, m') => (OutOfFuel, m')
       end.

(** [try: x = c  except KeyError: x = handler] *)
Definition except_KeyError {A} (c : M A) (handler : M A) : M A :=
  λ m, match c m with
       | (Raise KeyError, m') => handler m'
       | r => r
       end.

Definition lift_heap {A} (f : heap → outcome A * heap) : M A :=
  λ m, let '(r, h) := f (mheap m) in
       (r, mkMachine h (ast_cache m) (log m) (host m)).

Definition get_cache : M (gmap string Expression) := λ m, (Ok (ast_cache m), m).

Definition cache_store (text : string) (ast : Expression) : M unit :=
  λ m, (Ok tt, mkMachine (mheap m) (<[text := ast]> (ast_cache m)) (log m) (host m)).

(** [log.warn(msg)] *)
Definition log_warn (msg : string) : M unit :=
  λ m, (Ok tt, mkMachine (mheap m) (ast_cache m) (log m ++ [msg]) (host m)).

(** [func( *args, **kwargs)] *)
Definition call (func : callable) (ns : option Namespace) (args : list pyobj)
  (kwargs : gmap string pyobj) : M pyobj :=
  λ m, let '(r, (h, s)) := invoke X func ns args kwargs (mheap m, host m) in
       (r, mkMachine h (ast_cache m) (log m) s).

Fixpoint mapM {A B} (f : A → M B) (l : list A) : M (list B) :=
  match l with
  | [] => ret []
  | x :: rest =>
      bind (f x) (λ y, bind (mapM f rest) (λ ys, ret (y :: ys)))
  end.

(** [bool(o)] *)
Definition truth (o : pyobj) : bool :=
  match o with
  | PyStr s => negb (String.eqb s "")
  | Sass v => sass_bool X v
  end.

(** [o.render()]: a [str] has no such method. *)
Definition render_obj (o : pyobj) : outcome string :=
  match o with
  | PyStr _ => Raise AttributeError
  | Sass v => Ok (render X v)
  end.

(** [str(o)] *)
Definition str (o : pyobj) : string :=
  match o with
  | PyStr s => s
  | Sass v => py_str X v
  end.

(** ** expression.py: evaluation of the AST *)

(** The loop of [CallOp.evaluate] over the evaluated argument pairs:
    positional values go to [args], named ones to [kwargs] under
    [var.lstrip('$').replace('-', '_')]. *)
Definition positional_args (evald_argpairs : list (option string * pyobj))
  : list pyobj :=
  omap (λ p, match fst p with None => Some (snd p) | Some _ => None end)
       evald_argpairs.

Definition keyword_args (evald_argpairs : list (option string * pyobj))
  : gmap string pyobj :=
  fold_left (λ kwargs p,
               match fst p with
               | Some var => <[replace_hyphens (lstrip_dollar var) := snd p]> kwargs
               | None => kwargs
               end) evald_argpairs ∅.

(** The second loop of [CallOp.evaluate], in the [except KeyError] branch:
    [value.render()] for each pair, ["%s: %s" % (var, rendered_value)] for
    a named one.  It stops at the first exception. *)
Fixpoint rendered_args (evald_argpairs : list (option string * pyobj))
  : outcome (list string) :=
  match evald_argpairs with
  | [] => Ok []
  | (var, v) :: rest =>
      match render_obj v with
      | Ok rendered_value =>
          match rendered_args rest with
          | Ok rs =>
              Ok (match var with
                  | None => rendered_value
                  | Some name => name +:+ ": " +:+ rendered_value
                  end :: rs)
          | other => other
          end
      | Raise e => Raise e
      | OutOfFuel => OutOfFuel
      end
  end.

(** ["%s(%s)" % (func_name, ", ".join(rendered_args))] *)
Definition passthrough_text (func_name : string) (rs : list string) : string :=
  func_name +:+ "(" +:+ String.concat ", " rs +:+ ")".

(** The body of [Calculator.evaluate_expression], given the evaluator [ev]
    for [ast.evaluate(self)] and the parser [parse] for
    [SassExpression(SassExpressionScanner())], [reset] and [goal]. *)
Definition evaluate_expression_with (parse : string → outcome Expression)
  (ev : Expression → M pyobj) (calculator : Calculator) (expr : pyobj)
  : M (option pyobj) :=
  match expr with
  | PyStr text =>
      bind (try_KeyError (lift_heap (variable (namespace calculator) text)))
        (λ results,
         match results with
         | Some _ => ret results
         | None =>
             bind get_cache (λ cache,
               match cache !! text with
               | Some ast => bind (ev ast) (λ results, ret (Some results))
               | None =>
                   match parse text with
                   | Ok ast =>
                       bind (cache_store text ast) (λ _,
                       bind (ev ast) (λ results, ret (Some results)))
                   | Raise e => if DEBUG X then raise e else ret None
                   | OutOfFuel => out_of_fuel
                   end
               end)
         end)
  | Sass _ => ret (Some expr)
  end.

(** [node.evaluate(calculator, divide)], one constructor per class. *)
Fixpoint evaluate (parse : string → outcome Expression) (fuel : nat)
  (calculator : Calculator) (e : Expression) (divide : bool) : M pyobj :=
  match fuel with
  | 0 => out_of_fuel
  | S n =>
      match e with
      | Parentheses contents => evaluate parse n calculator contents true
      | UnaryOp op operand =>
          bind (evaluate parse n calculator operand true) (λ v,
          lift_outcome (apply_unary X op v))
      | BinaryOp op left_ right_ =>
          bind (evaluate parse n calculator left_ true) (λ l,
          bind (evaluate parse n calculator right_ true) (λ r,
          if is_truediv op && negb divide
             && isinstance_Literal left_ && isinstance_Literal right_
          then
            bind (lift_outcome (render_obj l)) (λ sl,
            bind (lift_outcome (render_obj r)) (λ sr,
            ret (Sass (String (sl +:+ " / " +:+ sr) None))))
          else lift_outcome (apply_binary X op l r)))
      | AnyOp operands =>
          bind (mapM (λ operand, evaluate parse n calculator operand true) operands)
               (λ vs, ret (Sass (BooleanValue (existsb truth vs))))
      | AllOp operands =>
          bind (mapM (λ operand, evaluate parse n calculator operand true) operands)
               (λ vs, ret (Sass (BooleanValue (forallb truth vs))))
      | NotOp operand =>
          bind (evaluate parse n calculator operand true) (λ v,
          ret (Sass (BooleanValue (negb (truth v)))))
      | CallOp func_name argspec =>
          bind (mapM (λ p, bind (evaluate parse n calculator (snd p) true)
                                (λ v, ret (fst p, v))) argspec)
               (λ evald_argpairs,
          let num_args := length argspec in
          bind (try_KeyError
                  (lift_heap (function (namespace calculator) func_name
                                (Some num_args))))
            (λ found,
             match found with
             | None =>
                 bind (if is_builtin_css_function X func_name then ret tt
                       else log_warn "no such function") (λ _,
                 bind (lift_outcome (rendered_args evald_argpairs)) (λ rs,
                 ret (Sass (String (passthrough_text func_name rs) None))))
             | Some func =>
                 call func
                      (if String.eqb (callable_name func) "__call"
                       then Some (namespace calculator) else None)
                      (positional_args evald_argpairs)
                      (keyword_args evald_argpairs)
             end))
      | Literal v => ret (Sass v)
      | Variable_ name =>
          bind (lift_heap (variable (namespace calculator) name)) (λ v,
          if is_str v then
            bind (evaluate_expression_with parse
                    (λ ast, evaluate parse n calculator ast false) calculator v)
                 (λ evald, match evald with Some r => ret r | None => ret v end)
          else ret v)
      | ListLiteral items comma =>
          bind (mapM (λ item, evaluate parse n calculator item divide) items)
               (λ vs, ret (Sass (ListValue vs (if comma then "," else ""))))
      end
  end.

(** ** expression.py: Calculator *)

(** [Calculator.evaluate_expression]: [ast.evaluate(self)] runs with the
    default [divide=False]. *)
Definition evaluate_expression (parse : string → outcome Expression) (fuel : nat)
  (calculator : Calculator) (expr : pyobj) : M (option pyobj) :=
  evaluate_expression_with parse
    (λ ast, evaluate parse fuel calculator ast false) calculator expr.

(** [Calculator.parse_expression] *)
Definition parse_expression (parse : string → outcome Expression) (text : string)
  : M Expression :=
  bind get_cache (λ cache,
    match cache !! text with
    | Some ast => ret ast
    | None =>
        bind (lift_outcome (parse text)) (λ ast,
        bind (cache_store text ast) (λ _, ret ast))
    end).

(** The callback [_av] of [Calculator.apply_vars], applied to a match of
    [_interpolate_re] with groups 0, 1 and 2. *)
Definition _av (calculator : Calculator)
  (g : string * option string * string) : M string :=
  let '(group0, group1, group2) := g in
  bind (lift_heap (variable (namespace calculator) group2)) (λ v,
  if truth v then
    bind (match v with
          | PyStr s => ret s
          | Sass _ => lift_outcome (render_obj v)
          end) (λ text,
    match group1 with
    | Some (String.String _ _) => ret (dequote X text)
    | _ => ret text
    end)
  else ret group0).

(** [regex.sub(callback, text)]: the unmatched stretches are kept, each
    match is replaced by what the callback returns, from left to right. *)
Definition re_sub {G} (pieces : list (string + G)) (callback : G → M string)
  : M string :=
  bind (mapM (λ piece, match piece with
                       | inl text => ret text
                       | inr g => callback g
                       end) pieces)
       (λ parts, ret (String.concat "" parts)).

(** [Calculator.do_glob_math], [Calculator._calculate_expr] and
    [Calculator.apply_vars] call one another through the regex callbacks. *)
Fixpoint do_glob_math (parse : string → outcome Expression) (fuel : nat)
  (calculator : Calculator) (cont : pyobj) : M string :=
  match fuel with
  | 0 => out_of_fuel
  | S n =>
      let cont := str cont in
      if negb (str_in "#{" cont) then ret cont
      else re_sub (_expr_glob_re X cont) (_calculate_expr parse n calculator)
  end
with _calculate_expr (parse : string → outcome Expression) (fuel : nat)
  (calculator : Calculator) (group1 : string) : M string :=
  match fuel with
  | 0 => out_of_fuel
  | S n =>
      bind (evaluate_expression parse n calculator (PyStr group1))
        (λ better_expr_str,
         match better_expr_str with
         | None => apply_vars parse n calculator (PyStr group1)
         | Some v =>
             bind (lift_outcome (render_obj v)) (λ s, ret (dequote X s))
         end)
  end
with apply_vars (parse : string → outcome Expression) (fuel : nat)
  (calculator : Calculator) (cont : pyobj) : M string :=
  match fuel with
  | 0 => out_of_fuel
  | S n =>
      bind (match cont with
            | PyStr s =>
                if str_in "$" s then
                  except_KeyError
                    (lift_heap (variable (namespace calculator) s))
                    (bind (re_sub (_interpolate_re X s) (_av calculator))
                          (λ s', ret (PyStr s')))
                else ret cont
            | Sass _ => ret cont
            end)
        (λ cont, do_glob_math parse n calculator cont)
  end.

(** [Calculator.calculate] *)
Definition calculate (parse : string → outcome Expression) (fuel : nat)
  (calculator : Calculator) (_base_str : pyobj) : M pyobj :=
  bind (do_glob_math parse fuel calculator _base_str) (λ better_expr_str,
  bind (evaluate_expression parse fuel calculator (PyStr better_expr_str))
    (λ better_expr_str,
     match better_expr_str with
     | None =>
         bind (apply_vars parse fuel calculator _base_str)
              (λ s, ret (PyStr s))
     | Some v => ret v
     end)).

(** ** core.py: index *)

(** The loop [for i in xrange(len(lst))] of [index]: [todo] iterations are
    left, the next one reads [lst.value[i]]. *)
Fixpoint index_loop (items : list pyobj) (val : pyobj) (i todo : nat)
  : outcome pyobj :=
  match todo with
  | 0 => Ok (Sass (BooleanValue false))
  | S todo' =>
      match items !! i with
      | Some x =>
          if sass_eq X x val
          then Ok (Sass (NumberValue (inject_Z (Z.of_nat (i + 1))) None))
          else index_loop items val (S i) todo'
      | None => Raise IndexError
      end
  end.

(** [index(lst, val)] for a list value [lst], whose [value] attribute and
    length are those of its items.  What the built-in does with a value of
    another class depends on the absent classes and is left out ([None]). *)
Definition index (lst val : pyobj) : option (outcome pyobj) :=
  match lst with
  | Sass (ListValue items _) => Some (index_loop items val 0 (length items))
  | _ => None
  end.

End Engine.

(** ** expression.py: the token patterns

    Each entry of [SassExpressionScanner._patterns] is a regular expression
    that the scanner applies with [regex.match(input, pos)].  A pattern is
    embedded as the function that gives the length of its match from the
    text [rest] at the position, given the character [prev] just before it
    (for the look-behind assertions).  Characters are ASCII: [\w], [\d] and
    [\s] have their ASCII meaning. *)

Inductive tok :=
| COLON | WHITESPACE | COMMA | LPAR | RPAR | END | MUL | DIV | ADD | SUB
| SIGN | AND | OR | NOT | NE | INV | EQ | LE | GE | LT | GT | STR | QSTR
| UNITS | NUM | COLOR | VAR | FNCT | ID.

Definition tok_eq_dec (a b : tok) : {a = b} + {a ≠ b}.
Proof. decide equality. Defined.

Definition tok_eqb (a b : tok) : bool := if tok_eq_dec a b then true else false.

Definition tok_in (t : tok) (set : list tok) : bool := existsb (tok_eqb t) set.

Definition in_range (lo hi : nat) (c : ascii) : bool :=
  ((lo <=? nat_of_ascii c) && (nat_of_ascii c <=? hi))%nat.

(** [\d], [[a-zA-Z]], [\w], [[-a-zA-Z_]], [[-a-zA-Z0-9_]], [[a-fA-F0-9]] *)
Definition is_digit (c : ascii) : bool := in_range 48 57 c.
Definition is_alpha (c : ascii) : bool := in_range 97 122 c || in_range 65 90 c.
Definition is_word (c : ascii) : bool :=
  is_alpha c || is_digit c || Ascii.eqb c "_"%char.
Definition is_hyphen_word (c : ascii) : bool := Ascii.eqb c "-"%char || is_word c.
Definition is_ident_start (c : ascii) : bool :=
  Ascii.eqb c "-"%char || is_alpha c || Ascii.eqb c "_"%char.
Definition is_ident_char (c : ascii) : bool := is_hyphen_word c.
Definition is_hex (c : ascii) : bool :=
  in_range 97 102 c || in_range 65 70 c || is_digit c.
(** [\s] on a byte string: space, tab, newline, carriage return, form feed,
    vertical tab.  On a text of Python 3, [\s] also matches the separators
    28 to 31 and white space outside ASCII. *)
Definition is_space (c : ascii) : bool :=
  Ascii.eqb c " "%char || in_range 9 13 c.
(** [[ \r\t\n]] *)
Definition is_blank (c : ascii) : bool :=
  match nat_of_ascii c with
  | 32 | 13 | 9 | 10 => true
  | _ => false
  end.

(** Length of the longest prefix whose characters satisfy [p]: a greedy
    [[...]*]. *)
Fixpoint span (p : ascii → bool) (s : list ascii) : nat :=
  match s with
  | c :: rest => if p c then S (span p rest) else 0
  | [] => 0
  end.

Fixpoint starts_with (prefix s : list ascii) : bool :=
  match prefix, s with
  | [], _ => true
  | p :: prefix', c :: s' => Ascii.eqb p c && starts_with prefix' s'
  | _ :: _, [] => false
  end.

(** A look-ahead or look-behind [(?!...)] on one character: true when
    there is no character, or it is not in the class. *)
Definition not_next (p : ascii → bool) (s : list ascii) : bool :=
  match s with c :: _ => negb (p c) | [] => true end.

Definition not_prev (p : ascii → bool) (prev : option ascii) : bool :=
  match prev with Some c => negb (p c) | None => true end.

Definition matcher : Type := option ascii → list ascii → option nat.

(** A literal text. *)
Definition m_lit (text : string) : matcher :=
  λ _ rest, let t := list_ascii_of_string text in
            if starts_with t rest then Some (length t) else None.

(** [\(|\[] and [\)|\]] *)
Definition m_either (a b : ascii) : matcher :=
  λ _ rest, match rest with
            | c :: _ => if Ascii.eqb c a || Ascii.eqb c b then Some 1 else None
            | [] => None
            end.

(** [[ \r\t\n]+] *)
Definition m_whitespace : matcher :=
  λ _ rest, match span is_blank rest with 0 => None | n => Some n end.

(** [$]: the end of the text, or just before a newline that ends it. *)
Definition m_END : matcher :=
  λ _ rest, match rest with
            | [] => Some 0
            | [c] => if Ascii.eqb c "010"%char then Some 0 else None
            | _ => None
            end.

(** [-\s] *)
Definition m_SUB : matcher :=
  λ _ rest, match rest with
            | m :: c :: _ => if Ascii.eqb m "-"%char && is_space c then Some 2 else None
            | _ => None
            end.

(** [-(?![a-zA-Z_])] *)
Definition m_SIGN : matcher :=
  λ _ rest, match rest with
            | m :: rest' =>
                if Ascii.eqb m "-"%char
                   && not_next (λ c, is_alpha c || Ascii.eqb c "_"%char) rest'
                then Some 1 else None
            | [] => None
            end.

(** [(?<![-\w])word(?![-\w])] for [and], [or], [not] *)
Definition m_keyword (word : string) : matcher :=
  λ prev rest,
    let w := list_ascii_of_string word in
    if not_prev is_hyphen_word prev && starts_with w rest
       && not_next is_hyphen_word (drop (length w) rest)
    then Some (length w) else None.

(** The patterns of STR and QSTR: the quote character, any run of
    characters other than it, the quote character again. *)
Definition m_quoted (q : ascii) : matcher :=
  λ _ rest, match rest with
            | c :: rest' =>
                if Ascii.eqb c q then
                  let n := span (λ x, negb (Ascii.eqb x q)) rest' in
                  match drop n rest' with
                  | _ :: _ => Some (n + 2)
                  | [] => None
                  end
                else None
            | [] => None
            end.

(** [(?<!\s)(?:[a-zA-Z]+|%)(?![-\w])].  Giving back letters of the greedy
    run never helps: the look-ahead then sees a letter. *)
Definition m_UNITS : matcher :=
  λ prev rest,
    if not_prev is_space prev then
      match span is_alpha rest with
      | 0 => match rest with
             | c :: rest' =>
                 if Ascii.eqb c "%"%char && not_next is_hyphen_word rest'
                 then Some 1 else None
             | [] => None
             end
      | n => if not_next is_hyphen_word (drop n rest) then Some n else None
      end
    else None.

(** The pattern of NUM: one or more digits, optionally followed by a dot
    and any number of digits; or a dot and one or more digits. *)
Definition m_NUM : matcher :=
  λ _ rest,
    match span is_digit rest with
    | 0 => match rest with
           | c :: rest' =>
               if Ascii.eqb c "."%char then
                 match span is_digit rest' with 0 => None | k => Some (S k) end
               else None
           | [] => None
           end
    | n => match drop n rest with
           | c :: rest' =>
               if Ascii.eqb c "."%char then Some (n + 1 + span is_digit rest')
               else Some n
           | [] => Some n
           end
    end.

(** [#(?:[a-fA-F0-9]{6}|[a-fA-F0-9]{3})(?![a-fA-F0-9])]: the hex digits
    after the [#] must be exactly six or exactly three. *)
Definition m_COLOR : matcher :=
  λ _ rest, match rest with
            | c :: rest' =>
                if Ascii.eqb c "#"%char then
                  match span is_hex rest' with
                  | 6 => Some 7
                  | 3 => Some 4
                  | _ => None
                  end
                else None
            | [] => None
            end.

(** [\$[-a-zA-Z0-9_]+] *)
Definition m_VAR : matcher :=
  λ _ rest, match rest with
            | c :: rest' =>
                if Ascii.eqb c "$"%char then
                  match span is_ident_char rest' with 0 => None | n => Some (S n) end
                else None
            | [] => None
            end.

(** [[-a-zA-Z_][-a-zA-Z0-9_]*] *)
Definition m_ID : matcher :=
  λ _ rest, match rest with
            | c :: rest' =>
                if is_ident_start c then Some (S (span is_ident_char rest')) else None
            | [] => None
            end.

(** [[-a-zA-Z_][-a-zA-Z0-9_]*(?=\()] *)
Definition m_FNCT : matcher :=
  λ prev rest, match m_ID prev rest with
               | Some n => match drop n rest with
                           | c :: _ => if Ascii.eqb c "("%char then Some n else None
                           | [] => None
                           end
               | None => None
               end.

(** [SassExpressionScanner._patterns], in the order of the source. *)
Definition _patterns : list (tok * matcher) :=
  [ (COLON, m_lit ":");
    (WHITESPACE, m_whitespace);
    (COMMA, m_lit ",");
    (LPAR, m_either "("%char "["%char);
    (RPAR, m_either ")"%char "]"%char);
    (END, m_END);
    (MUL, m_lit "*");
    (DIV, m_lit "/");
    (ADD, m_lit "+");
    (SUB, m_SUB);
    (SIGN, m_SIGN);
    (AND, m_keyword "and");
    (OR, m_keyword "or");
    (NOT, m_keyword "not");
    (NE, m_lit "!=");
    (INV, m_lit "!");
    (EQ, m_lit "==");
    (LE, m_lit "<=");
    (GE, m_lit ">=");
    (LT, m_lit "<");
    (GT, m_lit ">");
    (STR, m_quoted "'"%char);
    (QSTR, m_quoted "034"%char);
    (UNITS, m_UNITS);
    (NUM, m_NUM);
    (COLOR, m_COLOR);
    (VAR, m_VAR);
    (FNCT, m_FNCT);
    (ID, m_ID) ].

(** ** The scanner

    The run-time [Scanner] class (scss._native or scss._speedups) is
    absent: the source has only the subclass with its patterns and the
    calls [token(i, restrict)], [rewind(i)] and [reset(input)] made by
    [Parser].  It is modelled from the spec: tokenizing tries the patterns
    in their fixed order at the current position; the first pattern that
    matches and whose kind is allowed (if restricted) wins; whitespace is
    matched but always skipped; a failure is the SyntaxError that
    [Parser._peek] catches.  Tokens are produced lazily and looked up by
    index; rewind goes back to a previous token. *)

(** Modelled from the spec: a token of the absent Scanner, with the
    fields [Parser] reads: start, end, kind and text. *)
Record token := mkToken {
  tok_start : nat;
  tok_end : nat;
  tok_kind : tok;
  tok_text : list ascii
}.

(** Modelled from the spec: the state of the absent Scanner: the input,
    the tokens produced so far and the current position. *)
Record Scanner := mkScanner {
  input : list ascii;
  tokens : list token;
  pos : nat
}.

(** Modelled from the spec: the kinds the absent Scanner may return under
    a restriction; white space is always matched, and an empty restriction
    means no restriction. *)
Definition allowed (restrict : list tok) (t : tok) : bool :=
  match restrict with
  | [] => true
  | _ => tok_in t restrict || tok_eqb t WHITESPACE
  end.

(** Modelled from the spec: the first pattern of the absent Scanner, in
    the fixed order, that is allowed and matches. *)
Fixpoint first_match (patterns : list (tok * matcher)) (restrict : list tok)
  (prev : option ascii) (rest : list ascii) : option (tok * nat) :=
  match patterns with
  | [] => None
  | (t, m) :: patterns' =>
      if allowed restrict t then
        match m prev rest with
        | Some n => Some (t, n)
        | None => first_match patterns' restrict prev rest
        end
      else first_match patterns' restrict prev rest
  end.

Definition char_before (text : list ascii) (p : nat) : option ascii :=
  match p with 0 => None | S q => text !! q end.

(** Modelled from the spec: the absent Scanner scans one token from
    position [p], skipping white space, and fails with SyntaxError when no
    pattern matches. *)
Fixpoint scan_token (fuel : nat) (restrict : list tok) (text : list ascii)
  (p : nat) : outcome token :=
  match fuel with
  | 0 => OutOfFuel
  | S n =>
      match first_match _patterns restrict (char_before text p) (drop p text) with
      | None => Raise SyntaxError
      | Some (t, len) =>
          if tok_eqb t WHITESPACE then scan_token n restrict text (p + len)
          else Ok (mkToken p (p + len) t (take len (drop p text)))
      end
  end.

(** Modelled from the spec: [reset(input)] of the absent Scanner. *)
Definition Scanner_reset (text : list ascii) : Scanner := mkScanner text [] 0.

(** Modelled from the spec: [token(i, restrict)] of the absent Scanner.
    The token at index [i] is scanned when it is the next one, and looked
    up when it was produced before. *)
Definition Scanner_token (i : nat) (restrict : list tok) (sc : Scanner)
  : outcome token * Scanner :=
  if (i =? length (tokens sc))%nat then
    match scan_token (S (length (input sc))) restrict (input sc) (pos sc) with
    | Ok tk => (Ok tk, mkScanner (input sc) (tokens sc ++ [tk]) (tok_end tk))
    | Raise e => (Raise e, sc)
    | OutOfFuel => (OutOfFuel, sc)
    end
  else
    match tokens sc !! i with
    | Some tk => (Ok tk, sc)
    | None => (Raise NoMoreTokens, sc)
    end.

(** Modelled from the spec: [rewind(i)] of the absent Scanner: forget the
    tokens from index [i] on and go back to where token [i] started. *)
Definition Scanner_rewind (i : nat) (sc : Scanner) : Scanner :=
  match tokens sc !! i with
  | Some tk => mkScanner (input sc) (take i (tokens sc)) (tok_start tk)
  | None => sc
  end.

(** ** expression.py: Parser *)

Record Parser := mkParser {
  _scanner : Scanner;
  _pos : nat
}.

Definition P (A : Type) : Type := Parser → outcome A * Parser.

Definition pret {A} (a : A) : P A := λ p, (Ok a, p).
Definition praise {A} (e : exn) : P A := λ p, (Raise e, p).
Definition pout_of_fuel {A} : P A := λ p, (OutOfFuel, p).
Definition pbind {A B} (c : P A) (k : A → P B) : P B :=
  λ p, match c p with
       | (Ok a, p') => k a p'
       | (Raise e, p') => (Raise e, p')
       | (OutOfFuel, p') => (OutOfFuel, p')
       end.

Declare Scope parser_scope.
Delimit Scope parser_scope with parser.
Notation "x <- c ;; k" := (pbind c (λ x, k))
  (at level 100, c at next level, right associativity) : parser_scope.

(** [Parser.reset] *)
Definition Parser_reset (text : list ascii) : Parser :=
  mkParser (Scanner_reset text) 0.

(** [Parser._peek]: the kind of the lookahead token, None when the scanner
    raises SyntaxError. *)
Definition _peek (types : list tok) : P (option tok) :=
  λ p, match Scanner_token (_pos p) types (_scanner p) with
       | (Ok tk, sc) => (Ok (Some (tok_kind tk)), mkParser sc (_pos p))
       | (Raise SyntaxError, sc) => (Ok None, mkParser sc (_pos p))
       | (Raise e, sc) => (Raise e, mkParser sc (_pos p))
       | (OutOfFuel, sc) => (OutOfFuel, mkParser sc (_pos p))
       end.

(** [Parser._scan]: the matched text; moves to the next token. *)
Definition _scan (type : tok) : P (list ascii) :=
  λ p, match Scanner_token (_pos p) [type] (_scanner p) with
       | (Ok tk, sc) =>
           if tok_eqb (tok_kind tk) type
           then (Ok (tok_text tk), mkParser sc (_pos p + 1))
           else (Raise SyntaxError, mkParser sc (_pos p))
       | (Raise e, sc) => (Raise e, mkParser sc (_pos p))
       | (OutOfFuel, sc) => (OutOfFuel, mkParser sc (_pos p))
       end.

(** [Parser._rewind(n=1)] *)
Definition _rewind (n : nat) : P unit :=
  λ p, let pos' := _pos p - Nat.min n (_pos p) in
       (Ok tt, mkParser (Scanner_rewind pos' (_scanner p)) pos').

(** [peek in set] and [peek == kind] on the result of [_peek] *)
Definition peek_in (t : option tok) (set : list tok) : bool :=
  match t with Some k => tok_in k set | None => false end.

Definition peek_is (t : option tok) (k : tok) : bool :=
  match t with Some k' => tok_eqb k' k | None => false end.

(** The lookahead sets of the generated parser. *)
Definition m_expr_chks := [MUL; DIV].
Definition comparison_rsts :=
  [LPAR; QSTR; RPAR; LE; COLOR; NE; LT; NUM; COMMA; GT; END; SIGN; ADD; FNCT;
   STR; VAR; EQ; ID; AND; GE; NOT; OR].
Definition u_expr_chks := [LPAR; COLOR; QSTR; NUM; FNCT; STR; VAR; ID].
Definition m_expr_rsts :=
  [LPAR; SUB; QSTR; RPAR; MUL; DIV; LE; COLOR; NE; LT; NUM; COMMA; GT; END;
   SIGN; GE; FNCT; STR; VAR; EQ; ID; AND; ADD; NOT; OR].
Definition argspec_item_rsts_ :=
  [LPAR; COLOR; QSTR; SIGN; VAR; ADD; NUM; COLON; STR; NOT; ID; FNCT].
Definition expr_lst_rsts := [END; COMMA; RPAR].
Definition and_test_rsts :=
  [AND; LPAR; END; COLOR; QSTR; SIGN; VAR; ADD; NUM; COMMA; FNCT; STR; NOT; ID;
   RPAR; OR].
Definition atom_rsts :=
  [LPAR; COLOR; QSTR; SIGN; NOT; ADD; NUM; FNCT; STR; VAR; RPAR; ID].
Definition u_expr_rsts := [LPAR; COLOR; QSTR; SIGN; ADD; NUM; FNCT; STR; VAR; ID].
Definition expr_rsts :=
  [LPAR; END; COLOR; QSTR; RPAR; VAR; ADD; NUM; COMMA; FNCT; STR; NOT; ID; SIGN;
   OR].
Definition argspec_item_rsts :=
  [LPAR; COLOR; QSTR; SIGN; NOT; ADD; NUM; FNCT; STR; VAR; ID].
Definition argspec_rsts := [COMMA; RPAR].
Definition not_test_rsts :=
  [LPAR; COLOR; QSTR; SIGN; VAR; ADD; NUM; FNCT; STR; NOT; ID].
Definition atom_rsts_ :=
  [LPAR; SUB; QSTR; RPAR; VAR; MUL; DIV; LE; COLOR; NE; LT; NUM; COMMA; GT; END;
   SIGN; GE; FNCT; STR; UNITS; EQ; ID; AND; ADD; NOT; OR].
Definition comparison_chks := [GT; GE; NE; LT; LE; EQ].
Definition a_expr_chks := [ADD; SUB].
Definition a_expr_rsts :=
  [LPAR; SUB; QSTR; RPAR; LE; COLOR; NE; LT; NUM; COMMA; GT; END; SIGN; GE; FNCT;
   STR; VAR; EQ; ID; AND; ADD; NOT; OR].
Definition expr_slst_rsts :=
  [LPAR; END; COLOR; QSTR; RPAR; VAR; ADD; NUM; COMMA; FNCT; STR; NOT; SIGN; ID].

(** [float(NUM)] on the text of a NUM token: the rational the decimal
    numeral denotes. *)
Definition digits_value (ds : list ascii) : N :=
  fold_left (λ acc c, (10 * acc + N.of_nat (nat_of_ascii c - 48))%N) ds 0%N.

Definition float (text : list ascii) : Q :=
  let n := span is_digit text in
  let frac := match drop n text with _ :: f => f | [] => [] end in
  Qred (Z.of_N (digits_value (take n text ++ frac))
        # Z.to_pos (10 ^ Z.of_nat (length frac))).

(** [UNITS.lower()] *)
Definition lower_char (c : ascii) : ascii :=
  if in_range 65 90 c then ascii_of_nat (nat_of_ascii c + 32) else c.

Definition lower (s : list ascii) : string :=
  string_of_list_ascii (map lower_char s).

(** [text[1:-1]] *)
Definition strip_quotes (s : list ascii) : string :=
  string_of_list_ascii (removelast (tail s)).

(** ** expression.py: parse_bareword and the grammar SassExpression

    Each method of the generated parser is a function of the same name; a
    [while] loop is the function [<name>_loop], whose argument is the loop
    variable [v].  [fuel] bounds the depth of the calls. *)

Module SassExpression.
Section Grammar.
Context {H : Type} (X : Externals H).
Local Open Scope parser_scope.

Definition parse_bareword (word : string) : value :=
  if COLOR_NAMES X word then ColorValue (from_name word)
  else if String.eqb word "null" || String.eqb word "undefined" then Null
  else if String.eqb word "true" then BooleanValue true
  else if String.eqb word "false" then BooleanValue false
  else String word None.

(** [ListLiteral(v, comma) if len(v) > 1 else v[0]]; [v] is never empty. *)
Definition list_or_single (v : list Expression) (comma : bool) : Expression :=
  match v with
  | [x] => x
  | _ => ListLiteral v comma
  end.

Fixpoint expr (fuel : nat) : P Expression :=
  match fuel with
  | 0 => pout_of_fuel
  | S n => v <- and_test n ;; expr_loop n v
  end
with expr_loop (fuel : nat) (v : Expression) : P Expression :=
  match fuel with
  | 0 => pout_of_fuel
  | S n =>
      t <- _peek expr_rsts ;;
      if peek_is t OR then
        _ <- _scan OR ;;
        x <- and_test n ;;
        expr_loop n (AnyOp [v; x])
      else pret v
  end
with and_test (fuel : nat) : P Expression :=
  match fuel with
  | 0 => pout_of_fuel
  | S n => v <- not_test n ;; and_test_loop n v
  end
with and_test_loop (fuel : nat) (v : Expression) : P Expression :=
  match fuel with
  | 0 => pout_of_fuel
  | S n =>
      t <- _peek and_test_rsts ;;
      if peek_is t AND then
        _ <- _scan AND ;;
        x <- not_test n ;;
        and_test_loop n (AllOp [v; x])
      else pret v
  end
with not_test (fuel : nat) : P Expression :=
  match fuel with
  | 0 => pout_of_fuel
  | S n =>
      t <- _peek not_test_rsts ;;
      if negb (peek_is t NOT) then comparison n
      else
        _ <- _scan NOT ;;
        x <- not_test n ;;
        pret (NotOp x)
  end
with comparison (fuel : nat) : P Expression :=
  match fuel with
  | 0 => pout_of_fuel
  | S n => v <- a_expr n ;; comparison_loop n v
  end
with comparison_loop (fuel : nat) (v : Expression) : P Expression :=
  match fuel with
  | 0 => pout_of_fuel
  | S n =>
      t <- _peek comparison_rsts ;;
      if peek_in t comparison_chks then
        t' <- _peek comparison_chks ;;
        if peek_is t' LT then
          _ <- _scan LT ;; x <- a_expr n ;;
          comparison_loop n (BinaryOp operator.lt v x)
        else if peek_is t' GT then
          _ <- _scan GT ;; x <- a_expr n ;;
          comparison_loop n (BinaryOp operator.gt v x)
        else if peek_is t' LE then
          _ <- _scan LE ;; x <- a_expr n ;;
          comparison_loop n (BinaryOp operator.le v x)
        else if peek_is t' GE then
          _ <- _scan GE ;; x <- a_expr n ;;
          comparison_loop n (BinaryOp operator.ge v x)
        else if peek_is t' EQ then
          _ <- _scan EQ ;; x <- a_expr n ;;
          comparison_loop n (BinaryOp operator.eq v x)
        else
          _ <- _scan NE ;; x <- a_expr n ;;
          comparison_loop n (BinaryOp operator.ne v x)
      else pret v
  end
with a_expr (fuel : nat) : P Expression :=
  match fuel with
  | 0 => pout_of_fuel
  | S n => v <- m_expr n ;; a_expr_loop n v
  end
with a_expr_loop (fuel : nat) (v : Expression) : P Expression :=
  match fuel with
  | 0 => pout_of_fuel
  | S n =>
      t <- _peek a_expr_rsts ;;
      if peek_in t a_expr_chks then
        t' <- _peek a_expr_chks ;;
        if peek_is t' ADD then
          _ <- _scan ADD ;; x <- m_expr n ;;
          a_expr_loop n (BinaryOp operator.add v x)
        else
          _ <- _scan SUB ;; x <- m_expr n ;;
          a_expr_loop n (BinaryOp operator.sub v x)
      else pret v
  end
with m_expr (fuel : nat) : P Expression :=
  match fuel with
  | 0 => pout_of_fuel
  | S n => v <- u_expr n ;; m_expr_loop n v
  end
with m_expr_loop (fuel : nat) (v : Expression) : P Expression :=
  match fuel with
  | 0 => pout_of_fuel
  | S n =>
      t <- _peek m_expr_rsts ;;
      if peek_in t m_expr_chks then
        t' <- _peek m_expr_chks ;;
        if peek_is t' MUL then
          _ <- _scan MUL ;; x <- u_expr n ;;
          m_expr_loop n (BinaryOp operator.mul v x)
        else
          _ <- _scan DIV ;; x <- u_expr n ;;
          m_expr_loop n (BinaryOp operator.truediv v x)
      else pret v
  end
with u_expr (fuel : nat) : P Expression :=
  match fuel with
  | 0 => pout_of_fuel
  | S n =>
      t <- _peek u_expr_rsts ;;
      if peek_is t SIGN then
        _ <- _scan SIGN ;; x <- u_expr n ;; pret (UnaryOp operator.neg x)
      else if peek_is t ADD then
        _ <- _scan ADD ;; x <- u_expr n ;; pret (UnaryOp operator.pos x)
      else atom n
  end
with atom (fuel : nat) : P Expression :=
  match fuel with
  | 0 => pout_of_fuel
  | S n =>
      t <- _peek u_expr_chks ;;
      if peek_is t LPAR then
        _ <- _scan LPAR ;;
        x <- expr_lst n ;;
        _ <- _scan RPAR ;;
        pret (Parentheses x)
      else if peek_is t ID then
        word <- _scan ID ;;
        pret (Literal (parse_bareword (string_of_list_ascii word)))
      else if peek_is t FNCT then
        name <- _scan FNCT ;;
        _ <- _scan LPAR ;;
        t' <- _peek atom_rsts ;;
        v <- (if negb (peek_is t' RPAR) then argspec n else pret []) ;;
        _ <- _scan RPAR ;;
        pret (CallOp (string_of_list_ascii name) v)
      else if peek_is t NUM then
        num <- _scan NUM ;;
        t' <- _peek atom_rsts_ ;;
        if peek_is t' UNITS then
          units <- _scan UNITS ;;
          pret (Literal (NumberValue (float num) (Some (lower units))))
        else pret (Literal (NumberValue (float num) None))
      else if peek_is t STR then
        text <- _scan STR ;;
        pret (Literal (String (strip_quotes text) (Some "'"%char)))
      else if peek_is t QSTR then
        text <- _scan QSTR ;;
        pret (Literal (String (strip_quotes text) (Some "034"%char)))
      else if peek_is t COLOR then
        text <- _scan COLOR ;;
        pret (Literal (ColorValue (ParserValue (string_of_list_ascii text))))
      else
        name <- _scan VAR ;;
        pret (Variable_ (string_of_list_ascii name))
  end
with argspec (fuel : nat) : P ArgspecLiteral :=
  match fuel with
  | 0 => pout_of_fuel
  | S n => item <- argspec_item n ;; argspec_loop n [item]
  end
with argspec_loop (fuel : nat) (v : ArgspecLiteral) : P ArgspecLiteral :=
  match fuel with
  | 0 => pout_of_fuel
  | S n =>
      t <- _peek argspec_rsts ;;
      if peek_is t COMMA then
        _ <- _scan COMMA ;;
        item <- argspec_item n ;;
        argspec_loop n (v ++ [item])
      else pret v
  end
with argspec_item (fuel : nat) : P (option string * Expression) :=
  match fuel with
  | 0 => pout_of_fuel
  | S n =>
      t <- _peek argspec_item_rsts ;;
      var <- (if peek_is t VAR then
                name <- _scan VAR ;;
                t' <- _peek argspec_item_rsts_ ;;
                if peek_is t' COLON then
                  _ <- _scan COLON ;; pret (Some (string_of_list_ascii name))
                else
                  _ <- _rewind 1 ;; pret None
              else pret None) ;;
      x <- expr_slst n ;;
      pret (var, x)
  end
with expr_lst (fuel : nat) : P Expression :=
  match fuel with
  | 0 => pout_of_fuel
  | S n => x <- expr_slst n ;; expr_lst_loop n [x]
  end
with expr_lst_loop (fuel : nat) (v : list Expression) : P Expression :=
  match fuel with
  | 0 => pout_of_fuel
  | S n =>
      t <- _peek expr_lst_rsts ;;
      if peek_is t COMMA then
        _ <- _scan COMMA ;;
        x <- expr_slst n ;;
        expr_lst_loop n (v ++ [x])
      else pret (list_or_single v true)
  end
with expr_slst (fuel : nat) : P Expression :=
  match fuel with
  | 0 => pout_of_fuel
  | S n => x <- expr n ;; expr_slst_loop n [x]
  end
with expr_slst_loop (fuel : nat) (v : list Expression) : P Expression :=
  match fuel with
  | 0 => pout_of_fuel
  | S n =>
      t <- _peek expr_slst_rsts ;;
      if negb (peek_in t expr_lst_rsts) then
        x <- expr n ;;
        expr_slst_loop n (v ++ [x])
      else pret (list_or_single v false)
  end.

Definition goal (fuel : nat) : P Expression :=
  v <- expr_lst fuel ;;
  _ <- _scan END ;;
  pret v.

(** [P = SassExpression(SassExpressionScanner()); P.reset(text); P.goal()].
    The depth of the calls grows with the number of tokens; the bound is
    generous. *)
Definition parse_fuel (text : string) : nat := 32 * (String.length text + 2).

Definition parse (text : string) : outcome Expression :=
  fst (goal (parse_fuel text) (Parser_reset (list_ascii_of_string text))).

(** The tokens the parser leaves in its scanner, for inspection. *)
Definition lex (text : string) : list (tok * string) :=
  map (λ tk, (tok_kind tk, string_of_list_ascii (tok_text tk)))
      (tokens (_scanner (snd (goal (parse_fuel text)
                                (Parser_reset (list_ascii_of_string text)))))).

End Grammar.
End SassExpression.

(** ** A small value system for running the engine

    One possible implementation of the imported interface, used to run the
    definitions on concrete stylesheets: numbers render with at most five
    decimals, arithmetic is exact, equality compares renderings, and the
    only registered callable kind counts its calls in the host state. *)

Module Sample.

Fixpoint strip_zeros (rev_digits : list ascii) : list ascii :=
  match rev_digits with
  | c :: rest => if Ascii.eqb c "0"%char then strip_zeros rest else rev_digits
  | [] => []
  end.

Definition render_fraction (fp : Z) : string :=
  let digits := list_ascii_of_string (pretty fp) in
  let padded := replicate (5 - length digits) "0"%char ++ digits in
  string_of_list_ascii (rev (strip_zeros (rev padded))).

Definition render_Q (q : Q) : string :=
  let a := Z.abs (Qnum q) in
  let scaled := (a * 100000 / Z.pos (Qden q))%Z in
  let ip := (scaled / 100000)%Z in
  let fp := (scaled mod 100000)%Z in
  (if (Qnum q <? 0)%Z then "-" else "") +:+ pretty ip
  +:+ (if (fp =? 0)%Z then "" else "." +:+ render_fraction fp).

Fixpoint render (v : value) : string :=
  match v with
  | NumberValue q u => render_Q q +:+ default "" u
  | ColorValue (ParserValue text) => text
  | ColorValue (from_name word) => word
  | String text None => text
  | String text (Some q) => String.String q (text +:+ String.String q "")
  | BooleanValue b => if b then "true" else "false"
  | Null => "null"
  | ListValue items sep =>
      String.concat (if String.eqb sep "," then ", " else " ")
        (map (λ o, match o with PyStr s => s | Sass x => render x end) items)
  end.

Definition render_py (o : pyobj) : string :=
  match o with PyStr s => s | Sass v => render v end.

Definition sass_bool (v : value) : bool :=
  match v with
  | Null | BooleanValue false => false
  | _ => true
  end.

Definition sass_eq (a b : pyobj) : bool :=
  String.eqb (render_py a) (render_py b).

Definition apply_unary (op : operator.unary) (o : pyobj) : outcome pyobj :=
  match op, o with
  | operator.neg, Sass (NumberValue q u) => Ok (Sass (NumberValue (Qred (- q)) u))
  | operator.pos, Sass (NumberValue q u) => Ok o
  | _, _ => Raise TypeError
  end.

Definition unit_of (u1 u2 : option string) : option string :=
  match u1 with Some _ => u1 | None => u2 end.

Definition number_op (op : operator.binary) (p : Q) (u : option string)
  (q : Q) (w : option string) : outcome value :=
  match op with
  | operator.add => Ok (NumberValue (Qred (p + q)) (unit_of u w))
  | operator.sub => Ok (NumberValue (Qred (p - q)) (unit_of u w))
  | operator.mul => Ok (NumberValue (Qred (p * q)) (unit_of u w))
  | operator.truediv =>
      if Qeq_bool q 0 then Raise (OtherError "ZeroDivisionError")
      else Ok (NumberValue (Qred (p / q)) (unit_of u w))
  | operator.lt => Ok (BooleanValue (negb (Qle_bool q p)))
  | operator.gt => Ok (BooleanValue (negb (Qle_bool p q)))
  | operator.le => Ok (BooleanValue (Qle_bool p q))
  | operator.ge => Ok (BooleanValue (Qle_bool q p))
  | operator.eq => Ok (BooleanValue (Qeq_bool p q))
  | operator.ne => Ok (BooleanValue (negb (Qeq_bool p q)))
  end.

Definition apply_binary (op : operator.binary) (a b : pyobj) : outcome pyobj :=
  match a, b with
  | Sass (NumberValue p u), Sass (NumberValue q w) =>
      match number_op op p u q w with
      | Ok v => Ok (Sass v)
      | Raise e => Raise e
      | OutOfFuel => OutOfFuel
      end
  | _, _ =>
      match op with
      | operator.eq => Ok (Sass (BooleanValue (sass_eq a b)))
      | operator.ne => Ok (Sass (BooleanValue (negb (sass_eq a b))))
      | _ => Raise TypeError
      end
  end.

(** A callable named [tick] (id 0) counts its calls and answers true; any
    other callable answers its first argument, or null. *)
Definition invoke (f : callable) (ns : option Namespace) (args : list pyobj)
  (kwargs : gmap string pyobj) (st : heap * nat) : outcome pyobj * (heap * nat) :=
  match callable_id f with
  | 0 => (Ok (Sass (BooleanValue true)), (fst st, S (snd st)))
  | _ => (Ok (default (Sass Null) (head args)), st)
  end.

Definition externals (debug : bool) : Externals nat :=
  mkExternals nat render sass_bool render sass_eq apply_unary apply_binary
    (λ w, bool_decide (w ∈ ["red"; "green"; "blue"; "black"; "white"]))
    (λ f, bool_decide (f ∈ ["url"; "rgb"; "rgba"; "calc"; "attr"]))
    (λ s, [inl s]) (λ s, [inl s]) (λ s, s) debug invoke.

Definition X : Externals nat := externals false.

Definition parse : string → outcome Expression := SassExpression.parse X.

Definition empty_machine : machine nat := mkMachine empty_heap ∅ [] 0.

(** Two namespaces made by [Namespace()]; the first binds [$x] to 1 and
    registers [rgba] for one argument. *)
Definition parent_a : Namespace := fst (Namespace_init None None empty_heap).

Definition parent_b : Namespace :=
  fst (Namespace_init None None (snd (Namespace_init None None empty_heap))).

Definition parents_heap : heap :=
  let h1 := snd (Namespace_init None None empty_heap) in
  let h2 := snd (Namespace_init None None h1) in
  let h3 := snd (set_variable parent_a "$x" (Sass (NumberValue 1 None)) h2) in
  snd (set_function parent_a "rgba" (Some 1) (mkCallable "rgba2" 1) h3).

(** The heap of [parent_a] after registering, besides [rgba] for one
    argument, [rgba] for four and [adjust_color] for any number. *)
Definition library_heap : heap :=
  let h1 := snd (set_function parent_a "rgba" (Some 4) (mkCallable "rgba" 2)
                   parents_heap) in
  snd (set_function parent_a "adjust_color" None (mkCallable "adjust_color" 3) h1).

(** The heap of [parent_a] after binding [$s] to the raw source text
    [1 +], which does not parse. *)
Definition raw_heap : heap :=
  snd (set_variable parent_a "$s" (PyStr "1 +") parents_heap).

(** The heap of [parent_a] after registering the counting callable as
    [tick] for no argument. *)
Definition tick_heap : heap :=
  snd (set_function parent_a "tick" (Some 0) (mkCallable "tick" 0) parents_heap).

(** Modelled from the spec: the regex of the fallback finds the
    [$variable]s of a text.  A match is what the pattern VAR of the scanner
    matches, a dollar sign and a run of letters, digits, hyphens and
    underscores; it is its own group 2, and group 1, the opening of an
    interpolation around it, is never set.  [stretch] holds, last character
    first, the text read since the last match. *)
Fixpoint variables_from (fuel : nat) (stretch rest : list ascii)
  : list (string + (string * option string * string)) :=
  match fuel with
  | 0 => [inl (string_of_list_ascii (rev stretch ++ rest))]
  | S k =>
      match m_VAR None rest with
      | Some n =>
          let name := string_of_list_ascii (take n rest) in
          inl (string_of_list_ascii (rev stretch))
          :: inr (name, None, name) :: variables_from k [] (drop n rest)
      | None =>
          match rest with
          | c :: rest' => variables_from k (c :: stretch) rest'
          | [] => [inl (string_of_list_ascii (rev stretch))]
          end
      end
  end.

Definition variables_of (text : string)
  : list (string + (string * option string * string)) :=
  variables_from (S (String.length text)) [] (list_ascii_of_string text).

(** The same implementation, with this regex for [_interpolate_re]. *)
Definition substituting (debug : bool) : Externals nat :=
  mkExternals nat render sass_bool render sass_eq apply_unary apply_binary
    (COLOR_NAMES X) (is_builtin_css_function X)
    (_expr_glob_re X) variables_of (dequote X) debug invoke.

End Sample.

(** ** Methods of Python's str used by rule.py and helpers.py

    Strings are the byte strings of Python 2: [lower] and the white space
    of [strip] have their ASCII meaning.  On a text of Python 3, [lower]
    also changes letters outside ASCII, and [strip] also takes the
    separators 28 to 31 and some characters outside ASCII for white space;
    the two readings agree on the texts that [ascii_text] and [plain_text]
    describe. *)

(** [s.startswith(prefix)] *)
Fixpoint startswith (prefix s : string) : bool :=
  match prefix, s with
  | EmptyString, _ => true
  | String.String p prefix', String.String c s' =>
      Ascii.eqb p c && startswith prefix' s'
  | String.String _ _, EmptyString => false
  end.

(** [s.endswith(c)] for a suffix of one character *)
Fixpoint endswith (c : ascii) (s : string) : bool :=
  match s with
  | EmptyString => false
  | String.String a EmptyString => Ascii.eqb a c
  | String.String _ rest => endswith c rest
  end.

(** [s[n:]] *)
Fixpoint slice_from (n : nat) (s : string) : string :=
  match n, s with
  | S n', String.String _ rest => slice_from n' rest
  | _, _ => s
  end.

(** [s.find(c)] for a needle of one character, [None] for -1.  [s.index(c)]
    raises ValueError where [find] gives -1. *)
Fixpoint str_find (c : ascii) (s : string) : option nat :=
  match s with
  | EmptyString => None
  | String.String a rest =>
      if Ascii.eqb a c then Some 0 else option_map S (str_find c rest)
  end.

(** [c in s] for one character *)
Definition has_char (c : ascii) (s : string) : bool :=
  match str_find c s with Some _ => true | None => false end.

(** [s.replace(a, b, 1)] for [a] and [b] of one character *)
Fixpoint replace_first (a b : ascii) (s : string) : string :=
  match s with
  | EmptyString => EmptyString
  | String.String c rest =>
      if Ascii.eqb c a then String.String b rest
      else String.String c (replace_first a b rest)
  end.

(** [s.lower()]: the letters A to Z are lowered. *)
Fixpoint str_lower (s : string) : string :=
  match s with
  | EmptyString => EmptyString
  | String.String c rest => String.String (lower_char c) (str_lower rest)
  end.

(** [s.partition(sep)] for a separator of one character *)
Fixpoint str_partition (sep : ascii) (s : string) : string * string * string :=
  match s with
  | EmptyString => (EmptyString, EmptyString, EmptyString)
  | String.String c rest =>
      if Ascii.eqb c sep then (EmptyString, String.String sep EmptyString, rest)
      else let '(before, found, after) := str_partition sep rest in
           (String.String c before, found, after)
  end.

(** [s.split(sep)] for a separator of one character *)
Fixpoint str_split (sep : ascii) (s : string) : list string :=
  match s with
  | EmptyString => [EmptyString]
  | String.String c rest =>
      if Ascii.eqb c sep then EmptyString :: str_split sep rest
      else match str_split sep rest with
           | piece :: pieces => String.String c piece :: pieces
           | [] => [String.String c EmptyString]
           end
  end.

(** [s.split(sep, 1)] *)
Definition str_split1 (sep : ascii) (s : string) : list string :=
  match str_partition sep s with
  | (before, EmptyString, _) => [before]
  | (before, _, after) => [before; after]
  end.

(** [s.lstrip()] and [s.rstrip()]: blanks and the characters 9 to 13 are
    stripped. *)
Fixpoint lstrip (s : string) : string :=
  match s with
  | String.String c rest => if is_space c then lstrip rest else s
  | EmptyString => EmptyString
  end.

Fixpoint rstrip (s : string) : string :=
  match s with
  | EmptyString => EmptyString
  | String.String c rest =>
      match rstrip rest with
      | EmptyString => if is_space c then EmptyString else String.String c EmptyString
      | rest' => String.String c rest'
      end
  end.

(** ** rule.py: BlockHeader and its subclasses

    A header is an instance of one of the three subclasses, with the
    attributes its [__init__] sets.  [BlockSelectorHeader] is given the
    text [prop] by [parse]. *)

Inductive BlockHeader :=
| BlockAtRuleHeader (directive argument : string)
| BlockSelectorHeader (selectors : string)
| BlockScopeHeader (scope : string) (unscoped_value : option string).

(** The class attributes [is_atrule], [is_scope] and [is_selector] *)
Definition is_atrule (h : BlockHeader) : bool :=
  match h with BlockAtRuleHeader _ _ => true | _ => false end.
Definition is_scope (h : BlockHeader) : bool :=
  match h with BlockScopeHeader _ _ => true | _ => false end.
Definition is_selector (h : BlockHeader) : bool :=
  match h with BlockSelectorHeader _ => true | _ => false end.

(** [BlockScopeHeader.__init__]: an empty [unscoped_value] is stored as None *)
Definition BlockScopeHeader_init (scope unscoped_value : string) : BlockHeader :=
  BlockScopeHeader scope
    match unscoped_value with
    | EmptyString => None
    | _ => Some unscoped_value
    end.

Definition ValueError : exn := OtherError "ValueError".

(** The [try] statement of [BlockHeader.parse] for a text that began with
    [+], applied to the text already rewritten to [@include ...].  In the
    condition, [prop.index(':')] is evaluated before [prop.index('(')] and
    either raises ValueError when the character is absent; the handler
    leaves [prop] as it is. *)
Definition include_arguments (prop : string) : string :=
  let condition : outcome bool :=
    if negb (has_char "(" prop) then Ok true
    else match str_find ":" prop with
         | None => Raise ValueError
         | Some i =>
             match str_find "(" prop with
             | None => Raise ValueError
             | Some j => Ok (i <? j)%nat
             end
         end in
  match condition with
  | Ok true =>
      let prop := replace_first ":" "(" prop in
      if has_char "(" prop then prop +:+ ")" else prop
  | _ => prop
  end.

(** [BlockHeader.parse], first part (Simple pre-processing): the text that
    the rest of the method sees. *)
Definition simple_preprocessing (prop : string) : string :=
  if startswith "+" prop then include_arguments ("@include " +:+ slice_from 1 prop)
  else if startswith "=" prop then "@mixin " +:+ slice_from 1 prop
  else if startswith "@prototype " prop then slice_from 11 prop
  else prop.

(** [BlockHeader.parse], second part (Minor parsing), on the pre-processed
    text.  Unpacking [prop.split(':', 1)] into two names raises ValueError
    unless the list has two elements. *)
Definition minor_parsing (prop : string) : outcome BlockHeader :=
  if startswith "@" prop then
    if startswith "@else if " (str_lower prop) then
      Ok (BlockAtRuleHeader "@else if" (slice_from 9 prop))
    else
      let '(directive, _, argument) := str_partition " " prop in
      Ok (BlockAtRuleHeader (str_lower directive) argument)
  else if endswith ":" prop || str_in ": " prop then
    match str_split1 ":" prop with
    | [scope; unscoped_value] =>
        Ok (BlockScopeHeader_init (rstrip scope) (lstrip unscoped_value))
    | _ => Raise ValueError
    end
  else Ok (BlockSelectorHeader prop).

(** [BlockHeader.parse] *)
Definition BlockHeader_parse (prop : string) : outcome BlockHeader :=
  minor_parsing (simple_preprocessing prop).

(** [BlockAtRuleHeader.render], of a header with these attributes *)
Definition BlockAtRuleHeader_render (directive argument : string) : string :=
  match argument with
  | EmptyString => directive
  | _ => directive +:+ " " +:+ argument
  end.

(** ** core.py: _constrain

    The arguments are Python numbers, ints or floats.  A finite number is
    the rational it denotes, and finite numbers are compared exactly; a
    float can also be an infinity or NaN, and every comparison with NaN is
    false. *)
Inductive number :=
| Finite (q : Q)
| Infinity (negative : bool)
| NaN.

(** [a < b]; [a > b] is [b < a]. *)
Definition number_lt (a b : number) : bool :=
  match a, b with
  | NaN, _ | _, NaN => false
  | Finite p, Finite q => negb (Qle_bool q p)
  | Finite _, Infinity negative => negb negative
  | Infinity negative, Finite _ => negative
  | Infinity negative, Infinity negative' => negative && negb negative'
  end.

Definition _constrain (n lb ub : number) : number :=
  if number_lt n lb then lb
  else if number_lt ub n then ub
  else n.

(** ** compass/helpers.py: add_cache_buster

    [mtime] is given by the text that ['%s' % mtime] makes of it. *)
Definition add_cache_buster (url mtime : string) : string :=
  let fragment := str_split "#" url in
  let query := str_split "?" (nth 0 fragment EmptyString) in
  let url :=
    if (1 <? length query)%nat && negb (String.eqb (nth 1 query EmptyString) EmptyString)
    then String.concat "?" query +:+ "&_=" +:+ mtime
    else nth 0 query EmptyString +:+ "?_=" +:+ mtime in
  if (1 <? length fragment)%nat then url +:+ "#" +:+ nth 1 fragment EmptyString
  else url.

(** ** Notions used to state the properties *)

(** One node directly above a hole: the unary, binary, logical and call
    nodes, with the siblings of the hole. *)
Inductive enclosing :=
| InUnaryOp (op : operator.unary)
| InBinaryOpLeft (op : operator.binary) (right_ : Expression)
| InBinaryOpRight (op : operator.binary) (left_ : Expression)
| InAnyOp (before after : list Expression)
| InAllOp (before after : list Expression)
| InNotOp
| InCallOp (func_name : string) (before : ArgspecLiteral) (var : option string)
           (after : ArgspecLiteral).

Definition plug (c : enclosing) (e : Expression) : Expression :=
  match c with
  | InUnaryOp op => UnaryOp op e
  | InBinaryOpLeft op right_ => BinaryOp op e right_
  | InBinaryOpRight op left_ => BinaryOp op left_ e
  | InAnyOp before after => AnyOp (before ++ e :: after)
  | InAllOp before after => AllOp (before ++ e :: after)
  | InNotOp => NotOp e
  | InCallOp func_name before var after =>
      CallOp func_name (before ++ (var, e) :: after)
  end.

Section Notions.
Context {H : Type} (X : Externals H).

(** [runs f xs m ys m']: running [f] on each element of [xs] in turn, from
    state [m], returns normally every time, with results [ys] and final
    state [m']. *)
Inductive runs {A B} (f : A → M (H:=H) B)
  : list A → machine H → list B → machine H → Prop :=
| runs_nil m : runs f [] m [] m
| runs_cons x xs m y m1 ys m2 :
    f x m = (Ok y, m1) → runs f xs m1 ys m2 →
    runs f (x :: xs) m (y :: ys) m2.

(** The text of one evaluated argument in a passthrough call. *)
Definition argument_text (p : option string * value) : string :=
  match fst p with
  | None => render X (snd p)
  | Some name => name +:+ ": " +:+ render X (snd p)
  end.

(** The state after a call fell through: the heap as the failed lookup left
    it, and one more warning unless the name is a CSS built-in. *)
Definition after_passthrough (func_name : string) (h : heap) (m : machine H)
  : machine H :=
  mkMachine h (ast_cache m)
    (if is_builtin_css_function X func_name then log m
     else log m ++ ["no such function"])
    (host m).

(** The innermost link of the variable chain is an allocated dict, as
    [VariableScope.__init__] makes it. *)
Definition variables_wf (ns : Namespace) (h : heap) : Prop :=
  ∃ l0 rest, _variables ns = Dict l0 :: rest ∧ l0 < length (dicts (vars h)).

(** A computation never removes or replaces an entry of [ast_cache]. *)
Definition cache_grows {A} (c : M (H:=H) A) : Prop :=
  ∀ m, ast_cache m ⊆ ast_cache (snd (c m)).

(** The same machine with another heap. *)
Definition with_heap (h : heap) (m : machine H) : machine H :=
  mkMachine h (ast_cache m) (log m) (host m).

(** What the variable chain of a namespace binds a name to in a heap. *)
Definition bound_in (ns : Namespace) (h : heap) (name : string) : option pyobj :=
  chain_lookup (dicts (vars h)) (_variables ns) (normalize_var name).

(** What [regex.sub] puts in the place of one piece of a text cut by
    [_interpolate_re], when [bound] tells what each variable is bound to.
    A stretch between two matches stays.  A match of a variable bound to a
    true value becomes that value: rendered, unless it is a raw text
    already, and dequoted when group 1 is not empty.  A match of a variable
    bound to a false value stays as written.  A match of a variable that
    is not bound has no replacement. *)
Inductive replaced (bound : string → option pyobj)
  : string + (string * option string * string) → string → Prop :=
| replaced_stretch text : replaced bound (inl text) text
| replaced_value group0 group1 group2 v :
    bound group2 = Some v → truth X v = true →
    replaced bound (inr (group0, group1, group2))
      (let text := match v with PyStr s => s | Sass x => render X x end in
       match group1 with
       | Some (String.String _ _) => dequote X text
       | _ => text
       end)
| replaced_unset group0 group1 group2 v :
    bound group2 = Some v → truth X v = false →
    replaced bound (inr (group0, group1, group2)) group0.

End Notions.

Section ScopeNotions.
Context {K V : Type} `{Countable K}.

(** The innermost link of a chain is an allocated dict, as
    [VariableScope.__init__] makes it. *)
Definition head_allocated (st : store K V) (maps : VariableScope) : Prop :=
  ∃ l0 rest, maps = Dict l0 :: rest ∧ l0 < length (dicts st).

(** What the dict at a location binds a key to, if both exist. *)
Definition entry (ds : list (gmap K V)) (l : nat) (key : K) : option V :=
  ds !! l ≫= (.!! key).

(** The number of links of a chain that contain the key. *)
Fixpoint holders (ds : list (gmap K V)) (maps : VariableScope) (key : K) : nat :=
  match maps with
  | [] => 0
  | m :: maps' => (if link_has ds m key then 1 else 0) + holders ds maps' key
  end.

End ScopeNotions.

(** What a lookup of a callable gives, as a function of the dicts: the
    registration for the very arity, else the one for any arity. *)
Definition callable_lookup (ds : list (gmap fkey callable)) (chainmap : VariableScope)
  (name : string) (arity : option nat) : outcome callable :=
  match arity with
  | Some a =>
      match chain_lookup ds chainmap (normalize_var name, Some a) with
      | Some f => Ok f
      | None => found_or_KeyError (chain_lookup ds chainmap (normalize_var name, None))
      end
  | None => found_or_KeyError (chain_lookup ds chainmap (normalize_var name, None))
  end.

(** The text that [BlockAtRuleHeader.render] gives for the header parsed
    from a text, when that header is an at-rule. *)
Definition rendered (prop : string) : option string :=
  match BlockHeader_parse prop with
  | Ok (BlockAtRuleHeader directive argument) =>
      Some (BlockAtRuleHeader_render directive argument)
  | _ => None
  end.

(** Texts on which the methods of [str] mean the same for a byte string of
    Python 2 and a text of Python 3.  [lower] agrees on ASCII characters;
    the white space of [strip] agrees on ASCII characters other than the
    separators 28 to 31, which Python 3 alone strips. *)
Definition ascii_char (c : ascii) : bool := (nat_of_ascii c <? 128)%nat.

Definition plain_char (c : ascii) : bool := ascii_char c && negb (in_range 28 31 c).

Fixpoint ascii_text (s : string) : bool :=
  match s with
  | EmptyString => true
  | String.String c rest => ascii_char c && ascii_text rest
  end.

Fixpoint plain_text (s : string) : bool :=
  match s with
  | EmptyString => true
  | String.String c rest => plain_char c && plain_text rest
  end.

(** [a <= b] on Python numbers: false as soon as one of them is NaN. *)
Definition number_le (a b : number) : bool :=
  match a, b with
  | NaN, _ | _, NaN => false
  | Finite p, Finite q => Qle_bool p q
  | Finite _, Infinity negative => negb negative
  | Infinity negative, Finite _ => negative
  | Infinity negative, Infinity negative' => negative || negb negative'
  end.

(** * Properties *)

(** ** Scope chains *)

Section ScopeFacts.
Context {K V : Type} `{Countable K}.
Implicit Types (st : store K V) (maps : VariableScope) (key : K) (value : V).
Implicit Types (ds : list (gmap K V)) (m : link).

Lemma gen_search_false key rem : fst (gen_search key rem) = false.
Proof. induction rem as [|s rem IH]; simpl; [done|]. exact IH. Qed.

Lemma contains_dicts key m st : dicts (snd (contains key m st)) = dicts st.
Proof.
  destruct m as [l|g]; simpl; [done|].
  destruct (generators st !! g) as [rem|]; [|done].
  by destruct (gen_search key rem).
Qed.

Lemma contains_link_has key m st :
  fst (contains key m st) = link_has (dicts st) m key.
Proof.
  destruct m as [l|g]; simpl; [done|].
  destruct (generators st !! g) as [rem|]; [|done].
  pose proof (gen_search_false key rem) as Hf.
  by destruct (gen_search key rem).
Qed.

Lemma subscript_dicts m key st st' :
  dicts st' = dicts st → subscript m key st' = subscript m key st.
Proof. intros E. destruct m; simpl; [by rewrite E|done]. Qed.

Lemma getitem_dicts maps key st : dicts (snd (getitem maps key st)) = dicts st.
Proof.
  revert st. induction maps as [|m maps IH]; intros st; simpl; [done|].
  pose proof (contains_dicts key m st) as Hd.
  destruct (contains key m st) as [b st1]; simpl in Hd.
  destruct b; simpl; [done|]. by rewrite IH.
Qed.

(** [__getitem__] returns what the chain binds the key to, whatever the
    state of the generators in it. *)
Lemma getitem_chain_lookup maps key st :
  fst (getitem maps key st) = found_or_KeyError (chain_lookup (dicts st) maps key).
Proof.
  revert st. induction maps as [|m maps IH]; intros st; simpl; [done|].
  pose proof (contains_dicts key m st) as Hd.
  pose proof (contains_link_has key m st) as Hb.
  destruct (contains key m st) as [b st1]. simpl in *. subst b.
  unfold chain_lookup. simpl.
  destruct (link_has (dicts st) m key) eqn:Hh; simpl.
  - destruct m as [l|g]; simpl in *; [|done].
    rewrite Hd. destruct (dicts st !! l) as [d|]; simpl; [|done].
    by destruct (d !! key).
  - rewrite IH, Hd. done.
Qed.

Lemma first_holder_Some ds maps key l :
  first_holder ds maps key = Some l →
  ∃ d v, ds !! l = Some d ∧ d !! key = Some v.
Proof.
  induction maps as [|m maps IH]; simpl; [done|].
  destruct (link_has ds m key) eqn:Hh; [|done].
  destruct m as [l'|g]; [|done]. intros [= ->]. simpl in Hh.
  destruct (ds !! l) as [d|]; [|done].
  apply bool_decide_eq_true in Hh as [v Hv]. eauto.
Qed.

Lemma chain_lookup_None ds maps key :
  chain_lookup ds maps key = None ↔ first_holder ds maps key = None.
Proof.
  unfold chain_lookup. split.
  - destruct (first_holder ds maps key) as [l|] eqn:E; [|done].
    destruct (first_holder_Some _ _ _ _ E) as (d & v & Hd & Hv).
    simpl. rewrite Hd. simpl. by rewrite Hv.
  - by intros ->.
Qed.

(** Links that are allocated in [ds] read the same in an extension of it. *)
Lemma link_has_app ds ds' m key :
  (∀ l, m = Dict l → l < length ds) →
  link_has (ds ++ ds') m key = link_has ds m key.
Proof.
  intros Hwf. destruct m as [l|g]; simpl; [|done].
  rewrite lookup_app_l; [done|]. by apply Hwf.
Qed.

Lemma first_holder_app ds ds' maps key :
  Forall (λ m, ∀ l, m = Dict l → l < length ds) maps →
  first_holder (ds ++ ds') maps key = first_holder ds maps key.
Proof.
  induction 1 as [|m maps Hm _ IH]; simpl; [done|].
  rewrite link_has_app by done. by rewrite IH.
Qed.

Lemma scope_wf_dicts st maps :
  scope_wf st maps →
  Forall (λ m, ∀ l, m = Dict l → l < length (dicts st)) maps.
Proof.
  intros Hwf. eapply Forall_impl; [exact Hwf|].
  intros [l|g] Hm l' [= <-]. exact Hm.
Qed.

Lemma first_holder_lt ds maps key l :
  first_holder ds maps key = Some l → l < length ds.
Proof.
  intros E. destruct (first_holder_Some _ _ _ _ E) as (d & _ & Hd & _).
  by eapply lookup_lt_Some.
Qed.

(** Writing the key into a dict that is not read before the first holder
    leaves the first holder where it was, or makes that dict the holder. *)
Lemma link_has_alter_ne ds l l' key value :
  l ≠ l' →
  link_has (alter (insert key value) l ds) (Dict l') key = link_has ds (Dict l') key.
Proof. intros Hne. simpl. by rewrite list_lookup_alter_ne. Qed.

Lemma link_has_alter_eq ds l key value :
  l < length ds →
  link_has (alter (insert key value) l ds) (Dict l) key = true.
Proof.
  intros Hl. simpl. rewrite list_lookup_alter_eq.
  destruct (lookup_lt_is_Some_2 ds l Hl) as [d ->]. simpl.
  apply bool_decide_eq_true. rewrite lookup_insert_eq. eauto.
Qed.

Lemma chain_lookup_alter_holder ds maps key value l :
  first_holder ds maps key = Some l →
  chain_lookup (alter (insert key value) l ds) maps key = Some value.
Proof.
  intros E. pose proof (first_holder_lt _ _ _ _ E) as Hl.
  unfold chain_lookup.
  assert (first_holder (alter (insert key value) l ds) maps key = Some l) as ->.
  { induction maps as [|m maps IH]; simpl in *; [done|].
    destruct (link_has ds m key) eqn:Hh.
    - destruct m as [l'|g]; [|done]. injection E as ->.
      by rewrite link_has_alter_eq.
    - destruct m as [l'|g]; [|by apply IH].
      destruct (decide (l = l')) as [->|Hne].
      + by rewrite link_has_alter_eq.
      + rewrite link_has_alter_ne, Hh by done. by apply IH. }
  simpl. rewrite list_lookup_alter_eq.
  destruct (lookup_lt_is_Some_2 ds l Hl) as [d ->]. simpl.
  by rewrite lookup_insert_eq.
Qed.

Lemma setitem_loop_dicts maps key value st :
  setitem_loop maps key value st =
    (match first_holder (dicts st) maps key with
     | Some l => Some (Ok tt)
     | None => None
     end,
     snd (setitem_loop maps key value st))
  ∧ dicts (snd (setitem_loop maps key value st)) =
    match first_holder (dicts st) maps key with
    | Some l => alter (insert key value) l (dicts st)
    | None => dicts st
    end.
Proof.
  revert st. induction maps as [|m maps IH]; intros st; simpl; [done|].
  pose proof (contains_dicts key m st) as Hd.
  pose proof (contains_link_has key m st) as Hb.
  destruct (contains key m st) as [b st1]. simpl in *. subst b.
  destruct (link_has (dicts st) m key) eqn:Hh.
  - destruct m as [l|g]; [|done]. simpl. by rewrite Hd.
  - destruct (IH st1) as [E1 E2]. rewrite Hd in E1, E2. done.
Qed.

(** [__setitem__] on a chain whose innermost link is a dict: the dict that
    is written is the first holder of the key, or else the innermost. *)
Lemma setitem_dicts l0 maps key value st :
  fst (setitem (Dict l0 :: maps) key value st) = Ok tt
  ∧ dicts (snd (setitem (Dict l0 :: maps) key value st)) =
    alter (insert key value)
      (default l0 (first_holder (dicts st) (Dict l0 :: maps) key)) (dicts st).
Proof.
  unfold setitem.
  pose proof (setitem_loop_dicts (Dict l0 :: maps) key value st) as [E1 E2].
  destruct (setitem_loop (Dict l0 :: maps) key value st) as [r st'].
  destruct (first_holder (dicts st) (Dict l0 :: maps) key) as [l|];
    injection E1 as ->; cbn [fst snd default] in *.
  - done.
  - cbn. by rewrite E2.
Qed.

Lemma new_child_eq parent st :
  new_child parent st =
    (Dict (length (dicts st)) :: parent,
     mkStore (dicts st ++ [∅]) (generators st)).
Proof. done. Qed.

Lemma fresh_link_empty ds key :
  link_has (ds ++ [∅]) (Dict (length ds)) key = false.
Proof.
  simpl. rewrite lookup_app_r, Nat.sub_diag by done. simpl.
  apply bool_decide_eq_false. rewrite lookup_empty. by intros [? ?].
Qed.

Lemma first_holder_child ds parent key :
  Forall (λ m, ∀ l, m = Dict l → l < length ds) parent →
  first_holder (ds ++ [∅]) (Dict (length ds) :: parent) key
  = first_holder ds parent key.
Proof.
  intros Hwf. cbn [first_holder]. rewrite fresh_link_empty.
  by apply first_holder_app.
Qed.

(** C2. Scope write-in-place semantics.  In every chain (whose innermost
    link is a dict, as [__init__] makes it) an assignment writes the dict
    of the first link that already contains the key, and the innermost
    dict when no link does.  Hence, for a child made by [new_child]: a key
    the parent can read is rebound in the parent's own chain, so the parent
    reads the new value; a key the parent cannot read is created in the
    child's fresh dict and the parent still raises KeyError for it. *)
Theorem scope_write_in_place st parent key value :
  scope_wf st parent →
  (∀ l0 maps,
     fst (setitem (Dict l0 :: maps) key value st) = Ok tt
     ∧ dicts (snd (setitem (Dict l0 :: maps) key value st)) =
       alter (insert key value)
         (default l0 (first_holder (dicts st) (Dict l0 :: maps) key)) (dicts st))
  ∧ let child := fst (new_child parent st) in
    let st1 := snd (new_child parent st) in
    let st2 := snd (setitem child key value st1) in
    fst (setitem child key value st1) = Ok tt
    ∧ fst (getitem child key st2) = Ok value
    ∧ (is_Ok (fst (getitem parent key st)) →
       fst (getitem parent key st2) = Ok value)
    ∧ (fst (getitem parent key st) = Raise KeyError →
       fst (getitem parent key st2) = Raise KeyError
       ∧ dicts st2 = dicts st ++ [{[key := value]}]).
Proof.
  intros Hwf. split; [intros l0 maps; apply setitem_dicts|].
  apply scope_wf_dicts in Hwf.
  rewrite new_child_eq. cbn [fst snd].
  set (n := length (dicts st)).
  set (st1 := mkStore (dicts st ++ [∅]) (generators st)).
  destruct (setitem_dicts n parent key value st1) as [Hr Hd].
  cbn [dicts st1] in Hd. unfold n in Hd.
  rewrite first_holder_child in Hd by done. fold n in Hd.
  pose proof (first_holder_child (dicts st) parent key Hwf) as Hfc.
  pose proof (first_holder_app (dicts st) [∅] parent key Hwf) as Hfp.
  fold n in Hfc.
  rewrite !getitem_chain_lookup.
  destruct (first_holder (dicts st) parent key) as [l|] eqn:Hfh.
  - cbn [default] in Hd. rewrite Hd.
    rewrite !chain_lookup_alter_holder by done.
    assert (∃ v, chain_lookup (dicts st) parent key = Some v) as [v ->].
    { destruct (chain_lookup (dicts st) parent key) as [v|] eqn:E; [eauto|].
      apply chain_lookup_None in E. congruence. }
    cbn. split_and!; [done|done|done|done].
  - cbn [default] in Hd.
    assert (dicts (snd (setitem (Dict n :: parent) key value st1))
            = dicts st ++ [{[key := value]}]) as Hd'.
    { rewrite Hd. unfold n.
      rewrite <- (Nat.add_0_r (length (dicts st))), alter_app_r.
      cbn. by rewrite insert_empty. }
    rewrite Hd'.
    assert (chain_lookup (dicts st) parent key = None) as ->
      by by apply chain_lookup_None.
    assert (chain_lookup (dicts st ++ [{[key := value]}]) parent key = None) as ->.
    { apply chain_lookup_None. by rewrite first_holder_app. }
    assert (chain_lookup (dicts st ++ [{[key := value]}]) (Dict n :: parent) key
            = Some value) as ->.
    { unfold chain_lookup. cbn [first_holder link_has].
      unfold n. rewrite lookup_app_r, Nat.sub_diag by done. cbn.
      rewrite lookup_singleton_eq. rewrite bool_decide_eq_true_2 by eauto.
      cbn. rewrite lookup_app_r, Nat.sub_diag by done. cbn.
      by rewrite lookup_singleton_eq. }
    cbn. split_and!; [done|done| |done].
    by intros [? ?].
Qed.

End ScopeFacts.

(** Concrete run: the parent binds [$x]; the child rebinds it and creates
    [$y]. *)
Lemma scope_write_in_place_witness :
  let st : store string nat := mkStore [{["$x" := 1]}] [] in
  let parent := [Dict 0] in
  let child := fst (new_child parent st) in
  let st1 := snd (new_child parent st) in
  scope_wf st parent
  ∧ fst (getitem parent "$x" (snd (setitem child "$x" 2 st1))) = Ok 2
  ∧ fst (getitem parent "$y" (snd (setitem child "$y" 3 st1))) = Raise KeyError.
Proof.
  intros st parent child st1.
  assert (scope_wf st parent) as Hwf.
  { constructor; [|constructor]. simpl. lia. }
  split; [exact Hwf|]. split.
  - destruct (scope_write_in_place st parent "$x" 2 Hwf) as (_ & _ & _ & Hp & _).
    apply Hp. exists 1. vm_compute. reflexivity.
  - destruct (scope_write_in_place st parent "$y" 3 Hwf) as (_ & _ & _ & _ & Hp).
    apply Hp. vm_compute. reflexivity.
Defined.

(** ** Namespaces *)

Lemma underscore_to_hyphen_equiv c d :
  (Ascii.eqb c d || (is_hyphen_or_underscore c && is_hyphen_or_underscore d)) = true
  ↔ underscore_to_hyphen c = underscore_to_hyphen d.
Proof.
  unfold underscore_to_hyphen, is_hyphen_or_underscore.
  destruct (Ascii.eqb_spec c d) as [->|Hne]; [by split|].
  destruct (Ascii.eqb_spec c "_"%char) as [->|Hc],
           (Ascii.eqb_spec d "_"%char) as [->|Hd]; cbn.
  - done.
  - destruct (Ascii.eqb_spec d "-"%char) as [->|Hd']; cbn; [done|].
    split; [done|]. intros E. by rewrite E in Hd'.
  - destruct (Ascii.eqb_spec c "-"%char) as [->|Hc']; cbn; [done|].
    split; [done|]. done.
  - rewrite andb_comm. destruct (Ascii.eqb_spec c "-"%char) as [->|Hc'];
      destruct (Ascii.eqb_spec d "-"%char) as [->|Hd']; cbn; split; try done.
Qed.

(** Names are identified by [normalize_var] exactly when they differ only
    in hyphens against underscores. *)
Lemma normalize_var_equiv a b :
  hyphen_equiv a b = true ↔ normalize_var a = normalize_var b.
Proof.
  revert b. induction a as [|c a IH]; intros [|d b]; simpl; try done.
  rewrite andb_true_iff, underscore_to_hyphen_equiv, IH.
  split; [intros [-> ->]; done|]. intros [= -> ->]. done.
Qed.

Lemma _get_callable_chain_lookup (chainmap : VariableScope) (name : string)
  (arity : nat) (st : store fkey callable) :
  fst (_get_callable chainmap name (Some arity) st) =
    match chain_lookup (dicts st) chainmap (normalize_var name, Some arity) with
    | Some f => Ok f
    | None =>
        found_or_KeyError
          (chain_lookup (dicts st) chainmap (normalize_var name, None))
    end.
Proof.
  unfold _get_callable.
  pose proof (getitem_chain_lookup chainmap (normalize_var name, Some arity) st) as E.
  pose proof (getitem_dicts chainmap (normalize_var name, Some arity) st) as Ed.
  destruct (getitem chainmap (normalize_var name, Some arity) st) as [r st'].
  cbn [fst snd] in *. subst r.
  destruct (chain_lookup (dicts st) chainmap (normalize_var name, Some arity));
    cbn; [done|].
  by rewrite getitem_chain_lookup, Ed.
Qed.

(** C5. Function arity dispatch.  A lookup with an explicit arity returns
    the registration under (normalized name, that arity) when the chain has
    one, otherwise the one under (normalized name, None) when the chain has
    one, and otherwise raises KeyError; a name that differs only in hyphens
    against underscores gives the same result. *)
Theorem function_arity_dispatch (self : Namespace) (name : string)
  (arity : nat) (h : heap) :
  let ds := dicts (callables h) in
  fst (function self name (Some arity) h) =
    match chain_lookup ds (_functions self) (normalize_var name, Some arity) with
    | Some f => Ok f
    | None =>
        match chain_lookup ds (_functions self) (normalize_var name, None) with
        | Some f => Ok f
        | None => Raise KeyError
        end
    end
  ∧ ∀ name', hyphen_equiv name name' = true →
      fst (function self name' (Some arity) h)
      = fst (function self name (Some arity) h).
Proof.
  assert (∀ n, fst (function self n (Some arity) h)
               = fst (_get_callable (_functions self) n (Some arity) (callables h)))
    as Hfun.
  { intros n. unfold function, on_callables.
    by destruct (_get_callable (_functions self) n (Some arity) (callables h)). }
  cbn zeta. split.
  - rewrite Hfun, _get_callable_chain_lookup. done.
  - intros name' Heq. apply normalize_var_equiv in Heq.
    rewrite !Hfun, !_get_callable_chain_lookup. by rewrite Heq.
Qed.

(** Dispatch on the registrations of the sample library: each arity of
    [rgba] finds its own callable, an arity that is not registered raises
    KeyError, and [adjust-color] finds the registration made as
    [adjust_color] for any arity. *)
Example function_arity_dispatch_sample :
  let lookup := λ name arity,
    fst (function Sample.parent_a name (Some arity) Sample.library_heap) in
  lookup "rgba" 1 = Ok (mkCallable "rgba2" 1)
  ∧ lookup "rgba" 4 = Ok (mkCallable "rgba" 2)
  ∧ lookup "rgba" 3 = Raise KeyError
  ∧ lookup "adjust-color" 5 = Ok (mkCallable "adjust_color" 3).
Proof. split_and!; vm_compute; reflexivity. Qed.

(** The chain built for several parents is a fresh dict followed by one
    generator object.  Nothing can be read through such a chain. *)
Lemma chain_lookup_empty_generator {K V : Type} `{Countable K}
  (ds : list (gmap K V)) (n g : nat) (k : K) :
  ds !! n = Some ∅ →
  chain_lookup ds [Dict n; Generator g] k = None.
Proof.
  intros Hn. apply chain_lookup_None.
  cbn. rewrite Hn. cbn. rewrite bool_decide_eq_false_2; [done|].
  rewrite lookup_empty. by intros [? ?].
Qed.

(** C9. Deriving from several parents.  The claim, that a key present in
    the chain of any parent is found through the derived namespace, does
    not hold of the code: when [derive_from] is given a number of parents
    other than one, no variable, function or mixin can be read through the
    derived namespace, whatever the parents hold; every lookup raises
    KeyError. *)
Theorem derive_from_several_parents (others : list Namespace) (h : heap)
  (name : string) (arity : option nat) :
  length others ≠ 1 →
  let ns := fst (derive_from others h) in
  let h' := snd (derive_from others h) in
  fst (variable ns name h') = Raise KeyError
  ∧ fst (function ns name arity h') = Raise KeyError
  ∧ fst (mixin ns name arity h') = Raise KeyError.
Proof.
  intros Hlen.
  assert (∀ (vs : VariableScope) (st : store fkey callable) n a,
            (∀ k, chain_lookup (dicts st) vs k = None) →
            fst (_get_callable vs n a st) = Raise KeyError) as Hcall.
  { intros vs st n [a|] Hnone.
    - rewrite _get_callable_chain_lookup, !Hnone. done.
    - unfold _get_callable. rewrite getitem_chain_lookup, Hnone. done. }
  destruct others as [|a [|b rest]]; [|done|];
    cbn -[getitem _get_callable chain_lookup];
    unfold variable, function, mixin, on_vars, on_callables;
    cbn -[getitem _get_callable chain_lookup].
  all: split_and!.
  all: try (match goal with
            | |- context [getitem ?m ?k ?s] =>
                pose proof (getitem_chain_lookup m k s) as E;
                destruct (getitem m k s) as [r s']; cbn [fst] in *; subst r;
                rewrite chain_lookup_empty_generator; [done|]
            | |- context [_get_callable ?m ?n ?a ?s] =>
                pose proof (Hcall m s n a) as E;
                destruct (_get_callable m n a s) as [r s']; cbn [fst] in *;
                apply E; intros k; apply chain_lookup_empty_generator
            end).
  all: cbn; rewrite ?length_app; cbn; rewrite <- ?app_assoc; cbn [app].
  all: rewrite lookup_app_r by lia.
  all: match goal with
       | |- _ !! ?i = _ =>
           first [ replace i with 0 by lia | replace i with 1 by lia
                 | replace i with 2 by lia | replace i with 3 by lia ]
       end; done.
Qed.

(** Concrete run: [$x] is bound in the first of two parents, which still
    reads it, and the namespace derived from both does not. *)
Lemma derive_from_several_parents_witness :
  let others := [Sample.parent_a; Sample.parent_b] in
  let ns := fst (derive_from others Sample.parents_heap) in
  let h' := snd (derive_from others Sample.parents_heap) in
  length others ≠ 1
  ∧ fst (variable Sample.parent_a "$x" h') = Ok (Sass (NumberValue 1 None))
  ∧ fst (variable ns "$x" h') = Raise KeyError.
Proof.
  intros others ns h'.
  assert (length others ≠ 1) as Hlen by (simpl; lia).
  split; [exact Hlen|]. split.
  - vm_compute. reflexivity.
  - exact (proj1 (derive_from_several_parents others Sample.parents_heap
                    "$x" None Hlen)).
Defined.

(** With a single parent the derived namespace reads what the parent
    binds. *)
Example derive_from_one_parent_sample :
  let ns := fst (derive_from [Sample.parent_a] Sample.parents_heap) in
  let h' := snd (derive_from [Sample.parent_a] Sample.parents_heap) in
  fst (variable ns "$x" h') = Ok (Sass (NumberValue 1 None))
  ∧ fst (function ns "rgba" (Some 1) h') = Ok (mkCallable "rgba2" 1).
Proof. split; vm_compute; reflexivity. Qed.

(** ** The built-in index *)

Section IndexFacts.
Context {H : Type} (X : Externals H).
Implicit Types (items pre post seen rest : list pyobj) (val x : pyobj).

Lemma index_loop_step seen x rest val :
  index_loop X (seen ++ x :: rest) val (length seen) (S (length rest)) =
    if sass_eq X x val
    then Ok (Sass (NumberValue (inject_Z (Z.of_nat (length seen + 1))) None))
    else index_loop X ((seen ++ [x]) ++ rest) val (length (seen ++ [x])) (length rest).
Proof.
  cbn [index_loop]. rewrite list_lookup_middle by done.
  destruct (sass_eq X x val); [done|].
  rewrite <- app_assoc, length_app. cbn. by rewrite Nat.add_1_r.
Qed.

Lemma index_loop_absent seen rest val :
  Forall (λ y, sass_eq X y val = false) rest →
  index_loop X (seen ++ rest) val (length seen) (length rest)
  = Ok (Sass (BooleanValue false)).
Proof.
  intros Hrest. revert seen.
  induction Hrest as [|x rest Hx _ IH]; intros seen; [done|].
  cbn [length]. rewrite index_loop_step, Hx. apply IH.
Qed.

Lemma index_loop_found seen pre x post val :
  Forall (λ y, sass_eq X y val = false) pre →
  sass_eq X x val = true →
  index_loop X (seen ++ pre ++ x :: post) val (length seen)
    (length (pre ++ x :: post))
  = Ok (Sass (NumberValue
               (inject_Z (Z.of_nat (length seen + length pre + 1))) None)).
Proof.
  intros Hpre Hx. revert seen.
  induction Hpre as [|y pre Hy _ IH]; intros seen; cbn [app length].
  - rewrite index_loop_step, Hx. by rewrite Nat.add_0_r.
  - rewrite index_loop_step, Hy, IH.
    rewrite length_app. cbn. do 4 f_equal. lia.
Qed.

(** C10. The built-in [index(lst, val)] on a list: when some element equals
    [val], the result is the Number of the 1-based position of the first
    such element; when none does, it is the Boolean false. *)
Theorem index_first_position items (separator : string) val :
  (∀ pre x post,
     items = pre ++ x :: post →
     Forall (λ y, sass_eq X y val = false) pre →
     sass_eq X x val = true →
     index X (Sass (ListValue items separator)) val
     = Some (Ok (Sass (NumberValue (inject_Z (Z.of_nat (length pre + 1))) None))))
  ∧ (Forall (λ y, sass_eq X y val = false) items →
     index X (Sass (ListValue items separator)) val
     = Some (Ok (Sass (BooleanValue false)))).
Proof.
  split.
  - intros pre x post -> Hpre Hx. cbn [index]. f_equal.
    exact (index_loop_found [] pre x post val Hpre Hx).
  - intros Hall. cbn [index]. f_equal.
    exact (index_loop_absent [] items val Hall).
Qed.

End IndexFacts.

(** [index] on the list [a b c]: the position of [b] is 2, and [d] is not
    in it. *)
Example index_sample :
  let abc := Sass (ListValue [Sass (String "a" None); Sass (String "b" None);
                              Sass (String "c" None); Sass (String "b" None)] "") in
  index Sample.X abc (Sass (String "b" None))
  = Some (Ok (Sass (NumberValue 2 None)))
  ∧ index Sample.X abc (Sass (String "d" None))
  = Some (Ok (Sass (BooleanValue false))).
Proof. split; vm_compute; reflexivity. Qed.

(** ** Evaluation of the AST *)

Section EvalFacts.
Context {H : Type} (X : Externals H).
Context (parse : string → outcome Expression) (calculator : Calculator).
Implicit Types (m : machine H) (e : Expression) (l r v : value) (d : bool).

Local Abbreviation eval := (evaluate X parse).
Local Abbreviation Div l r := (BinaryOp operator.truediv (Literal l) (Literal r)).

Lemma bind_Ok {A B} (c : M A) (k : A → M B) m a m' :
  c m = (Ok a, m') → bind c k m = k a m'.
Proof. unfold bind. by intros ->. Qed.

Lemma bind_Raise {A B} (c : M A) (k : A → M B) m ex m' :
  c m = (Raise ex, m') → bind c k m = (Raise ex, m').
Proof. unfold bind. by intros ->. Qed.

Lemma bind_ext {A B} (c c' : M A) (k k' : A → M B) m :
  c m = c' m → (∀ a m', k a m' = k' a m') → bind c k m = bind c' k' m.
Proof.
  intros Hc Hk. unfold bind. rewrite Hc.
  destruct (c' m) as [[a| |] m']; [apply Hk|done|done].
Qed.

(** Replacing one element of the list by another on which [f] behaves the
    same does not change the run. *)
Lemma mapM_replace {A B} (f : A → M (H:=H) B) (before after : list A) (x y : A) :
  (∀ m, f x m = f y m) →
  ∀ m, mapM f (before ++ x :: after) m = mapM f (before ++ y :: after) m.
Proof.
  intros Hxy. induction before as [|b before IH]; intros m; cbn [app mapM].
  - apply bind_ext; [apply Hxy|done].
  - apply bind_ext; [done|]. intros a m'. apply bind_ext; [apply IH|done].
Qed.

Lemma division_literal l r n m :
  eval (S (S n)) calculator (Div l r) false m
  = (Ok (Sass (String (render X l +:+ " / " +:+ render X r) None)), m).
Proof. reflexivity. Qed.

Lemma division_forced l r n m :
  eval (S (S n)) calculator (Div l r) true m
  = (apply_binary X operator.truediv (Sass l) (Sass r), m).
Proof. reflexivity. Qed.

(** With [divide] set, the division of two literals is, at every bound of
    the recursion, the parenthesised literal of its quotient. *)
Lemma division_as_quotient l r v k m d :
  apply_binary X operator.truediv (Sass l) (Sass r) = Ok (Sass v) →
  eval k calculator (Div l r) true m
  = eval k calculator (Parentheses (Literal v)) d m.
Proof.
  intros Hq. destruct k as [|[|k]]; [done|done|].
  rewrite division_forced, Hq. done.
Qed.

Lemma division_enclosed (c : enclosing) l r v k d m :
  apply_binary X operator.truediv (Sass l) (Sass r) = Ok (Sass v) →
  eval k calculator (plug c (Div l r)) d m
  = eval k calculator (plug c (Parentheses (Literal v))) d m.
Proof.
  intros Hq. destruct k as [|k]; [done|].
  pose proof (λ m', division_as_quotient l r v k m' true Hq) as Hhole.
  destruct c; cbn [plug evaluate].
  - apply bind_ext; [apply Hhole|done].
  - apply bind_ext; [apply Hhole|]. intros a m'.
    apply bind_ext; [done|]. intros b m''.
    cbn [isinstance_Literal]. by rewrite !andb_false_r.
  - apply bind_ext; [done|]. intros a m'.
    apply bind_ext; [apply Hhole|]. intros b m''.
    cbn [isinstance_Literal]. by rewrite !andb_false_r.
  - apply bind_ext; [|done].
    by apply (mapM_replace (λ operand, eval k calculator operand true)).
  - apply bind_ext; [|done].
    by apply (mapM_replace (λ operand, eval k calculator operand true)).
  - apply bind_ext; [apply Hhole|done].
  - rewrite !length_app. cbn [length].
    apply bind_ext; [|done].
    apply (mapM_replace
             (λ p, bind (eval k calculator (snd p) true) (λ o, ret (fst p, o)))).
    intros m'. cbn [fst snd]. apply bind_ext; [apply Hhole|done].
Qed.

Lemma mapM_runs {A B} (f : A → M (H:=H) B) xs m ys m' :
  mapM f xs m = (Ok ys, m') ↔ runs f xs m ys m'.
Proof.
  split.
  - revert m ys. induction xs as [|x xs IH]; intros m ys; cbn [mapM].
    + intros [= <- <-]. constructor.
    + unfold bind at 1. destruct (f x m) as [[y| |] m1] eqn:Hx; [|done|done].
      unfold bind at 1.
      destruct (mapM f xs m1) as [[ys'| |] m2] eqn:Hxs; [|done|done].
      intros [= <- <-]. econstructor; [exact Hx|]. by apply IH.
  - induction 1 as [|x xs m y m1 ys m2 Hx _ IH]; [done|].
    cbn [mapM]. rewrite (bind_Ok _ _ _ _ _ Hx), (bind_Ok _ _ _ _ _ IH). done.
Qed.

Lemma runs_length {A B} (f : A → M (H:=H) B) xs m ys m' :
  runs f xs m ys m' → length ys = length xs.
Proof. induction 1; cbn; congruence. Qed.

(** A run that stops at the first element that raises. *)
Lemma mapM_Raise {A B} (f : A → M (H:=H) B) before x after m ys m1 ex m2 :
  runs f before m ys m1 → f x m1 = (Raise ex, m2) →
  mapM f (before ++ x :: after) m = (Raise ex, m2).
Proof.
  intros Hruns Hx. induction Hruns as [|b bs m y m1 ys m1' Hb _ IH]; cbn [app mapM].
  - by apply bind_Raise.
  - rewrite (bind_Ok _ _ _ _ _ Hb). apply bind_Raise. by apply IH.
Qed.

Lemma runs_pairs (ev : Expression → M (H:=H) pyobj) (argspec : ArgspecLiteral)
  m (os : list pyobj) m' :
  runs ev (map snd argspec) m os m' →
  runs (λ p, bind (ev (snd p)) (λ o, ret (fst p, o))) argspec m
       (zip (map fst argspec) os) m'.
Proof.
  revert m os. induction argspec as [|[var e] argspec IH]; intros m os; cbn [map].
  - inversion 1; subst. constructor.
  - inversion 1 as [|? ? ? o m1 os' ? He Hrest]; subst. cbn [zip zip_with fst].
    econstructor; [|by apply IH].
    cbn [fst snd]. by rewrite (bind_Ok _ _ _ _ _ He).
Qed.

Lemma rendered_args_Sass (vars : list (option string)) (vs : list value) :
  rendered_args X (zip vars (map Sass vs))
  = Ok (map (argument_text X) (zip vars vs)).
Proof.
  revert vs. induction vars as [|var vars IH]; intros [|v vs]; cbn; try done.
  rewrite IH. by destruct var.
Qed.

(** C1. Division ambiguity.  A division whose two operands are literals,
    evaluated with [divide] false, is the unquoted String of the two
    renderings joined by a slash between blanks, and no quotient is
    computed.  In parentheses the result is the quotient given by the
    division operator, whatever the flag.  Directly under a unary, binary,
    logical or call node, whatever the flag, it evaluates as the
    parenthesised literal of its quotient does.  The three source texts of
    the claim parse to a bare division, a parenthesised one and a sum with a
    division as right operand. *)
Theorem division_ambiguity l r :
  (∀ n m,
     evaluate X parse (S (S n)) calculator
       (BinaryOp operator.truediv (Literal l) (Literal r)) false m
     = (Ok (Sass (String (render X l +:+ " / " +:+ render X r) None)), m))
  ∧ (∀ n d m,
       evaluate X parse (S (S (S n))) calculator
         (Parentheses (BinaryOp operator.truediv (Literal l) (Literal r))) d m
       = (apply_binary X operator.truediv (Sass l) (Sass r), m))
  ∧ (∀ (c : enclosing) v k d m,
       apply_binary X operator.truediv (Sass l) (Sass r) = Ok (Sass v) →
       evaluate X parse k calculator
         (plug c (BinaryOp operator.truediv (Literal l) (Literal r))) d m
       = evaluate X parse k calculator (plug c (Parentheses (Literal v))) d m)
  ∧ (let twelve_px := Literal (NumberValue 12 (Some "px")) in
     let one_and_a_half := Literal (NumberValue (3 # 2) None) in
     let division := BinaryOp operator.truediv twelve_px one_and_a_half in
     SassExpression.parse X "12px/1.5" = Ok division
     ∧ SassExpression.parse X "(12px/1.5)" = Ok (Parentheses division)
     ∧ SassExpression.parse X "1 + 12px/1.5"
       = Ok (BinaryOp operator.add (Literal (NumberValue 1 None)) division)).
Proof.
  split_and!.
  - intros n m. apply division_literal.
  - intros n d m. reflexivity.
  - intros c v k d m Hq. by apply division_enclosed.
  - cbn zeta. split_and!; vm_compute; reflexivity.
Qed.

(** C4. Logical operators do not short-circuit.  [AnyOp] and [AllOp]
    return normally exactly when every operand, evaluated in order with
    [divide] true and each from the state the previous one left, returns
    normally; the result is then the BooleanValue of the or (and) of the
    truth values of all the results.  If an operand raises after the
    earlier ones returned, the node raises the same exception, whatever
    truth values came before.  [NotOp] evaluates its operand with [divide]
    true and returns the BooleanValue of its negated truth value. *)
Theorem logical_non_short_circuit n (operands : list Expression)
  (operand : Expression) d m (result : pyobj) m' :
  let ev := λ e, evaluate X parse n calculator e true in
  (evaluate X parse (S n) calculator (AnyOp operands) d m = (Ok result, m')
   ↔ ∃ os, runs ev operands m os m' ∧ length os = length operands
           ∧ result = Sass (BooleanValue (existsb (truth X) os)))
  ∧ (evaluate X parse (S n) calculator (AllOp operands) d m = (Ok result, m')
     ↔ ∃ os, runs ev operands m os m' ∧ length os = length operands
             ∧ result = Sass (BooleanValue (forallb (truth X) os)))
  ∧ (∀ before e after os m1 ex m2,
       runs ev before m os m1 → ev e m1 = (Raise ex, m2) →
       evaluate X parse (S n) calculator (AnyOp (before ++ e :: after)) d m
       = (Raise ex, m2)
       ∧ evaluate X parse (S n) calculator (AllOp (before ++ e :: after)) d m
         = (Raise ex, m2))
  ∧ (evaluate X parse (S n) calculator (NotOp operand) d m = (Ok result, m')
     ↔ ∃ o, ev operand m = (Ok o, m')
            ∧ result = Sass (BooleanValue (negb (truth X o)))).
Proof.
  intros ev.
  assert (∀ (g : list pyobj → bool),
            bind (mapM ev operands) (λ os, ret (Sass (BooleanValue (g os)))) m
            = (Ok result, m')
            ↔ ∃ os, runs ev operands m os m' ∧ length os = length operands
                    ∧ result = Sass (BooleanValue (g os))) as Hlist.
  { intros g. split.
    - unfold bind.
      destruct (mapM ev operands m) as [[os| |] m1] eqn:Hm; [|done|done].
      intros [= <- <-]. apply mapM_runs in Hm.
      exists os. split_and!; [done|by eapply runs_length|done].
    - intros (os & Hruns & _ & ->). apply mapM_runs in Hruns.
      by rewrite (bind_Ok _ _ _ _ _ Hruns). }
  split_and!.
  - apply Hlist.
  - apply Hlist.
  - intros before e after os m1 ex m2 Hruns He.
    pose proof (mapM_Raise ev before e after m os m1 ex m2 Hruns He) as Hm.
    split; cbn [evaluate]; by apply bind_Raise.
  - cbn [evaluate]. fold (ev operand). unfold bind. split.
    + destruct (ev operand m) as [[o| |] m1]; [|done|done].
      intros [= <- <-]. eauto.
    + intros (o & -> & ->). done.
Qed.

(** C3 as amended.  Unknown function passthrough.  When the argument
    expressions of a CallOp evaluate in order, with [divide] true, to Sass
    values, and the lookup of (name, number of arguments) then raises
    KeyError, the call returns the unquoted String made of the name and, in
    parentheses and separated by a comma and a blank, the rendered
    arguments, a named one preceded by its name, a colon and a blank.  One
    warning is logged exactly when the name is not a built-in CSS function
    name. *)
Theorem unknown_function_passthrough n (func_name : string)
  (argspec : ArgspecLiteral) d m (vs : list value) m1 :
  let lookup := function (namespace calculator) func_name
                  (Some (length argspec)) (mheap m1) in
  runs (λ e, evaluate X parse n calculator e true) (map snd argspec) m
       (map Sass vs) m1 →
  fst lookup = Raise KeyError →
  evaluate X parse (S n) calculator (CallOp func_name argspec) d m
  = (Ok (Sass (String
                (passthrough_text func_name
                   (map (argument_text X) (zip (map fst argspec) vs)))
                None)),
     after_passthrough X func_name (snd lookup) m1).
Proof.
  intros lookup Hruns Hlookup.
  apply runs_pairs, mapM_runs in Hruns.
  cbn [evaluate]. rewrite (bind_Ok _ _ _ _ _ Hruns).
  unfold try_KeyError, bind at 1, lift_heap.
  fold lookup. destruct lookup as [r h'] eqn:El. cbn [fst snd] in *. subst r.
  rewrite rendered_args_Sass.
  unfold after_passthrough.
  destruct (is_builtin_css_function X func_name); reflexivity.
Qed.

End EvalFacts.

(** The three texts of the claim, run through [Calculator.calculate] with the
    sample value system in a fresh namespace. *)
Example division_ambiguity_sample :
  let calculator := mkCalculator Sample.parent_a in
  let m := mkMachine Sample.parents_heap ∅ [] 0 in
  fst (calculate Sample.X Sample.parse 8 calculator (PyStr "12px/1.5") m)
  = Ok (Sass (String "12px / 1.5" None))
  ∧ fst (calculate Sample.X Sample.parse 8 calculator (PyStr "(12px/1.5)") m)
    = Ok (Sass (NumberValue 8 (Some "px")))
  ∧ fst (calculate Sample.X Sample.parse 8 calculator (PyStr "1 + 12px/1.5") m)
    = Ok (Sass (NumberValue 9 (Some "px"))).
Proof. split_and!; vm_compute; reflexivity. Qed.

(** Concrete run: [foo(1, $k: 2)] with no function [foo] registered. *)
Lemma unknown_function_passthrough_witness :
  let calculator := mkCalculator Sample.parent_a in
  let m := mkMachine Sample.parents_heap ∅ [] 0 in
  let argspec := [(None, Literal (NumberValue 1 None));
                  (Some "$k", Literal (NumberValue 2 None))] in
  let run := evaluate Sample.X Sample.parse 2 calculator
               (CallOp "foo" argspec) false m in
  fst (function (namespace calculator) "foo" (Some 2) (mheap m)) = Raise KeyError
  ∧ fst run = Ok (Sass (String "foo(1, $k: 2)" None))
  ∧ log (snd run) = ["no such function"].
Proof.
  intros calculator m argspec run.
  assert (fst (function (namespace calculator) "foo" (Some (length argspec))
                 (mheap m)) = Raise KeyError) as Hlookup
    by (vm_compute; reflexivity).
  split; [exact Hlookup|].
  assert (runs (λ e, evaluate Sample.X Sample.parse 1 calculator e true)
            (map snd argspec) m
            (map Sass [NumberValue 1 None; NumberValue 2 None]) m) as Hruns.
  { repeat econstructor. }
  unfold run.
  rewrite (unknown_function_passthrough Sample.X Sample.parse calculator 1
             "foo" argspec false m _ m Hruns Hlookup).
  split; vm_compute; reflexivity.
Defined.

(** C3 as stated fails.  [foo($u)], with neither a function [foo] nor a
    variable [$u], has a failing lookup, and its evaluation raises the
    KeyError of the undefined variable.  [foo($s)], with [$s] bound to the
    raw text [1 +], evaluates its argument to that text, and raises
    AttributeError when the fallback renders it. *)
Lemma unknown_function_passthrough_counterexample :
  let calculator := mkCalculator Sample.parent_a in
  let m := mkMachine Sample.parents_heap ∅ [] 0 in
  let raw := mkMachine Sample.raw_heap ∅ [] 0 in
  let call_u := CallOp "foo" [(None, Variable_ "$u")] in
  let call_s := CallOp "foo" [(None, Variable_ "$s")] in
  (SassExpression.parse Sample.X "foo($u)" = Ok call_u
   ∧ fst (function (namespace calculator) "foo" (Some 1) (mheap m))
     = Raise KeyError
   ∧ ∀ n, fst (evaluate Sample.X Sample.parse (S (S n)) calculator call_u false m)
          = Raise KeyError)
  ∧ (fst (function (namespace calculator) "foo" (Some 1) (mheap raw))
     = Raise KeyError
     ∧ (∀ n, fst (evaluate Sample.X Sample.parse (S (S n)) calculator
                    (Variable_ "$s") true raw) = Ok (PyStr "1 +"))
     ∧ ∀ n, fst (evaluate Sample.X Sample.parse (S (S (S n))) calculator
                   call_s false raw) = Raise AttributeError).
Proof.
  cbn zeta. split_and!; try (vm_compute; reflexivity).
  all: intros n; vm_compute; reflexivity.
Qed.

(** A logical node whose first operand is already true still calls the
    function in each later operand: the counter of the sample callable ends
    at 2; and an undefined variable in a later operand raises. *)
Example logical_non_short_circuit_sample :
  let calculator := mkCalculator Sample.parent_a in
  let m := mkMachine Sample.tick_heap ∅ [] 0 in
  let run := calculate Sample.X Sample.parse 8 calculator
               (PyStr "true or tick() or tick()") m in
  fst run = Ok (Sass (BooleanValue true))
  ∧ host (snd run) = 2
  ∧ fst (calculate Sample.X Sample.parse 8 calculator
           (PyStr "true or $u") m) = Raise KeyError.
Proof. split_and!; vm_compute; reflexivity. Qed.

(** ** The expression cache *)

Section CacheFacts.
Context {H : Type} (X : Externals H) (calculator : Calculator).
Implicit Types (m : machine H) (e : Expression) (d : bool) (text : string).
Implicit Types (parse : string → outcome Expression).

Lemma cache_grows_ret {A} (a : A) : cache_grows (ret (H:=H) a).
Proof. by intros m. Qed.

Lemma cache_grows_lift_outcome {A} (r : outcome A) :
  cache_grows (lift_outcome (H:=H) r).
Proof. by intros m. Qed.

Lemma cache_grows_lift_heap {A} (f : heap → outcome A * heap) :
  cache_grows (lift_heap (H:=H) f).
Proof. intros m. unfold lift_heap. by destruct (f (mheap m)). Qed.

Lemma cache_grows_log_warn msg : cache_grows (log_warn (H:=H) msg).
Proof. by intros m. Qed.

Lemma cache_grows_call f ns args kwargs : cache_grows (call X f ns args kwargs).
Proof.
  intros m. unfold call.
  by destruct (invoke X f ns args kwargs (mheap m, host m)) as [r [h s]].
Qed.

Lemma cache_grows_bind {A B} (c : M A) (k : A → M (H:=H) B) :
  cache_grows c → (∀ a, cache_grows (k a)) → cache_grows (bind c k).
Proof.
  intros Hc Hk m. unfold bind. specialize (Hc m).
  destruct (c m) as [[a| |] m1]; cbn [snd] in *; [|done|done].
  etrans; [exact Hc|apply Hk].
Qed.

Lemma cache_grows_try {A} (c : M (H:=H) A) :
  cache_grows c → cache_grows (try_KeyError c).
Proof.
  intros Hc m. unfold try_KeyError. specialize (Hc m).
  by destruct (c m) as [[a|[]|] m1].
Qed.

Lemma cache_grows_mapM {A B} (f : A → M (H:=H) B) (l : list A) :
  (∀ x, cache_grows (f x)) → cache_grows (mapM f l).
Proof.
  intros Hf. induction l as [|x l IH]; cbn [mapM]; [apply cache_grows_ret|].
  apply cache_grows_bind; [apply Hf|]. intros y.
  apply cache_grows_bind; [apply IH|]. intros ys. apply cache_grows_ret.
Qed.

Lemma cache_grows_evaluate_expression_with parse (ev : Expression → M pyobj)
  (expr : pyobj) :
  (∀ ast, cache_grows (ev ast)) →
  cache_grows (evaluate_expression_with X parse ev calculator expr).
Proof.
  intros Hev. destruct expr as [text|v]; cbn [evaluate_expression_with];
    [|apply cache_grows_ret].
  apply cache_grows_bind; [apply cache_grows_try, cache_grows_lift_heap|].
  intros [results|]; [apply cache_grows_ret|].
  intros m. unfold bind at 1, get_cache.
  destruct (ast_cache m !! text) as [ast|] eqn:Hc.
  - apply cache_grows_bind; [apply Hev|]. intros a. apply cache_grows_ret.
  - destruct (parse text) as [ast|ex|]; [| |done].
    + unfold bind at 1, cache_store.
      etrans; [apply (insert_subseteq (ast_cache m) text ast Hc)|].
      assert (cache_grows (bind (ev ast) (λ results, ret (Some results)))) as Hb.
      { apply cache_grows_bind; [apply Hev|]. intros a. apply cache_grows_ret. }
      exact (Hb (mkMachine (mheap m) (<[text:=ast]> (ast_cache m)) (log m) (host m))).
    + by destruct (DEBUG X).
Qed.

Lemma cache_grows_evaluate parse n e d :
  cache_grows (evaluate X parse n calculator e d).
Proof.
  revert e d. induction n as [|n IH]; intros e d; [by intros m|].
  destruct e; cbn [evaluate].
  - apply IH.
  - apply cache_grows_bind; [apply IH|]. intros. apply cache_grows_lift_outcome.
  - apply cache_grows_bind; [apply IH|]. intros l.
    apply cache_grows_bind; [apply IH|]. intros r.
    destruct (_ && _).
    + apply cache_grows_bind; [apply cache_grows_lift_outcome|]. intros.
      apply cache_grows_bind; [apply cache_grows_lift_outcome|]. intros.
      apply cache_grows_ret.
    + apply cache_grows_lift_outcome.
  - apply cache_grows_bind; [by apply cache_grows_mapM|]. intros.
    apply cache_grows_ret.
  - apply cache_grows_bind; [by apply cache_grows_mapM|]. intros.
    apply cache_grows_ret.
  - apply cache_grows_bind; [apply IH|]. intros. apply cache_grows_ret.
  - apply cache_grows_bind.
    { apply cache_grows_mapM. intros p.
      apply cache_grows_bind; [apply IH|]. intros. apply cache_grows_ret. }
    intros evald.
    apply cache_grows_bind; [apply cache_grows_try, cache_grows_lift_heap|].
    intros [func|].
    + apply cache_grows_call.
    + apply cache_grows_bind.
      { destruct (is_builtin_css_function X func_name);
          [apply cache_grows_ret|apply cache_grows_log_warn]. }
      intros. apply cache_grows_bind; [apply cache_grows_lift_outcome|].
      intros. apply cache_grows_ret.
  - apply cache_grows_ret.
  - apply cache_grows_bind; [apply cache_grows_lift_heap|]. intros v.
    destruct (is_str v); [|apply cache_grows_ret].
    apply cache_grows_bind.
    + apply cache_grows_evaluate_expression_with. intros. apply IH.
    + intros [r|]; apply cache_grows_ret.
  - apply cache_grows_bind; [by apply cache_grows_mapM|]. intros.
    apply cache_grows_ret.
Qed.

Lemma cache_grows_evaluate_expression parse n (expr : pyobj) :
  cache_grows (evaluate_expression X parse n calculator expr).
Proof.
  apply cache_grows_evaluate_expression_with. intros.
  apply cache_grows_evaluate.
Qed.

Lemma cache_grows_lookup {A} (c : M (H:=H) A) m text ast :
  cache_grows c → ast_cache m !! text = Some ast →
  ast_cache (snd (c m)) !! text = Some ast.
Proof. intros Hc Hm. eapply lookup_weaken; [exact Hm|apply Hc]. Qed.

Lemma bind_get_cache {A} (k : gmap string Expression → M (H:=H) A) m :
  bind get_cache k m = k (ast_cache m) m.
Proof. done. Qed.

Lemma bind_cache_store {A} text ast (k : unit → M (H:=H) A) m :
  bind (cache_store text ast) k m
  = k tt (mkMachine (mheap m) (<[text := ast]> (ast_cache m)) (log m) (host m)).
Proof. done. Qed.

(** *** A cached text is not parsed again

    Two parsers that differ at most on [text] cannot be told apart by an
    evaluation that starts with [text] in the cache. *)

Section ParserIrrelevant.
Context (parse1 parse2 : string → outcome Expression) (text : string).
Context (Hagree : ∀ t, t ≠ text → parse1 t = parse2 t).

Let cached (m : machine H) : Prop := is_Some (ast_cache m !! text).

Lemma cached_grows {A} (c : M (H:=H) A) m :
  cache_grows c → cached m → cached (snd (c m)).
Proof.
  intros Hc [ast Hm]. exists ast. by apply cache_grows_lookup.
Qed.

Lemma bind_agree {A B} (c c' : M A) (k k' : A → M (H:=H) B) m :
  c m = c' m → cache_grows c' → cached m →
  (∀ a m', cached m' → k a m' = k' a m') →
  bind c k m = bind c' k' m.
Proof.
  intros Hc Hg Hm Hk. unfold bind. rewrite Hc.
  pose proof (cached_grows c' m Hg Hm) as Hm'.
  destruct (c' m) as [[a| |] m']; [by apply Hk|done|done].
Qed.

Lemma mapM_agree {A B} (f g : A → M (H:=H) B) (l : list A) m :
  (∀ x m', cached m' → f x m' = g x m') → (∀ x, cache_grows (g x)) →
  cached m → mapM f l m = mapM g l m.
Proof.
  intros Hfg Hg. revert m. induction l as [|x l IH]; intros m Hm; [done|].
  cbn [mapM]. apply bind_agree; [by apply Hfg|apply Hg|done|].
  intros y m' Hm'. apply bind_agree; [by apply IH|by apply cache_grows_mapM|done|].
  done.
Qed.

Lemma evaluate_expression_with_agree (ev1 ev2 : Expression → M pyobj)
  (expr : pyobj) m :
  (∀ ast m', cached m' → ev1 ast m' = ev2 ast m') →
  (∀ ast, cache_grows (ev2 ast)) → cached m →
  evaluate_expression_with X parse1 ev1 calculator expr m
  = evaluate_expression_with X parse2 ev2 calculator expr m.
Proof.
  intros Hev Hg Hm. destruct expr as [t|v]; [|done].
  cbn [evaluate_expression_with].
  apply bind_agree;
    [done|apply cache_grows_try, cache_grows_lift_heap|done|].
  intros [results|] m' Hm'; [done|]. rewrite !bind_get_cache.
  destruct (ast_cache m' !! t) as [ast|] eqn:Ht.
  - apply bind_agree; [by apply Hev|apply Hg|done|done].
  - assert (t ≠ text) as Hne.
    { intros ->. destruct Hm' as [? Hm']. congruence. }
    rewrite (Hagree t Hne).
    destruct (parse2 t) as [ast|ex|]; [|done|done].
    rewrite !bind_cache_store.
    apply bind_agree; [|apply Hg| |done].
    + apply Hev. unfold cached. cbn. by rewrite lookup_insert_ne.
    + unfold cached. cbn. by rewrite lookup_insert_ne.
Qed.

Lemma evaluate_agree n e d m :
  cached m →
  evaluate X parse1 n calculator e d m = evaluate X parse2 n calculator e d m.
Proof.
  revert e d m. induction n as [|n IH]; intros e d m Hm; [done|].
  pose proof (λ e d, cache_grows_evaluate parse2 n e d) as Hg.
  destruct e; cbn [evaluate].
  - by apply IH.
  - apply bind_agree; [by apply IH|apply Hg|done|done].
  - apply bind_agree; [by apply IH|apply Hg|done|]. intros l m1 Hm1.
    apply bind_agree; [by apply IH|apply Hg|done|done].
  - apply bind_agree; [|by apply cache_grows_mapM|done|done].
    apply mapM_agree; [|done|done]. intros. by apply IH.
  - apply bind_agree; [|by apply cache_grows_mapM|done|done].
    apply mapM_agree; [|done|done]. intros. by apply IH.
  - apply bind_agree; [by apply IH|apply Hg|done|done].
  - assert (∀ p : option string * Expression,
              cache_grows (bind (evaluate X parse2 n calculator (snd p) true)
                                (λ v, ret (H:=H) (fst p, v)))) as Hgp.
    { intros p. apply cache_grows_bind; [apply Hg|]. intros. apply cache_grows_ret. }
    apply bind_agree; [|by apply cache_grows_mapM|done|done].
    apply mapM_agree; [|done|done]. intros p m1 Hm1.
    apply bind_agree; [by apply IH|apply Hg|done|done].
  - done.
  - apply bind_agree; [done|apply cache_grows_lift_heap|done|].
    intros v m1 Hm1. destruct (is_str v); [|done].
    apply bind_agree; [| |done|done].
    + apply evaluate_expression_with_agree; [|by intros|done].
      intros. by apply IH.
    + apply cache_grows_evaluate_expression_with. intros. apply Hg.
  - apply bind_agree; [|by apply cache_grows_mapM|done|done].
    apply mapM_agree; [|done|done]. intros. by apply IH.
Qed.

Lemma evaluate_expression_agree n (expr : pyobj) m :
  cached m →
  evaluate_expression X parse1 n calculator expr m
  = evaluate_expression X parse2 n calculator expr m.
Proof.
  intros Hm. apply evaluate_expression_with_agree; [| |done].
  - intros. by apply evaluate_agree.
  - intros. apply cache_grows_evaluate.
Qed.

End ParserIrrelevant.

End CacheFacts.

Section ScopeRebind.
Context {K V : Type} `{Countable K}.

(** After an assignment the chain binds the key to the assigned value. *)
Lemma chain_lookup_after_setitem (l0 : nat) (maps : VariableScope) (key : K)
  (value : V) (st : store K V) :
  l0 < length (dicts st) →
  chain_lookup (dicts (snd (setitem (Dict l0 :: maps) key value st)))
    (Dict l0 :: maps) key = Some value.
Proof.
  intros Hl0. destruct (setitem_dicts l0 maps key value st) as [_ ->].
  destruct (first_holder (dicts st) (Dict l0 :: maps) key) as [l|] eqn:E;
    cbn [default].
  - by apply chain_lookup_alter_holder.
  - unfold chain_lookup. cbn [first_holder].
    rewrite link_has_alter_eq by done. cbn.
    rewrite list_lookup_alter_eq.
    destruct (lookup_lt_is_Some_2 (dicts st) l0 Hl0) as [d0 ->]. cbn.
    by rewrite lookup_insert_eq.
Qed.

End ScopeRebind.

(** [set_variable] with a Sass value succeeds, and the variable then reads
    as that value in every heap with the same dicts. *)
Lemma variable_after_set_variable (ns : Namespace) (name : string) (v : value)
  (h : heap) :
  variables_wf ns h →
  fst (set_variable ns name (Sass v) h) = Ok tt
  ∧ ∀ h', dicts (vars h') = dicts (vars (snd (set_variable ns name (Sass v) h))) →
          fst (variable ns name h') = Ok (Sass v).
Proof.
  intros (l0 & rest & Hmaps & Hl0).
  unfold set_variable, variable, on_vars. rewrite Hmaps.
  pose proof (setitem_dicts l0 rest (normalize_var name) (Sass v) (vars h)) as [Hr _].
  pose proof (chain_lookup_after_setitem l0 rest (normalize_var name) (Sass v)
                (vars h) Hl0) as Hl.
  destruct (setitem (Dict l0 :: rest) (normalize_var name) (Sass v) (vars h))
    as [r st'].
  cbn [fst snd vars] in *. split; [done|].
  intros h' Hd.
  pose proof (getitem_chain_lookup (Dict l0 :: rest) (normalize_var name) (vars h')) as Hg.
  destruct (getitem (Dict l0 :: rest) (normalize_var name) (vars h')) as [r' st''].
  cbn [fst] in *. rewrite Hg, Hd, Hl. done.
Qed.

(** ** The Calculator *)

Section CalculatorFacts.
Context {H : Type} (X : Externals H) (calculator : Calculator).
Context (parse : string → outcome Expression).
Implicit Types (m : machine H) (text : string) (ast : Expression).

Lemma lift_heap_eq {A} (f : heap → outcome A * heap) m (r : outcome A) m1 :
  lift_heap f m = (r, m1) →
  r = fst (f (mheap m)) ∧ m1 = with_heap (snd (f (mheap m))) m.
Proof. unfold lift_heap. destruct (f (mheap m)). by intros [= <- <-]. Qed.

(** [evaluate_expression] on a text that is not itself the name of a
    variable: the cache is consulted, and the parser only on a miss. *)
Lemma evaluate_expression_with_miss (ev : Expression → M pyobj) text m m1 :
  lift_heap (variable (namespace calculator) text) m = (Raise KeyError, m1) →
  evaluate_expression_with X parse ev calculator (PyStr text) m =
    match ast_cache m1 !! text with
    | Some ast => bind (ev ast) (λ r, ret (Some r)) m1
    | None =>
        match parse text with
        | Ok ast =>
            bind (ev ast) (λ r, ret (Some r))
              (mkMachine (mheap m1) (<[text := ast]> (ast_cache m1))
                 (log m1) (host m1))
        | Raise ex => if DEBUG X then (Raise ex, m1) else (Ok None, m1)
        | OutOfFuel => (OutOfFuel, m1)
        end
    end.
Proof.
  intros Hmiss. cbn [evaluate_expression_with].
  rewrite (bind_Ok _ _ _ None m1) by (unfold try_KeyError; by rewrite Hmiss).
  rewrite bind_get_cache.
  destruct (ast_cache m1 !! text); [done|].
  destruct (parse text); [done| |done]. by destruct (DEBUG X).
Qed.

Lemma bind_bind {A B C} (c : M (H:=H) A) (k1 : A → M B) (k2 : B → M C) m :
  bind (bind c k1) k2 m = bind c (λ a, bind (k1 a) k2) m.
Proof. unfold bind. by destruct (c m) as [[a| |] m']. Qed.

Lemma bind_except_miss {A B} (c handler : M (H:=H) A) (k : A → M B) m m' :
  c m = (Raise KeyError, m') →
  bind (except_KeyError c handler) k m = bind handler k m'.
Proof. intros Hc. unfold bind, except_KeyError. by rewrite Hc. Qed.

Lemma apply_vars_S n (cont : pyobj) :
  apply_vars X parse (S n) calculator cont =
    bind (match cont with
          | PyStr s =>
              if str_in "$" s then
                except_KeyError
                  (lift_heap (variable (namespace calculator) s))
                  (bind (re_sub (_interpolate_re X s) (_av X calculator))
                        (λ s', ret (PyStr s')))
              else ret cont
          | Sass _ => ret cont
          end)
      (λ cont, do_glob_math X parse n calculator cont).
Proof. done. Qed.

Lemma do_glob_math_S n (cont : pyobj) :
  do_glob_math X parse (S n) calculator cont =
    if negb (str_in "#{" (str X cont)) then ret (str X cont)
    else re_sub (_expr_glob_re X (str X cont))
           (_calculate_expr X parse n calculator).
Proof. done. Qed.

(** C6. Expression cache.  (1) When a text that is not itself the name of
    a variable is not cached and parses, its evaluation leaves the AST in
    the cache under that text.  (2) When a text is cached, its evaluation
    keeps the entry and never uses the answer of the parser on this text:
    another parser gives the same run; and if the text is not the name of
    a variable, the run is the evaluation of the cached AST.  (3) No
    evaluation of any expression removes or replaces an entry.  (4) After a
    variable is rebound, the entry is unchanged, and a cached reference to
    that variable evaluates to the new value. *)
Theorem expression_cache n text ast :
  let run := evaluate_expression X parse n calculator (PyStr text) in
  (∀ m m1,
     lift_heap (variable (namespace calculator) text) m = (Raise KeyError, m1) →
     ast_cache m !! text = None → parse text = Ok ast →
     ast_cache (snd (run m)) !! text = Some ast)
  ∧ (∀ m,
       ast_cache m !! text = Some ast →
       ast_cache (snd (run m)) !! text = Some ast
       ∧ (∀ parse', (∀ t, t ≠ text → parse' t = parse t) →
            evaluate_expression X parse' n calculator (PyStr text) m = run m)
       ∧ (∀ m1,
            lift_heap (variable (namespace calculator) text) m
            = (Raise KeyError, m1) →
            run m = bind (evaluate X parse n calculator ast false)
                      (λ r, ret (Some r)) m1))
  ∧ (∀ k e d m,
       ast_cache m !! text = Some ast →
       ast_cache (snd (evaluate X parse k calculator e d m)) !! text = Some ast)
  ∧ (∀ m name v m3,
       ast = Variable_ name →
       ast_cache m !! text = Some ast →
       variables_wf (namespace calculator) (mheap m) →
       let h2 := snd (set_variable (namespace calculator) name (Sass v) (mheap m)) in
       lift_heap (variable (namespace calculator) text) (with_heap h2 m)
       = (Raise KeyError, m3) →
       ast_cache (with_heap h2 m) !! text = Some ast
       ∧ ∀ k, fst (evaluate_expression X parse (S k) calculator (PyStr text)
                     (with_heap h2 m)) = Ok (Some (Sass v))).
Proof.
  intros run.
  assert (∀ m m1,
            lift_heap (variable (namespace calculator) text) m
            = (Raise KeyError, m1) → ast_cache m1 = ast_cache m) as Hsame.
  { intros m m1 Hmiss. apply lift_heap_eq in Hmiss as [_ ->]. done. }
  split_and!.
  - intros m m1 Hmiss Hnone Hparse. unfold run, evaluate_expression.
    rewrite (evaluate_expression_with_miss _ _ _ _ Hmiss),
      (Hsame _ _ Hmiss), Hnone, Hparse.
    apply (cache_grows_lookup
             (bind (evaluate X parse n calculator ast false) (λ r, ret (Some r)))).
    + apply cache_grows_bind; [apply cache_grows_evaluate|].
      intros. apply cache_grows_ret.
    + cbn. apply lookup_insert_eq.
  - intros m Hsome. split_and!.
    + apply (cache_grows_lookup run); [|done].
      apply cache_grows_evaluate_expression.
    + intros parse' Hagree.
      apply (evaluate_expression_agree X calculator parse' parse text Hagree).
      by rewrite Hsome.
    + intros m1 Hmiss. unfold run, evaluate_expression.
      by rewrite (evaluate_expression_with_miss _ _ _ _ Hmiss),
        (Hsame _ _ Hmiss), Hsome.
  - intros k e d m Hsome.
    apply (cache_grows_lookup (evaluate X parse k calculator e d)); [|done].
    apply cache_grows_evaluate.
  - intros m name v m3 -> Hsome Hwf h2 Hmiss2. split; [done|]. intros k.
    unfold evaluate_expression.
    rewrite (evaluate_expression_with_miss _ _ _ _ Hmiss2).
    pose proof (lift_heap_eq _ _ _ _ Hmiss2) as [_ Hm3].
    assert (ast_cache m3 !! text = Some (Variable_ name)) as -> by (by rewrite Hm3).
    destruct (variable_after_set_variable (namespace calculator) name v
                (mheap m) Hwf) as [_ Hread].
    cbn [evaluate]. unfold bind at 1 2, lift_heap.
    specialize (Hread (mheap m3)).
    destruct (variable (namespace calculator) name (mheap m3)) as [r h4].
    cbn [fst] in Hread. rewrite Hread; [done|].
    rewrite Hm3. cbn [mheap with_heap].
    unfold variable, on_vars.
    pose proof (getitem_dicts (_variables (namespace calculator))
                  (normalize_var text) (vars h2)) as Hd.
    destruct (getitem (_variables (namespace calculator)) (normalize_var text)
                (vars h2)) as [r' st']. done.
Qed.

(** Reading a variable in a machine gives what the chain binds the name to
    and changes no dict. *)
Lemma variable_in_machine h name m :
  dicts (vars (mheap m)) = dicts (vars h) →
  ∃ m', lift_heap (variable (namespace calculator) name) m
        = (found_or_KeyError (bound_in (namespace calculator) h name), m')
        ∧ dicts (vars (mheap m')) = dicts (vars h).
Proof.
  intros Hds. unfold lift_heap, variable, on_vars, bound_in.
  pose proof (getitem_chain_lookup (_variables (namespace calculator))
                (normalize_var name) (vars (mheap m))) as Hr.
  pose proof (getitem_dicts (_variables (namespace calculator))
                (normalize_var name) (vars (mheap m))) as Hd.
  destruct (getitem (_variables (namespace calculator)) (normalize_var name)
              (vars (mheap m))) as [r st].
  cbn [fst snd] in Hr, Hd. subst r. rewrite Hds in *.
  eexists. split; [reflexivity|]. cbn. by rewrite Hd.
Qed.

(** [_av] returns the replacement of a match, and changes no dict. *)
Lemma _av_replaced h g text m :
  dicts (vars (mheap m)) = dicts (vars h) →
  replaced X (bound_in (namespace calculator) h) (inr g) text →
  ∃ m', _av X calculator g m = (Ok text, m')
        ∧ dicts (vars (mheap m')) = dicts (vars h).
Proof.
  intros Hds Hrep.
  destruct (variable_in_machine h (snd g) m Hds) as (m' & Hread & Hds').
  exists m'. split; [|done].
  inversion Hrep as [|group0 group1 group2 v Hb Ht|group0 group1 group2 v Hb Ht];
    subst; cbn [snd] in Hread; rewrite Hb in Hread; cbn [_av];
    rewrite (bind_Ok _ _ _ _ _ Hread), Ht; [|done].
  destruct v as [s|x]; cbn [render_obj lift_outcome];
    by destruct group1 as [[|c1 g1]|].
Qed.

(** [_av] raises KeyError on a match whose variable is not bound. *)
Lemma _av_unbound h g m :
  dicts (vars (mheap m)) = dicts (vars h) →
  bound_in (namespace calculator) h (snd g) = None →
  ∃ m', _av X calculator g m = (Raise KeyError, m').
Proof.
  intros Hds Hb.
  destruct (variable_in_machine h (snd g) m Hds) as (m' & Hread & _).
  rewrite Hb in Hread. exists m'. destruct g as [[group0 group1] group2].
  cbn [_av]. by rewrite (bind_Raise _ _ _ _ _ Hread).
Qed.

(** The substitution of [_av] over the pieces of a text, as long as every
    match has a replacement. *)
Lemma pieces_replaced h pieces texts m :
  dicts (vars (mheap m)) = dicts (vars h) →
  Forall2 (replaced X (bound_in (namespace calculator) h)) pieces texts →
  ∃ m', mapM (λ piece, match piece with
                       | inl stretch => ret stretch
                       | inr g => _av X calculator g
                       end) pieces m = (Ok texts, m')
        ∧ dicts (vars (mheap m')) = dicts (vars h).
Proof.
  intros Hds Hall. revert m Hds.
  induction Hall as [|piece text pieces texts Hrep _ IH]; intros m Hds.
  - by exists m.
  - assert (∃ m1, match piece with
                  | inl stretch => ret stretch
                  | inr g => _av X calculator g
                  end m = (Ok text, m1)
                  ∧ dicts (vars (mheap m1)) = dicts (vars h))
      as (m1 & Hhead & Hds1).
    { destruct piece as [stretch|g]; [|by apply _av_replaced].
      inversion Hrep; subst. by exists m. }
    destruct (IH m1 Hds1) as (m2 & Htail & Hds2).
    exists m2. split; [|done].
    cbn [mapM]. rewrite (bind_Ok _ _ _ _ _ Hhead), (bind_Ok _ _ _ _ _ Htail). done.
Qed.

(** The substitution stops with KeyError at the first match whose variable
    is not bound. *)
Lemma pieces_unbound h before texts g after m :
  dicts (vars (mheap m)) = dicts (vars h) →
  Forall2 (replaced X (bound_in (namespace calculator) h)) before texts →
  bound_in (namespace calculator) h (snd g) = None →
  ∃ m', mapM (λ piece, match piece with
                       | inl stretch => ret stretch
                       | inr g => _av X calculator g
                       end) (before ++ inr g :: after) m = (Raise KeyError, m').
Proof.
  intros Hds Hall Hb. revert m Hds.
  induction Hall as [|piece text pieces texts Hrep Hall IH]; intros m Hds.
  - destruct (_av_unbound h g m Hds Hb) as (m' & Hav). exists m'.
    cbn [app mapM]. by rewrite (bind_Raise _ _ _ _ _ Hav).
  - destruct (pieces_replaced h [piece] [text] m Hds) as (m1 & Hhead & Hds1).
    { by constructor. }
    cbn [mapM] in Hhead. unfold bind at 1 in Hhead.
    destruct (match piece with
              | inl stretch => ret stretch
              | inr g => _av X calculator g
              end m) as [[t| |] m1'] eqn:Hp; [|done|done].
    cbn in Hhead. injection Hhead as <- <-.
    destruct (IH m1' Hds1) as (m2 & Htail). exists m2.
    cbn [app mapM]. rewrite (bind_Ok _ _ _ _ _ Hp).
    by rewrite (bind_Raise _ _ _ _ _ Htail).
Qed.


End CalculatorFacts.

(** Concrete run: the first evaluation of [$x + 1] leaves its AST in the
    cache. *)
Lemma expression_cache_witness :
  let calculator := mkCalculator Sample.parent_a in
  let m := mkMachine Sample.parents_heap ∅ [] 0 in
  let text := "$x + 1" in
  let ast := BinaryOp operator.add (Variable_ "$x") (Literal (NumberValue 1 None)) in
  lift_heap (variable (namespace calculator) text) m = (Raise KeyError, m)
  ∧ ast_cache (snd (evaluate_expression Sample.X Sample.parse 4 calculator
                      (PyStr text) m)) !! text = Some ast.
Proof.
  intros calculator m text ast.
  assert (lift_heap (variable (namespace calculator) text) m = (Raise KeyError, m))
    as Hmiss by (vm_compute; reflexivity).
  split; [exact Hmiss|].
  apply (proj1 (expression_cache Sample.X calculator Sample.parse 4 text ast)
           m m Hmiss).
  - vm_compute. reflexivity.
  - vm_compute. reflexivity.
Defined.

(** Two evaluations of [$x + 1] around a rebinding of [$x]: the results are
    2 and 6, the cache entry is the same, and the second evaluation gives 6
    even with a parser that rejects every text. *)
Example expression_cache_sample :
  let calculator := mkCalculator Sample.parent_a in
  let m := mkMachine Sample.parents_heap ∅ [] 0 in
  let text := "$x + 1" in
  let first := evaluate_expression Sample.X Sample.parse 4 calculator (PyStr text) m in
  let rebound := with_heap
                   (snd (set_variable Sample.parent_a "$x"
                           (Sass (NumberValue 5 None)) (mheap (snd first))))
                   (snd first) in
  let second := evaluate_expression Sample.X Sample.parse 4 calculator
                  (PyStr text) rebound in
  fst first = Ok (Some (Sass (NumberValue 2 None)))
  ∧ fst second = Ok (Some (Sass (NumberValue 6 None)))
  ∧ ast_cache (snd second) !! text = ast_cache (snd first) !! text
  ∧ fst (evaluate_expression Sample.X (λ _, Raise SyntaxError) 4 calculator
           (PyStr text) rebound) = Ok (Some (Sass (NumberValue 6 None))).
Proof. split_and!; vm_compute; reflexivity. Qed.



(** With DEBUG set, the SyntaxError of [1 +] leaves [evaluate_expression]
    and [calculate]. *)
Example syntax_error_debug_sample :
  let calculator := mkCalculator Sample.parent_a in
  let m := mkMachine Sample.parents_heap ∅ [] 0 in
  let X := Sample.externals true in
  fst (evaluate_expression X (SassExpression.parse X) 3 calculator (PyStr "1 +") m)
  = Raise SyntaxError
  ∧ fst (calculate X (SassExpression.parse X) 3 calculator (PyStr "1 +") m)
    = Raise SyntaxError.
Proof. split; vm_compute; reflexivity. Qed.

(** ** The scanner and the parser *)

(** C8 as amended.  Minus disambiguation.  A minus followed by white space
    is the binary operator: [1 - 2] and [1- 2] parse as the subtraction of
    2 from 1.  A minus followed by a digit is the unary sign SIGN, so [1-2]
    and [1 -2] parse as the list, without commas, of 1 and the negation of
    2.  A minus followed by a letter starts an identifier: [-moz] is one ID
    token. *)
Theorem minus_disambiguation {H : Type} (X : Externals H) :
  let one := Literal (NumberValue 1 None) in
  let two := Literal (NumberValue 2 None) in
  SassExpression.parse X "1 - 2" = Ok (BinaryOp operator.sub one two)
  ∧ SassExpression.parse X "1- 2" = Ok (BinaryOp operator.sub one two)
  ∧ SassExpression.lex X "1 - 2" = [(NUM, "1"); (SUB, "- "); (NUM, "2"); (END, "")]
  ∧ SassExpression.parse X "1-2"
    = Ok (ListLiteral [one; UnaryOp operator.neg two] false)
  ∧ SassExpression.parse X "1 -2"
    = Ok (ListLiteral [one; UnaryOp operator.neg two] false)
  ∧ SassExpression.lex X "1-2" = [(NUM, "1"); (SIGN, "-"); (NUM, "2"); (END, "")]
  ∧ SassExpression.lex X "-moz" = [(ID, "-moz"); (END, "")]
  ∧ SassExpression.parse X "-moz"
    = Ok (Literal (SassExpression.parse_bareword X "-moz")).
Proof. cbn zeta. split_and!; vm_compute; reflexivity. Qed.

(** C8 as stated fails: [1-2] does not parse as a subtraction. *)
Lemma minus_disambiguation_counterexample :
  ¬ ∃ left_ right_,
      SassExpression.parse Sample.X "1-2"
      = Ok (BinaryOp operator.sub left_ right_).
Proof.
  intros (left_ & right_ & Hparse).
  vm_compute in Hparse. discriminate Hparse.
Qed.

(** ** More on scope chains *)

Section ScopeMore.
Context {K V : Type} `{Countable K}.
Implicit Types (st : store K V) (maps : VariableScope) (key : K) (value : V).
Implicit Types (ds : list (gmap K V)) (m : link).

Lemma link_has_entry ds l key :
  link_has ds (Dict l) key = bool_decide (is_Some (entry ds l key)).
Proof.
  unfold entry. cbn. by destruct (ds !! l) as [d|].
Qed.

Lemma first_holder_elem ds maps key l :
  first_holder ds maps key = Some l → Dict l ∈ maps.
Proof.
  induction maps as [|m maps IH]; cbn [first_holder]; [done|].
  destruct (link_has ds m key).
  - destruct m; [|done]. intros [= ->]. apply elem_of_cons; by left.
  - intros E. apply elem_of_cons; right. by apply IH.
Qed.

(** Two lists of dicts that agree, for a key, on the dicts of a chain give
    the chain the same binding for the key. *)
Lemma chain_lookup_agree ds ds' maps key :
  (∀ l, Dict l ∈ maps → entry ds' l key = entry ds l key) →
  chain_lookup ds' maps key = chain_lookup ds maps key.
Proof.
  intros Hagree.
  assert (first_holder ds' maps key = first_holder ds maps key) as Hfh.
  { induction maps as [|m maps IH]; cbn [first_holder]; [done|].
    assert (link_has ds' m key = link_has ds m key) as ->.
    { destruct m as [l|g]; [|done].
      rewrite !link_has_entry, Hagree; [done|]. apply elem_of_cons; by left. }
    rewrite IH; [done|]. intros l Hl. apply Hagree. apply elem_of_cons; by right. }
  unfold chain_lookup. rewrite Hfh.
  destruct (first_holder ds maps key) as [l|] eqn:E; [|done]. cbn.
  exact (Hagree l (first_holder_elem _ _ _ _ E)).
Qed.

Lemma entry_alter_other ds l l' key key' value :
  key' ≠ key →
  entry (alter (insert key value) l ds) l' key' = entry ds l' key'.
Proof.
  intros Hne. unfold entry. destruct (decide (l = l')) as [->|Hl].
  - rewrite list_lookup_alter_eq. destruct (ds !! l') as [d|]; cbn; [|done].
    by rewrite lookup_insert_ne.
  - by rewrite list_lookup_alter_ne.
Qed.

Lemma entry_alter_outside ds l l' key (f : gmap K V → gmap K V) :
  l ≠ l' → entry (alter f l ds) l' key = entry ds l' key.
Proof. intros Hl. unfold entry. by rewrite list_lookup_alter_ne. Qed.

Lemma entry_app ds ds' l key :
  l < length ds → entry (ds ++ ds') l key = entry ds l key.
Proof. intros Hl. unfold entry. by rewrite lookup_app_l. Qed.

Lemma getitem_agree maps key st st' :
  (∀ l, Dict l ∈ maps → entry (dicts st') l key = entry (dicts st) l key) →
  fst (getitem maps key st') = fst (getitem maps key st).
Proof.
  intros Hagree. rewrite !getitem_chain_lookup.
  by rewrite (chain_lookup_agree (dicts st) (dicts st')).
Qed.

Lemma chain_lookup_first ds before l after key d v :
  (∀ m, m ∈ before → link_has ds m key = false) →
  ds !! l = Some d → d !! key = Some v →
  chain_lookup ds (before ++ Dict l :: after) key = Some v.
Proof.
  intros Hb Hd Hv. unfold chain_lookup.
  assert (first_holder ds (before ++ Dict l :: after) key = Some l) as ->.
  { induction before as [|m before IH]; cbn [app first_holder].
    - cbn. rewrite Hd. cbn. rewrite bool_decide_eq_true_2; [done|]. eauto.
    - rewrite Hb by (apply elem_of_cons; by left). apply IH.
      intros m' Hm'. apply Hb. apply elem_of_cons; by right. }
  cbn. rewrite Hd. cbn. done.
Qed.

Lemma first_holder_None ds maps key :
  first_holder ds maps key = None ↔ ∀ m, m ∈ maps → link_has ds m key = false.
Proof.
  induction maps as [|m maps IH]; cbn [first_holder].
  - split; [|done]. intros _ m Hm. by apply elem_of_nil in Hm.
  - destruct (link_has ds m key) eqn:Hh.
    + split.
      * destruct m as [l|g]; [done|]. done.
      * intros Hall. rewrite Hall in Hh; [done|]. apply elem_of_cons; by left.
    + rewrite IH. split.
      * intros Hall m' Hm'. apply elem_of_cons in Hm' as [->|Hm']; [done|].
        by apply Hall.
      * intros Hall m' Hm'. apply Hall. apply elem_of_cons; by right.
Qed.

(** X2. [VariableScope.__getitem__] returns the entry of the first map of
    the chain that contains the key, and raises KeyError exactly when no
    map contains it.  It raises nothing else and changes no dict. *)
Theorem getitem_first_map maps key st :
  dicts (snd (getitem maps key st)) = dicts st
  ∧ (fst (getitem maps key st) = Raise KeyError
     ↔ ∀ m, m ∈ maps → link_has (dicts st) m key = false)
  ∧ (∀ before l after d v,
       maps = before ++ Dict l :: after →
       (∀ m, m ∈ before → link_has (dicts st) m key = false) →
       dicts st !! l = Some d → d !! key = Some v →
       fst (getitem maps key st) = Ok v)
  ∧ (fst (getitem maps key st) = Raise KeyError
     ∨ ∃ v, fst (getitem maps key st) = Ok v).
Proof.
  rewrite getitem_chain_lookup. split_and!.
  - apply getitem_dicts.
  - rewrite <- first_holder_None, <- chain_lookup_None.
    destruct (chain_lookup (dicts st) maps key); cbn; split; done.
  - intros before l after d v -> Hb Hd Hv.
    by rewrite (chain_lookup_first _ _ _ _ _ d v).
  - destruct (chain_lookup (dicts st) maps key); cbn; eauto.
Qed.

(** X3. Assignment and lookup.  In a chain whose innermost link is an
    allocated dict, [scope[key] = value] succeeds and [scope[key]] then
    returns the value.  The assignment changes what no chain at all reads
    for another key, and allocates nothing. *)
Theorem setitem_getitem maps key value st :
  head_allocated st maps →
  let st' := snd (setitem maps key value st) in
  fst (setitem maps key value st) = Ok tt
  ∧ fst (getitem maps key st') = Ok value
  ∧ (∀ other key', key' ≠ key →
       fst (getitem other key' st') = fst (getitem other key' st))
  ∧ length (dicts st') = length (dicts st).
Proof.
  intros (l0 & rest & -> & Hl0). cbv zeta.
  destruct (setitem_dicts l0 rest key value st) as [Hr Hd].
  split_and!.
  - exact Hr.
  - rewrite getitem_chain_lookup.
    by rewrite chain_lookup_after_setitem.
  - intros other key' Hne. apply getitem_agree. intros l _.
    rewrite Hd. by apply entry_alter_other.
  - rewrite Hd. apply length_alter.
Qed.

End ScopeMore.

Lemma setitem_getitem_witness :
  let st : store string nat := mkStore [∅; {["$x" := 1]}] [] in
  let scope := [Dict 0; Dict 1] in
  head_allocated st scope
  ∧ fst (getitem scope "$x" (snd (setitem scope "$x" 2 st))) = Ok 2
  ∧ fst (getitem scope "$x" (snd (setitem scope "$y" 3 st))) = Ok 1.
Proof.
  intros st scope.
  assert (head_allocated st scope) as Hwf.
  { exists 0, [Dict 1]. split; [done|]. cbn. lia. }
  split_and!; [exact Hwf| |].
  - exact (proj1 (proj2 (setitem_getitem scope "$x" 2 st Hwf))).
  - etrans.
    + refine (proj1 (proj2 (proj2 (setitem_getitem scope "$y" 3 st Hwf)))
                scope "$x" _).
      discriminate.
    + vm_compute. reflexivity.
Defined.

Section MaskFacts.
Context {K V : Type} `{Countable K}.
Implicit Types (st : store K V) (maps : VariableScope) (key k : K) (value : V).
Implicit Types (ds : list (gmap K V)) (m : link).
Local Open Scope nat_scope.

Lemma holders_agree ds ds' maps k :
  (∀ m, m ∈ maps → link_has ds' m k = link_has ds m k) →
  holders ds' maps k = holders ds maps k.
Proof.
  induction maps as [|m maps IH]; cbn [holders]; [done|]. intros Hall.
  rewrite Hall by (apply elem_of_cons; by left). rewrite IH; [done|].
  intros m' Hm'. apply Hall. apply elem_of_cons; by right.
Qed.

Lemma holders_none ds maps k :
  first_holder ds maps k = None → holders ds maps k = 0.
Proof.
  intros Hnone. induction maps as [|m maps IH]; cbn [holders]; [done|].
  cbn [first_holder] in Hnone. destruct (link_has ds m k) eqn:E.
  - destruct m as [l|g]; [done|]. done.
  - by rewrite IH.
Qed.

Lemma holders_some ds maps k l :
  first_holder ds maps k = Some l → 1 ≤ holders ds maps k.
Proof.
  induction maps as [|m maps IH]; cbn [holders first_holder]; [done|].
  destruct (link_has ds m k); [lia|]. intros E. specialize (IH E). lia.
Qed.

Lemma link_has_alter_other ds l m key k value :
  k ≠ key → link_has (alter (insert key value) l ds) m k = link_has ds m k.
Proof.
  intros Hne. destruct m as [l'|g]; [|done].
  by rewrite !link_has_entry, entry_alter_other.
Qed.

Lemma link_has_alter_holder ds l m key value :
  link_has ds (Dict l) key = true →
  link_has (alter (insert key value) l ds) m key = link_has ds m key.
Proof.
  intros Hl. destruct m as [l'|g]; [|done].
  destruct (decide (l = l')) as [<-|Hne]; [|by apply link_has_alter_ne].
  rewrite Hl. apply link_has_alter_eq.
  cbn in Hl. destruct (ds !! l) eqn:E; [|done]. by eapply lookup_lt_Some.
Qed.

Lemma first_holder_holds ds maps key l :
  first_holder ds maps key = Some l → link_has ds (Dict l) key = true.
Proof.
  intros E. destruct (first_holder_Some _ _ _ _ E) as (d & v & Hd & Hv).
  cbn. rewrite Hd. cbn. apply bool_decide_eq_true. eauto.
Qed.

(** X23. No masking.  In a chain of distinct links whose innermost link is
    an allocated dict and in which every key is contained in at most one
    link, an assignment through the chain keeps it so, and the assigned
    key is then contained in exactly one link.  A child made by
    [new_child] of such a chain, all of whose links are allocated, is
    again such a chain, with the same number of holders for every key. *)
Theorem setitem_never_masks maps key value st :
  head_allocated st maps → NoDup maps →
  (∀ k, holders (dicts st) maps k ≤ 1) →
  (let st' := snd (setitem maps key value st) in
   (∀ k, holders (dicts st') maps k ≤ 1)
   ∧ holders (dicts st') maps key = 1)
  ∧ (scope_wf st maps →
     let child := fst (new_child maps st) in
     let st1 := snd (new_child maps st) in
     head_allocated st1 child ∧ NoDup child ∧ scope_wf st1 child
     ∧ ∀ k, holders (dicts st1) child k = holders (dicts st) maps k).
Proof.
  intros (l0 & rest & -> & Hl0) Hnodup Hone. split.
  - cbv zeta. destruct (setitem_dicts l0 rest key value st) as [_ ->].
    assert (∀ k, k ≠ key →
              holders (alter (insert key value)
                         (default l0 (first_holder (dicts st) (Dict l0 :: rest) key))
                         (dicts st)) (Dict l0 :: rest) k
              = holders (dicts st) (Dict l0 :: rest) k) as Hother.
    { intros k Hne. apply holders_agree. intros m _.
      by apply link_has_alter_other. }
    assert (holders (alter (insert key value)
                       (default l0 (first_holder (dicts st) (Dict l0 :: rest) key))
                       (dicts st)) (Dict l0 :: rest) key = 1) as Hkey.
    { destruct (first_holder (dicts st) (Dict l0 :: rest) key) as [l|] eqn:E;
        cbn [default from_option id].
      - rewrite (holders_agree (dicts st)).
        + pose proof (holders_some _ _ _ _ E). specialize (Hone key). lia.
        + intros m _. apply link_has_alter_holder. by eapply first_holder_holds.
      - pose proof (proj1 (first_holder_None _ _ _) E) as Hnone.
        cbn [holders]. rewrite link_has_alter_eq by done.
        rewrite (holders_agree (dicts st)).
        + apply NoDup_cons in Hnodup as [Hnotin _].
          cbn [first_holder] in E.
          rewrite (Hnone (Dict l0)) in E by (apply elem_of_cons; by left).
          by rewrite (holders_none _ _ _ E).
        + intros m Hm. destruct m as [l'|g]; [|done].
          apply link_has_alter_ne. intros ->.
          apply NoDup_cons in Hnodup as [Hnotin _]. done. }
    split; [|exact Hkey].
    intros k. destruct (decide (k = key)) as [->|Hne].
    + by rewrite Hkey.
    + rewrite Hother by done. apply Hone.
  - intros Hwf. rewrite new_child_eq. cbn [fst snd].
    pose proof (scope_wf_dicts _ _ Hwf) as Hwf'.
    split_and!.
    + eexists _, _. split; [done|]. cbn. rewrite length_app. cbn. lia.
    + apply NoDup_cons. split; [|done].
      intros Hin. rewrite Forall_forall in Hwf'.
      specialize (Hwf' _ Hin _ eq_refl). lia.
    + constructor.
      * cbn. rewrite length_app. cbn. lia.
      * eapply Forall_impl; [exact Hwf|].
        intros [l|g] Hm; cbn in *; [|done]. rewrite length_app. lia.
    + intros k. cbn [dicts].
      change (holders (dicts st ++ [∅]) (Dict (length (dicts st)) :: Dict l0 :: rest) k)
        with ((if link_has (dicts st ++ [∅]) (Dict (length (dicts st))) k
               then 1 else 0)
              + holders (dicts st ++ [∅]) (Dict l0 :: rest) k).
      rewrite fresh_link_empty, Nat.add_0_l.
      apply holders_agree. intros m Hm. apply link_has_app.
      rewrite Forall_forall in Hwf'. by apply Hwf'.
Qed.

End MaskFacts.

Lemma setitem_never_masks_witness :
  let st : store string nat := mkStore [∅; {["$x" := 1]}] [] in
  let scope := [Dict 0; Dict 1] in
  head_allocated st scope ∧ NoDup scope
  ∧ (∀ k, holders (dicts st) scope k ≤ 1)%nat
  ∧ holders (dicts (snd (setitem scope "$x" 2 st))) scope "$x" = 1
  ∧ holders (dicts (snd (setitem scope "$y" 2 st))) scope "$y" = 1.
Proof.
  intros st scope.
  assert (head_allocated st scope) as Hhead.
  { exists 0, [Dict 1]. split; [done|]. cbn. lia. }
  assert (NoDup scope) as Hnodup.
  { apply NoDup_cons. split; [|apply NoDup_singleton].
    intros Hin. apply list_elem_of_singleton in Hin. discriminate Hin. }
  assert (∀ k, holders (dicts st) scope k ≤ 1)%nat as Hone.
  { intros k. cbn. rewrite lookup_empty.
    rewrite bool_decide_eq_false_2 by (by intros [? ?]).
    destruct (bool_decide _); cbn; lia. }
  split_and!; [exact Hhead|exact Hnodup|exact Hone| |].
  - exact (proj2 (proj1 (setitem_never_masks scope "$x" 2 st Hhead Hnodup Hone))).
  - exact (proj2 (proj1 (setitem_never_masks scope "$y" 2 st Hhead Hnodup Hone))).
Defined.

(** ** More on namespaces *)

(** X1. [normalize_var] gives a canonical spelling: the result has no
    underscore and the length of the name, it is a spelling of the name,
    normalising it again changes nothing, and a name without underscore is
    its own canonical spelling. *)
Theorem normalize_var_canonical (name : string) :
  str_find "_" (normalize_var name) = None
  ∧ String.length (normalize_var name) = String.length name
  ∧ hyphen_equiv name (normalize_var name) = true
  ∧ normalize_var (normalize_var name) = normalize_var name
  ∧ (str_find "_" name = None → normalize_var name = name).
Proof.
  assert (∀ c, Ascii.eqb (underscore_to_hyphen c) "_" = false) as Hno.
  { intros c. unfold underscore_to_hyphen.
    destruct (Ascii.eqb c "_") eqn:E; [done|exact E]. }
  assert (∀ c, underscore_to_hyphen (underscore_to_hyphen c) = underscore_to_hyphen c)
    as Hidem.
  { intros c. destruct (Ascii.eqb_spec c "_") as [->|Hne]; [done|].
    unfold underscore_to_hyphen. by rewrite !(proj2 (Ascii.eqb_neq c "_") Hne). }
  split_and!.
  - induction name as [|c s IH]; cbn [normalize_var str_find]; [done|].
    by rewrite Hno, IH.
  - induction name as [|c s IH]; cbn [normalize_var String.length]; [done|].
    by rewrite IH.
  - apply normalize_var_equiv.
    induction name as [|c s IH]; cbn [normalize_var]; [done|].
    by rewrite Hidem, <- IH.
  - induction name as [|c s IH]; cbn [normalize_var]; [done|].
    by rewrite Hidem, IH.
  - induction name as [|c s IH]; cbn [normalize_var str_find]; [done|].
    unfold underscore_to_hyphen. destruct (Ascii.eqb c "_"); [done|].
    destruct (str_find "_" s); [done|]. intros _. by rewrite IH.
Qed.

Section NamespaceReads.
Implicit Types (ns self : Namespace) (h : heap) (name : string) (v : pyobj).
Implicit Types (arity : option nat) (cb : callable) (chainmap : VariableScope).
Implicit Types (ds : list (gmap fkey callable)).

Lemma on_vars_eq {A} (f : store string pyobj → A * store string pyobj) h :
  on_vars f h = (fst (f (vars h)), mkHeap (snd (f (vars h))) (callables h)).
Proof. unfold on_vars. by destruct (f (vars h)). Qed.

Lemma on_callables_eq {A} (f : store fkey callable → A * store fkey callable) h :
  on_callables f h = (fst (f (callables h)), mkHeap (vars h) (snd (f (callables h)))).
Proof. unfold on_callables. by destruct (f (callables h)). Qed.

Lemma _get_callable_lookup chainmap name arity (st : store fkey callable) :
  fst (_get_callable chainmap name arity st)
  = callable_lookup (dicts st) chainmap name arity.
Proof.
  destruct arity as [a|]; cbn [callable_lookup].
  - apply _get_callable_chain_lookup.
  - unfold _get_callable. apply getitem_chain_lookup.
Qed.

Lemma callable_lookup_agree ds ds' chainmap chainmap' name arity :
  (∀ key, chain_lookup ds' chainmap' key = chain_lookup ds chainmap key) →
  callable_lookup ds' chainmap' name arity = callable_lookup ds chainmap name arity.
Proof. intros E. unfold callable_lookup. destruct arity; rewrite ?E; done. Qed.

(** A chain that starts with an empty dict reads as the rest of it, also
    after more dicts are allocated. *)
Lemma chain_lookup_child {K V : Type} `{Countable K}
  (ds extra : list (gmap K V)) (n : nat) (parent : VariableScope) (key : K) :
  Forall (λ m, ∀ l, m = Dict l → l < length ds) parent →
  (ds ++ extra) !! n = Some ∅ →
  chain_lookup (ds ++ extra) (Dict n :: parent) key = chain_lookup ds parent key.
Proof.
  intros Hwf Hn.
  assert (chain_lookup (ds ++ extra) parent key = chain_lookup ds parent key) as <-.
  { apply chain_lookup_agree. intros l Hl. apply entry_app.
    rewrite Forall_forall in Hwf. by apply (Hwf (Dict l)). }
  unfold chain_lookup. cbn [first_holder].
  assert (link_has (ds ++ extra) (Dict n) key = false) as ->; [|done].
  cbn. rewrite Hn. cbn. apply bool_decide_eq_false.
  rewrite lookup_empty. by intros [? ?].
Qed.

Lemma chain_lookup_extend {K V : Type} `{Countable K}
  (ds extra : list (gmap K V)) (parent : VariableScope) (key : K) :
  Forall (λ m, ∀ l, m = Dict l → l < length ds) parent →
  chain_lookup (ds ++ extra) parent key = chain_lookup ds parent key.
Proof.
  intros Hwf. apply chain_lookup_agree. intros l Hl. apply entry_app.
  rewrite Forall_forall in Hwf. by apply (Hwf (Dict l)).
Qed.

Lemma derive_eq self h :
  derive self h =
    (mkNamespace
       (Dict (S (length (dicts (vars h)))) :: _variables self)
       (Dict (S (S (length (dicts (callables h))))) :: _functions self)
       (Dict (S (S (S (length (dicts (callables h)))))) :: _mixins self),
     mkHeap
       (mkStore (dicts (vars h) ++ [∅; ∅]) (generators (vars h)))
       (mkStore (dicts (callables h) ++ [∅; ∅; ∅; ∅]) (generators (callables h)))).
Proof.
  unfold derive, derive_from, Namespace_init, new_child, VariableScope_init,
    on_vars, on_callables.
  cbn. rewrite !length_app. cbn. rewrite <- !app_assoc. cbn.
  repeat f_equal; lia.
Qed.

Lemma variable_lookup ns name h :
  fst (variable ns name h)
  = found_or_KeyError (chain_lookup (dicts (vars h)) (_variables ns) (normalize_var name)).
Proof. unfold variable. rewrite on_vars_eq. cbn [fst]. apply getitem_chain_lookup. Qed.

Lemma function_lookup ns name arity h :
  fst (function ns name arity h)
  = callable_lookup (dicts (callables h)) (_functions ns) name arity.
Proof. unfold function. rewrite on_callables_eq. apply _get_callable_lookup. Qed.

Lemma mixin_lookup ns name arity h :
  fst (mixin ns name arity h)
  = callable_lookup (dicts (callables h)) (_mixins ns) name arity.
Proof. unfold mixin. rewrite on_callables_eq. apply _get_callable_lookup. Qed.

(** X4. [Namespace.derive].  Right after [child = parent.derive()], the
    child reads every variable, function and mixin as the parent does,
    KeyError included, and the parent reads them as before. *)
Theorem derive_reads_parent self h name arity :
  scope_wf (vars h) (_variables self) →
  scope_wf (callables h) (_functions self) →
  scope_wf (callables h) (_mixins self) →
  let child := fst (derive self h) in
  let h' := snd (derive self h) in
  (fst (variable child name h') = fst (variable self name h)
   ∧ fst (function child name arity h') = fst (function self name arity h)
   ∧ fst (mixin child name arity h') = fst (mixin self name arity h))
  ∧ (fst (variable self name h') = fst (variable self name h)
     ∧ fst (function self name arity h') = fst (function self name arity h)
     ∧ fst (mixin self name arity h') = fst (mixin self name arity h)).
Proof.
  intros Hv Hf Hm. apply scope_wf_dicts in Hv, Hf, Hm.
  rewrite derive_eq. cbn [fst snd].
  rewrite !variable_lookup, !function_lookup, !mixin_lookup.
  cbn [_variables _functions _mixins vars callables dicts].
  split; split_and!.
  - rewrite chain_lookup_child; [done|done|].
    rewrite lookup_app_r by lia.
    by replace (S (length (dicts (vars h))) - length (dicts (vars h))) with 1 by lia.
  - apply callable_lookup_agree. intros key.
    rewrite chain_lookup_child; [done|done|].
    rewrite lookup_app_r by lia.
    by replace (S (S (length (dicts (callables h)))) - length (dicts (callables h)))
      with 2 by lia.
  - apply callable_lookup_agree. intros key.
    rewrite chain_lookup_child; [done|done|].
    rewrite lookup_app_r by lia.
    by replace (S (S (S (length (dicts (callables h))))) - length (dicts (callables h)))
      with 3 by lia.
  - by rewrite chain_lookup_extend.
  - apply callable_lookup_agree. intros key. by apply chain_lookup_extend.
  - apply callable_lookup_agree. intros key. by apply chain_lookup_extend.
Qed.

End NamespaceReads.

Lemma derive_reads_parent_witness :
  let self := Sample.parent_a in
  let h := Sample.library_heap in
  let child := fst (derive self h) in
  let h' := snd (derive self h) in
  scope_wf (vars h) (_variables self)
  ∧ scope_wf (callables h) (_functions self)
  ∧ scope_wf (callables h) (_mixins self)
  ∧ fst (variable child "$x" h') = fst (variable self "$x" h)
  ∧ fst (function child "rgba" (Some 4) h') = fst (function self "rgba" (Some 4) h).
Proof.
  intros self h child h'.
  assert (scope_wf (vars h) (_variables self)) as Hv.
  { repeat constructor. }
  assert (scope_wf (callables h) (_functions self)) as Hf.
  { repeat constructor. }
  assert (scope_wf (callables h) (_mixins self)) as Hm.
  { repeat constructor. }
  split_and!; [exact Hv|exact Hf|exact Hm| |].
  - exact (proj1 (proj1 (derive_reads_parent self h "$x" None Hv Hf Hm))).
  - exact (proj1 (proj2 (proj1 (derive_reads_parent self h "rgba" (Some 4) Hv Hf Hm)))).
Defined.

Section NamespaceWrites.
Implicit Types (ns self : Namespace) (h : heap) (name : string) (v : pyobj).
Implicit Types (arity : option nat) (cb : callable) (chainmap : VariableScope).

Lemma set_variable_accepted ns name v h :
  (∀ s, v = PyStr s → startswith_dollar s = false) →
  set_variable ns name v h
  = on_vars (setitem (_variables ns) (normalize_var name) v) h.
Proof.
  intros Hv. unfold set_variable. destruct v as [s|x]; [|done].
  by rewrite (Hv s eq_refl).
Qed.

(** X5. [set_variable] then [variable].  In a namespace whose variable
    chain starts with an allocated dict, binding a name to a Sass value, or
    to a raw text that does not start with a dollar sign, succeeds; the
    name then reads as that object under every spelling that differs only
    in hyphens against underscores; names that are not such spellings read
    as before through every namespace; functions and mixins are not
    touched.  A raw text that starts with a dollar sign fails the
    assertion and nothing is changed. *)
Theorem set_variable_then_variable ns name name' v h :
  variables_wf ns h → hyphen_equiv name name' = true →
  (∀ s, v = PyStr s → startswith_dollar s = false) →
  let h' := snd (set_variable ns name v h) in
  fst (set_variable ns name v h) = Ok tt
  ∧ fst (variable ns name' h') = Ok v
  ∧ (∀ other name'',
       hyphen_equiv name name'' = false →
       fst (variable other name'' h') = fst (variable other name'' h))
  ∧ callables h' = callables h
  ∧ (∀ s, startswith_dollar s = true →
       set_variable ns name (PyStr s) h = (Raise (OtherError "AssertionError"), h)).
Proof.
  intros (l0 & rest & Hmaps & Hl0) Heq Hv. cbv zeta.
  apply normalize_var_equiv in Heq.
  rewrite set_variable_accepted by done. rewrite on_vars_eq. cbn [fst snd].
  rewrite Hmaps.
  destruct (setitem_dicts l0 rest (normalize_var name) v (vars h)) as [Hr Hd].
  split_and!.
  - exact Hr.
  - rewrite variable_lookup. cbn [vars]. rewrite Hmaps, <- Heq.
    by rewrite chain_lookup_after_setitem.
  - intros other name'' Hne. rewrite !variable_lookup. cbn [vars].
    f_equal. apply chain_lookup_agree. intros l _. rewrite Hd.
    apply entry_alter_other. intros E. symmetry in E.
    apply normalize_var_equiv in E. congruence.
  - done.
  - intros s Hs. unfold set_variable. by rewrite Hs.
Qed.

Lemma _set_callable_then_get chainmap name name' arity cb
  (st : store fkey callable) :
  head_allocated st chainmap → hyphen_equiv name name' = true →
  let st' := snd (_set_callable chainmap name arity cb st) in
  fst (_set_callable chainmap name arity cb st) = Ok tt
  ∧ fst (_get_callable chainmap name' arity st') = Ok cb
  ∧ (arity = None →
     ∀ n, fst (_get_callable chainmap name' (Some n) st')
          = match chain_lookup (dicts st) chainmap (normalize_var name, Some n) with
            | Some f => Ok f
            | None => Ok cb
            end)
  ∧ (∀ other key, key ≠ (normalize_var name, arity) →
       chain_lookup (dicts st') other key = chain_lookup (dicts st) other key).
Proof.
  intros (l0 & rest & -> & Hl0) Heq. cbv zeta.
  apply normalize_var_equiv in Heq. unfold _set_callable.
  destruct (setitem_dicts l0 rest (normalize_var name, arity) cb st) as [Hr Hd].
  pose proof (chain_lookup_after_setitem l0 rest (normalize_var name, arity) cb st Hl0)
    as Hnew.
  assert (∀ other key, key ≠ (normalize_var name, arity) →
            chain_lookup
              (dicts (snd (setitem (Dict l0 :: rest) (normalize_var name, arity) cb st)))
              other key
            = chain_lookup (dicts st) other key) as Hframe.
  { intros other key Hne. apply chain_lookup_agree. intros l _. rewrite Hd.
    by apply entry_alter_other. }
  split_and!.
  - exact Hr.
  - rewrite _get_callable_lookup. unfold callable_lookup. rewrite <- Heq.
    destruct arity as [a|]; by rewrite Hnew.
  - intros -> n. rewrite _get_callable_lookup. unfold callable_lookup.
    rewrite <- Heq. rewrite Hframe by done. rewrite Hnew.
    by destruct (chain_lookup (dicts st) (Dict l0 :: rest) (normalize_var name, Some n)).
  - exact Hframe.
Qed.

(** X6. Registering and finding callables.  In a namespace whose function
    chain starts with an allocated dict, [set_function(name, arity, cb)]
    succeeds and [function] then returns [cb] for that arity under every
    spelling of the name that differs only in hyphens against underscores.
    A registration for any arity (None) is also what a lookup with an
    explicit arity returns, unless the chain has a registration for that
    very arity.  Variables are not touched.  The same holds of [set_mixin]
    and [mixin]. *)
Theorem set_function_then_function ns name name' arity cb h :
  head_allocated (callables h) (_functions ns) →
  head_allocated (callables h) (_mixins ns) →
  hyphen_equiv name name' = true →
  (let h' := snd (set_function ns name arity cb h) in
   fst (set_function ns name arity cb h) = Ok tt
   ∧ fst (function ns name' arity h') = Ok cb
   ∧ (arity = None →
      ∀ n, fst (function ns name' (Some n) h')
           = match chain_lookup (dicts (callables h)) (_functions ns)
                     (normalize_var name, Some n) with
             | Some f => Ok f
             | None => Ok cb
             end)
   ∧ vars h' = vars h)
  ∧ (let h' := snd (set_mixin ns name arity cb h) in
     fst (set_mixin ns name arity cb h) = Ok tt
     ∧ fst (mixin ns name' arity h') = Ok cb
     ∧ (arity = None →
        ∀ n, fst (mixin ns name' (Some n) h')
             = match chain_lookup (dicts (callables h)) (_mixins ns)
                       (normalize_var name, Some n) with
               | Some f => Ok f
               | None => Ok cb
               end)
     ∧ vars h' = vars h).
Proof.
  intros Hf Hm Heq. cbv zeta.
  unfold set_function, set_mixin, function, mixin.
  rewrite !on_callables_eq. cbn [fst snd callables vars].
  destruct (_set_callable_then_get (_functions ns) name name' arity cb
              (callables h) Hf Heq) as (F1 & F2 & F3 & _).
  destruct (_set_callable_then_get (_mixins ns) name name' arity cb
              (callables h) Hm Heq) as (M1 & M2 & M3 & _).
  split; split_and!; try done.
  - intros Ha n. rewrite on_callables_eq. cbn [fst]. by apply F3.
  - intros Ha n. rewrite on_callables_eq. cbn [fst]. by apply M3.
Qed.

Lemma Namespace_init_eq variables functions h :
  Namespace_init variables functions h =
    let nv := length (dicts (vars h)) in
    let nc := length (dicts (callables h)) in
    (mkNamespace
       (Dict nv :: match variables with Some l => [Dict l] | None => [] end)
       (Dict nc :: match functions with Some l => [Dict l] | None => [] end)
       [Dict (S nc)],
     mkHeap (mkStore (dicts (vars h) ++ [∅]) (generators (vars h)))
            (mkStore (dicts (callables h) ++ [∅; ∅]) (generators (callables h)))).
Proof.
  unfold Namespace_init, VariableScope_init, on_vars, on_callables. cbn.
  rewrite !length_app. cbn. rewrite <- !app_assoc. cbn.
  repeat f_equal; lia.
Qed.

End NamespaceWrites.

Lemma set_variable_then_variable_witness :
  let ns := Sample.parent_a in
  let h := Sample.parents_heap in
  let v := Sass (NumberValue 3 (Some "px")) in
  variables_wf ns h
  ∧ fst (variable ns "$border-top_width"
           (snd (set_variable ns "$border_top-width" v h))) = Ok v
  ∧ fst (variable ns "$x" (snd (set_variable ns "$border_top-width" v h)))
    = Ok (Sass (NumberValue 1 None)).
Proof.
  intros ns h v.
  assert (variables_wf ns h) as Hwf.
  { exists 0, []. split; [done|]. apply Nat.ltb_lt. reflexivity. }
  assert (∀ s, v = PyStr s → startswith_dollar s = false) as Hv by done.
  destruct (set_variable_then_variable ns "$border_top-width" "$border-top_width"
              v h Hwf eq_refl Hv) as (_ & Hread & Hframe & _).
  split_and!; [exact Hwf|exact Hread|].
  etrans; [exact (Hframe ns "$x" eq_refl)|]. vm_compute. reflexivity.
Defined.

Lemma set_function_then_function_witness :
  let ns := Sample.parent_a in
  let h := Sample.parents_heap in
  let cb := mkCallable "grid_width" 7 in
  head_allocated (callables h) (_functions ns)
  ∧ head_allocated (callables h) (_mixins ns)
  ∧ fst (function ns "grid-width" (Some 2)
           (snd (set_function ns "grid_width" None cb h))) = Ok cb.
Proof.
  intros ns h cb.
  assert (head_allocated (callables h) (_functions ns)) as Hf.
  { exists 0, []. split; [done|]. apply Nat.ltb_lt. reflexivity. }
  assert (head_allocated (callables h) (_mixins ns)) as Hm.
  { exists 1, []. split; [done|]. apply Nat.ltb_lt. reflexivity. }
  destruct (set_function_then_function ns "grid_width" "grid-width" None cb h
              Hf Hm eq_refl) as [(_ & _ & Hany & _) _].
  split_and!; [exact Hf|exact Hm|].
  etrans; [exact (Hany eq_refl 2)|]. vm_compute. reflexivity.
Defined.

Section NamespaceInit.
Implicit Types (ns self : Namespace) (h : heap) (name : string) (v : pyobj).
Implicit Types (arity : option nat) (cb : callable) (chainmap : VariableScope).

(** X7. A namespace made with a dict of variables reads that dict, and
    writes to it: a name the dict already binds is rebound in the dict
    itself, which the caller still holds; a new name goes to the own dict
    of the namespace and leaves the given one as it was.  Either way the
    namespace then reads the new object. *)
Theorem Namespace_init_shares_dict (l : nat) (d : gmap string pyobj)
  (functions : option nat) h name v :
  dicts (vars h) !! l = Some d →
  (∀ s, v = PyStr s → startswith_dollar s = false) →
  let ns := fst (Namespace_init (Some l) functions h) in
  let h0 := snd (Namespace_init (Some l) functions h) in
  let h1 := snd (set_variable ns name v h0) in
  fst (variable ns name h0) = found_or_KeyError (d !! normalize_var name)
  ∧ fst (variable ns name h1) = Ok v
  ∧ dicts (vars h1) !! l
    = Some (match d !! normalize_var name with
            | Some _ => <[normalize_var name := v]> d
            | None => d
            end).
Proof.
  intros Hd Hv. rewrite Namespace_init_eq. cbv zeta. cbn [fst snd].
  pose proof (lookup_lt_Some _ _ _ Hd) as Hl.
  set (n := length (dicts (vars h))).
  set (key := normalize_var name).
  set (ds := dicts (vars h) ++ [∅]).
  assert (ds !! l = Some d) as Hd' by (unfold ds; by rewrite lookup_app_l).
  assert (ds !! n = Some ∅) as Hn.
  { unfold ds, n. by rewrite lookup_app_r, Nat.sub_diag. }
  assert (link_has ds (Dict n) key = false) as Hfresh.
  { cbn. rewrite Hn. cbn. apply bool_decide_eq_false.
    rewrite lookup_empty. by intros [? ?]. }
  assert (first_holder ds [Dict n; Dict l] key
          = match d !! key with Some _ => Some l | None => None end) as Hfh.
  { cbn [first_holder]. rewrite Hfresh. cbn. rewrite Hd'. cbn.
    destruct (d !! key) as [x|].
    - rewrite bool_decide_eq_true_2; eauto.
    - rewrite bool_decide_eq_false_2; [done|]. by intros [? ?]. }
  rewrite set_variable_accepted by done. rewrite on_vars_eq.
  cbn [fst snd vars _variables].
  destruct (setitem_dicts n [Dict l] key v
              (mkStore ds (generators (vars h)))) as [_ Hset].
  cbn [dicts] in Hset. fold ds. split_and!.
  - rewrite variable_lookup. cbn [vars dicts _variables]. fold key ds.
    unfold chain_lookup. rewrite Hfh.
    destruct (d !! key) as [x|] eqn:E; [|done]. cbn. rewrite Hd'. cbn.
    by rewrite E.
  - rewrite variable_lookup. cbn [vars _variables]. fold key.
    rewrite chain_lookup_after_setitem; [done|].
    cbn. unfold ds. rewrite length_app. cbn. lia.
  - fold key. rewrite Hset, Hfh. destruct (d !! key) as [x|]; cbn [default from_option id].
    + rewrite list_lookup_alter_eq, Hd'. done.
    + rewrite list_lookup_alter_ne by (unfold n; lia). done.
Qed.

(** X8. Functions and mixins are separate tables.  In a namespace made by
    [Namespace(variables, functions)] every lookup of a mixin raises
    KeyError, whatever library was given; registering a mixin changes no
    lookup of a function, and registering a function changes no lookup of
    a mixin. *)
Theorem Namespace_init_tables (variables functions : option nat) h
  name arity cb name' arity' :
  (∀ l, functions = Some l → l < length (dicts (callables h))) →
  let ns := fst (Namespace_init variables functions h) in
  let h0 := snd (Namespace_init variables functions h) in
  fst (mixin ns name' arity' h0) = Raise KeyError
  ∧ fst (function ns name' arity' (snd (set_mixin ns name arity cb h0)))
    = fst (function ns name' arity' h0)
  ∧ fst (mixin ns name' arity' (snd (set_function ns name arity cb h0)))
    = fst (mixin ns name' arity' h0).
Proof.
  intros Hlib. rewrite Namespace_init_eq. cbv zeta. cbn [fst snd].
  set (n := length (dicts (callables h))).
  set (ds := dicts (callables h) ++ [∅; ∅]).
  assert (ds !! S n = Some ∅) as Hms.
  { unfold ds, n. rewrite lookup_app_r by lia.
    by replace (S (length (dicts (callables h))) - length (dicts (callables h)))
      with 1 by lia. }
  assert (∀ key, link_has ds (Dict (S n)) key = false) as Hfresh.
  { intros key. cbn. rewrite Hms. cbn.
    rewrite bool_decide_eq_false_2; [done|]. rewrite lookup_empty. by intros [? ?]. }
  set (fs := Dict n :: match functions with Some l => [Dict l] | None => [] end).
  assert (∀ l, Dict l ∈ fs → (l ≤ n)%nat) as Hfs.
  { intros l Hl. unfold fs in Hl.
    apply elem_of_cons in Hl as [[= ->]|Hl]; [lia|].
    destruct functions as [lib|]; [|by apply elem_of_nil in Hl].
    apply list_elem_of_singleton in Hl as [= ->]. specialize (Hlib lib eq_refl).
    fold n in Hlib. lia. }
  unfold set_mixin, set_function, _set_callable.
  rewrite !on_callables_eq. cbn [fst snd callables vars _mixins _functions].
  rewrite !function_lookup, !mixin_lookup.
  cbn [callables dicts _mixins _functions]. fold fs.
  destruct (setitem_dicts (S n) [] (normalize_var name, arity) cb
              (mkStore ds (generators (callables h)))) as [_ Hsm].
  destruct (setitem_dicts n (tail fs)
              (normalize_var name, arity) cb
              (mkStore ds (generators (callables h)))) as [_ Hsf].
  change (Dict n :: tail fs) with fs in Hsf.
  cbn [dicts] in Hsm, Hsf. fold ds. split_and!.
  - assert (∀ key, chain_lookup ds [Dict (S n)] key = None) as Hnone.
    { intros key. apply chain_lookup_None. cbn [first_holder]. by rewrite Hfresh. }
    unfold callable_lookup. destruct arity'; by rewrite !Hnone.
  - apply callable_lookup_agree. intros key. apply chain_lookup_agree.
    intros l Hl. rewrite Hsm.
    assert (first_holder ds [Dict (S n)] (normalize_var name, arity) = None) as ->.
    { cbn [first_holder]. by rewrite Hfresh. }
    cbn [default from_option id]. apply entry_alter_outside.
    specialize (Hfs l Hl). lia.
  - apply callable_lookup_agree. intros key. apply chain_lookup_agree.
    intros l Hl. rewrite Hsf.
    apply list_elem_of_singleton in Hl as [= ->].
    apply entry_alter_outside.
    destruct (first_holder ds fs (normalize_var name, arity)) as [l|] eqn:E;
      cbn [default from_option id]; [|lia].
    specialize (Hfs l (first_holder_elem _ _ _ _ E)). lia.
Qed.

End NamespaceInit.

Lemma Namespace_init_shares_dict_witness :
  let h := mkHeap (mkStore [{["$base" := Sass (NumberValue 1 None)]}] [])
                  (mkStore [] []) in
  let ns := fst (Namespace_init (Some 0) None h) in
  let h0 := snd (Namespace_init (Some 0) None h) in
  let two := Sass (NumberValue 2 None) in
  dicts (vars h) !! 0 = Some {["$base" := Sass (NumberValue 1 None)]}
  ∧ dicts (vars (snd (set_variable ns "$base" two h0))) !! 0
    = Some (<["$base" := two]> {["$base" := Sass (NumberValue 1 None)]})
  ∧ dicts (vars (snd (set_variable ns "$other" two h0))) !! 0
    = Some {["$base" := Sass (NumberValue 1 None)]}.
Proof.
  intros h ns h0 two.
  assert (dicts (vars h) !! 0 = Some {["$base" := Sass (NumberValue 1 None)]})
    as Hd by reflexivity.
  assert (∀ s, two = PyStr s → startswith_dollar s = false) as Hv by done.
  split_and!; [exact Hd| |].
  - exact (proj2 (proj2 (Namespace_init_shares_dict 0 _ None h "$base" two Hd Hv))).
  - exact (proj2 (proj2 (Namespace_init_shares_dict 0 _ None h "$other" two Hd Hv))).
Defined.

Lemma Namespace_init_tables_witness :
  let ns := Sample.parent_a in
  let h0 := snd (Namespace_init None None empty_heap) in
  let cb := mkCallable "clearfix" 5 in
  fst (function ns "clearfix" (Some 0) (snd (set_mixin ns "clearfix" (Some 0) cb h0)))
  = Raise KeyError
  ∧ fst (mixin ns "clearfix" (Some 0) (snd (set_mixin ns "clearfix" (Some 0) cb h0)))
    = Ok cb.
Proof.
  intros ns h0 cb.
  assert (∀ l : nat, None = Some l → l < length (dicts (callables empty_heap)))
    as Hlib by done.
  split.
  - etrans.
    + exact (proj1 (proj2 (Namespace_init_tables None None empty_heap
                             "clearfix" (Some 0) cb "clearfix" (Some 0) Hlib))).
    + vm_compute. reflexivity.
  - vm_compute. reflexivity.
Defined.

(** ** Block headers *)

Section HeaderFacts.
Implicit Types (s t prop d a : string) (c : ascii).

Lemma append_cons c s t : String.String c s +:+ t = String.String c (s +:+ t).
Proof. done. Qed.

Lemma append_nil_l s : EmptyString +:+ s = s.
Proof. done. Qed.

Lemma append_nil_r s : s +:+ EmptyString = s.
Proof. induction s as [|c s IH]; [done|]. by rewrite append_cons, IH. Qed.

Lemma append_assoc s t u : (s +:+ t) +:+ u = s +:+ (t +:+ u).
Proof. induction s as [|c s IH]; [done|]. by rewrite !append_cons, IH. Qed.

Lemma str_find_app_None c s t :
  str_find c s = None →
  str_find c (s +:+ t) = option_map (Nat.add (String.length s)) (str_find c t).
Proof.
  induction s as [|x s IH]; rewrite ?append_cons, ?append_nil_l; cbn.
  - intros _. by destruct (str_find c t).
  - destruct (Ascii.eqb x c); [done|].
    destruct (str_find c s); [done|]. intros _. rewrite IH by done.
    by destruct (str_find c t).
Qed.

Lemma str_find_app_Some c s t i :
  str_find c s = Some i → str_find c (s +:+ t) = Some i.
Proof.
  revert i. induction s as [|x s IH]; intros i; rewrite ?append_cons; cbn; [done|].
  destruct (Ascii.eqb x c); [done|].
  destruct (str_find c s) as [j|]; [|done]. intros [= <-].
  by rewrite (IH j).
Qed.

Lemma str_partition_found c s t :
  str_find c s = None →
  str_partition c (s +:+ String.String c t) = (s, String.String c EmptyString, t).
Proof.
  induction s as [|x s IH]; rewrite ?append_cons, ?append_nil_l; cbn.
  - by rewrite Ascii.eqb_refl.
  - destruct (Ascii.eqb x c); [done|].
    destruct (str_find c s); [done|]. intros _. by rewrite IH.
Qed.

Lemma str_partition_absent c s :
  str_find c s = None → str_partition c s = (s, EmptyString, EmptyString).
Proof.
  induction s as [|x s IH]; cbn; [done|].
  destruct (Ascii.eqb x c); [done|].
  destruct (str_find c s); [done|]. intros _. by rewrite IH.
Qed.

(** The text is cut at the first separator. *)
Lemma str_partition_spec c s :
  match str_find c s with
  | Some i =>
      ∃ before after,
        str_partition c s = (before, String.String c EmptyString, after)
        ∧ s = before +:+ String.String c after
        ∧ str_find c before = None ∧ String.length before = i
  | None => str_partition c s = (s, EmptyString, EmptyString)
  end.
Proof.
  induction s as [|x s IH]; cbn; [done|].
  destruct (Ascii.eqb_spec x c) as [->|Hne].
  - exists EmptyString, s. done.
  - destruct (str_find c s) as [i|]; cbn.
    + destruct IH as (before & after & -> & -> & Hb & <-).
      exists (String.String x before), after. rewrite append_cons. cbn.
      rewrite (proj2 (Ascii.eqb_neq x c) Hne), Hb. done.
    + by rewrite IH.
Qed.

Lemma str_lower_app s t : str_lower (s +:+ t) = str_lower s +:+ str_lower t.
Proof.
  induction s as [|x s IH]; [done|].
  rewrite append_cons. cbn [str_lower]. by rewrite append_cons, IH.
Qed.

Lemma lower_char_idem c : lower_char (lower_char c) = lower_char c.
Proof. by destruct c as [[] [] [] [] [] [] [] []]. Qed.

Lemma lower_char_fixed c x :
  x ∈ [" "; "@"; "+"; "="]%char → lower_char c = x → c = x.
Proof.
  intros Hx Hc. subst x.
  destruct c as [[] [] [] [] [] [] [] []]; vm_compute in Hx |- *;
    try reflexivity; exfalso;
    repeat (apply elem_of_cons in Hx as [Hx|Hx]; [discriminate Hx|]);
    by apply elem_of_nil in Hx.
Qed.

Lemma str_lower_idem s : str_lower (str_lower s) = str_lower s.
Proof. induction s as [|x s IH]; cbn; [done|]. by rewrite lower_char_idem, IH. Qed.

Lemma str_find_lower_space s :
  str_find " " (str_lower s) = str_find " " s.
Proof.
  induction s as [|x s IH]; cbn; [done|]. rewrite IH.
  destruct (Ascii.eqb_spec x " ") as [->|Hne]; [done|].
  destruct (Ascii.eqb_spec (lower_char x) " ") as [E|_]; [|done].
  apply (lower_char_fixed _ " "%char) in E; [done|set_solver].
Qed.

(** A prefix made of a word, a blank and more, against a text that begins
    with a word and a blank. *)
Lemma startswith_word p q s t :
  str_find " " p = None → str_find " " s = None →
  startswith (p +:+ String.String " " q) (s +:+ String.String " " t)
  = String.eqb p s && startswith q t.
Proof.
  revert s. induction p as [|x p IH]; intros [|y s];
    rewrite ?append_cons, ?append_nil_l;
    cbn [startswith str_find String.eqb].
  - intros _ _. by rewrite Ascii.eqb_refl.
  - intros _. destruct (Ascii.eqb_spec y " ") as [->|Hy]; [done|].
    intros _. by rewrite (proj2 (Ascii.eqb_neq " " y)) by done.
  - destruct (Ascii.eqb_spec x " ") as [->|Hx]; [done|]. done.
  - destruct (Ascii.eqb x " "); [done|]. destruct (Ascii.eqb y " "); [done|].
    destruct (str_find " " p) eqn:Ep; [done|].
    destruct (str_find " " s) eqn:Es; [done|]. intros _ _.
    rewrite IH by done. by rewrite andb_assoc.
Qed.

Lemma startswith_word_bare p q s :
  str_find " " s = None → startswith (p +:+ String.String " " q) s = false.
Proof.
  revert s. induction p as [|x p IH]; intros [|y s];
    rewrite ?append_cons, ?append_nil_l;
    cbn [startswith str_find]; try done.
  - destruct (Ascii.eqb_spec y " ") as [->|Hy]; [done|].
    intros _. by rewrite (proj2 (Ascii.eqb_neq " " y)) by done.
  - destruct (Ascii.eqb y " "); [done|].
    destruct (str_find " " s) eqn:Es; [done|]. intros _.
    rewrite IH by done. by rewrite andb_false_r.
Qed.

Lemma startswith_at d :
  startswith "@" d = true → ∃ d', d = String.String "@" d'.
Proof.
  destruct d as [|x d']; cbn [startswith]; [done|].
  destruct (Ascii.eqb_spec "@" x) as [<-|]; [eauto|done].
Qed.

(** *** Minor parsing of an at-rule *)

Lemma minor_parsing_bare d :
  startswith "@" d = true → str_find " " d = None →
  minor_parsing d = Ok (BlockAtRuleHeader (str_lower d) EmptyString).
Proof.
  intros Hat Hsp. unfold minor_parsing. rewrite Hat.
  assert (startswith "@else if " (str_lower d) = false) as ->.
  { apply (startswith_word_bare "@else" "if "). by rewrite str_find_lower_space. }
  by rewrite str_partition_absent.
Qed.

Lemma minor_parsing_argument d a :
  startswith "@" d = true → str_find " " d = None →
  ¬ (str_lower d = "@else" ∧ startswith "if " (str_lower a) = true) →
  minor_parsing (d +:+ " " +:+ a) = Ok (BlockAtRuleHeader (str_lower d) a).
Proof.
  intros Hat Hsp Helse. unfold minor_parsing.
  assert (startswith "@" (d +:+ " " +:+ a) = true) as ->
    by (destruct (startswith_at d Hat) as [d' ->]; done).
  assert (startswith "@else if " (str_lower (d +:+ " " +:+ a)) = false) as ->.
  { rewrite str_lower_app.
    assert (str_find " " (str_lower d) = None) as Hsp'
      by by rewrite str_find_lower_space.
    pose proof (startswith_word "@else" "if " (str_lower d) (str_lower a)
                  eq_refl Hsp') as E.
    etrans; [exact E|].
    destruct (String.eqb_spec "@else" (str_lower d)) as [E'|_]; [|done].
    destruct (startswith "if " (str_lower a)) eqn:Eif; [|done].
    exfalso. by apply Helse. }
  change (d +:+ " " +:+ a) with (d +:+ String.String " " a).
  by rewrite str_partition_found.
Qed.

Lemma minor_parsing_else_if e a :
  str_lower e = "@else if " →
  minor_parsing (e +:+ a) = Ok (BlockAtRuleHeader "@else if" a).
Proof.
  intros He.
  destruct e as [|c1 [|c2 [|c3 [|c4 [|c5 [|c6 [|c7 [|c8 [|c9 [|c10 e]]]]]]]]]];
    try discriminate He.
  injection He as H1 H2 H3 H4 H5 H6 H7 H8 H9.
  apply (lower_char_fixed _ "@"%char) in H1 as ->; [|set_solver].
  unfold minor_parsing. rewrite !append_cons, append_nil_l.
  cbn [startswith]. change (Ascii.eqb "@" "@") with true.
  cbn [andb str_lower startswith slice_from].
  rewrite H2, H3, H4, H5, H6, H7, H8, H9.
  reflexivity.
Qed.

(** *** Pre-processing *)

Lemma simple_preprocessing_at prop :
  startswith "@" prop = true → startswith "@prototype " prop = false →
  simple_preprocessing prop = prop.
Proof.
  intros Hat Hproto. unfold simple_preprocessing. rewrite Hproto.
  destruct (startswith_at prop Hat) as [d' ->]. done.
Qed.

Lemma replace_first_absent x y s :
  str_find x s = None → replace_first x y s = s.
Proof.
  induction s as [|c s IH]; cbn [str_find replace_first]; [done|].
  destruct (Ascii.eqb c x); [done|].
  destruct (str_find x s); [done|]. intros _. by rewrite IH.
Qed.

Lemma replace_first_found x y s t :
  str_find x s = None →
  replace_first x y (s +:+ String.String x t) = s +:+ String.String y t.
Proof.
  induction s as [|c s IH]; rewrite ?append_cons, ?append_nil_l;
    cbn [str_find replace_first].
  - by rewrite Ascii.eqb_refl.
  - destruct (Ascii.eqb c x); [done|].
    destruct (str_find x s); [done|]. intros _. by rewrite IH.
Qed.

Lemma str_find_found x s t :
  str_find x s = None →
  str_find x (s +:+ String.String x t) = Some (String.length s).
Proof.
  intros Hs. rewrite str_find_app_None by done.
  cbn [str_find]. rewrite Ascii.eqb_refl. cbn. by rewrite Nat.add_0_r.
Qed.

(** The [try] statement on a text whose first colon, if any, comes after
    a parenthesis: nothing changes. *)
Lemma include_arguments_unchanged s :
  (str_find ":" s = None
   ∨ ∃ i j, str_find ":" s = Some i ∧ str_find "(" s = Some j ∧ j < i) →
  include_arguments s = s.
Proof.
  unfold include_arguments, has_char. intros [Hc|(i & j & -> & -> & Hlt)].
  - rewrite Hc. rewrite replace_first_absent by done.
    by destruct (str_find "(" s).
  - cbv beta iota zeta delta [negb].
    by rewrite (proj2 (Nat.ltb_ge i j)) by lia.
Qed.

(** The [try] statement on a text whose first colon comes before any
    parenthesis: the colon becomes the opening parenthesis, and a closing
    one is added at the end. *)
Lemma include_arguments_colon s t :
  str_find ":" s = None → str_find "(" s = None →
  include_arguments (s +:+ ":" +:+ t) = s +:+ "(" +:+ t +:+ ")".
Proof.
  intros Hc Hp. unfold include_arguments, has_char.
  change (s +:+ ":" +:+ t) with (s +:+ String.String ":" t).
  rewrite (str_find_found ":" s t Hc).
  rewrite (str_find_app_None "(" s _ Hp). cbn [str_find].
  change (Ascii.eqb ":" "(") with false.
  rewrite (replace_first_found ":" "(" s t Hc).
  rewrite (str_find_found "(" s t Hp).
  assert (∀ rest : string, (s +:+ String.String "(" t) +:+ rest
                           = s +:+ "(" +:+ t +:+ rest) as Happ.
  { intros rest. by rewrite append_assoc. }
  destruct (str_find "(" t) as [k|]; cbv beta iota zeta delta [negb option_map].
  - rewrite (proj2 (Nat.ltb_lt _ _)) by lia. apply Happ.
  - apply Happ.
Qed.

Lemma str_find_include c rest :
  c = ":"%char ∨ c = "("%char →
  str_find c ("@include " +:+ rest) = option_map (Nat.add 9) (str_find c rest).
Proof. intros [->| ->]; by apply (str_find_app_None _ "@include "). Qed.

Lemma parse_include rest argument :
  include_arguments ("@include " +:+ rest) = "@include " +:+ argument →
  BlockHeader_parse ("+" +:+ rest)
  = Ok (BlockAtRuleHeader "@include" argument).
Proof.
  intros Hinc. unfold BlockHeader_parse, simple_preprocessing.
  change ("+" +:+ rest) with (String.String "+" rest).
  change (startswith "+" (String.String "+" rest)) with true.
  cbv beta iota. change (slice_from 1 (String.String "+" rest)) with rest.
  rewrite Hinc.
  by apply (minor_parsing_argument "@include" argument); [| |intros [? _]].
Qed.

(** X9. The shortcuts [=name] and [+name] are read as the at-rules
    [@mixin name] and [@include name].  The text after [=] is the argument
    as it stands.  The text after [+] is the argument as it stands when it
    has no colon, or a parenthesis before its first colon; when its first
    colon comes before any parenthesis, that colon becomes an opening
    parenthesis and a closing one is added at the end. *)
Theorem BlockHeader_parse_shortcuts (rest : string) :
  BlockHeader_parse ("=" +:+ rest) = Ok (BlockAtRuleHeader "@mixin" rest)
  ∧ ((str_find ":" rest = None
      ∨ ∃ i j, str_find ":" rest = Some i ∧ str_find "(" rest = Some j ∧ j < i) →
     BlockHeader_parse ("+" +:+ rest) = Ok (BlockAtRuleHeader "@include" rest))
  ∧ (∀ name args,
       rest = name +:+ ":" +:+ args →
       str_find ":" name = None → str_find "(" name = None →
       BlockHeader_parse ("+" +:+ rest)
       = Ok (BlockAtRuleHeader "@include" (name +:+ "(" +:+ args +:+ ")"))).
Proof.
  split_and!.
  - unfold BlockHeader_parse, simple_preprocessing.
    change ("=" +:+ rest) with (String.String "=" rest).
    change (startswith "+" (String.String "=" rest)) with false.
    change (startswith "=" (String.String "=" rest)) with true.
    cbv beta iota. change (slice_from 1 (String.String "=" rest)) with rest.
    by apply (minor_parsing_argument "@mixin" rest); [| |intros [? _]].
  - intros Hrest. apply parse_include.
    apply include_arguments_unchanged.
    rewrite !str_find_include by auto.
    destruct Hrest as [->|(i & j & -> & -> & Hlt)]; [by left|right].
    exists (9 + i), (9 + j). split_and!; [done|done|lia].
  - intros name args -> Hc Hp. apply parse_include.
    rewrite <- (append_assoc "@include " name (":" +:+ args)).
    rewrite include_arguments_colon.
    + by rewrite append_assoc.
    + by rewrite str_find_include, Hc by auto.
    + by rewrite str_find_include, Hp by auto.
Qed.

(** X10. At-rules, on ASCII text.  For a directive text [d] that starts
    with [@] and has no blank, and an ASCII text [a]: [d] alone is the header with the lower-cased directive and an
    empty argument; followed by a blank and [a] it is the header with the
    lower-cased directive and the argument [a] unchanged, with two
    exceptions.  After [@prototype] and a blank, the rest is parsed by the
    second part of the method alone.  [@else] followed by a blank, [if] and
    a blank, in any mix of cases, is the header of the directive [@else if]
    with what follows as its argument. *)
Theorem BlockHeader_parse_atrule (d a : string) :
  ascii_text d = true → ascii_text a = true →
  startswith "@" d = true → str_find " " d = None →
  BlockHeader_parse d = Ok (BlockAtRuleHeader (str_lower d) EmptyString)
  ∧ (d ≠ "@prototype" →
     ¬ (str_lower d = "@else" ∧ startswith "if " (str_lower a) = true) →
     BlockHeader_parse (d +:+ " " +:+ a) = Ok (BlockAtRuleHeader (str_lower d) a))
  ∧ (d = "@prototype" →
     BlockHeader_parse (d +:+ " " +:+ a) = minor_parsing a)
  ∧ (str_lower d = "@else" →
     ∀ i, str_lower i = "if " →
       BlockHeader_parse (d +:+ " " +:+ i +:+ a) = Ok (BlockAtRuleHeader "@else if" a)).
Proof.
  intros _ _ Hat Hsp.
  assert (∀ rest, d ≠ "@prototype" →
            simple_preprocessing (d +:+ " " +:+ rest) = d +:+ " " +:+ rest) as Hpre.
  { intros rest Hproto. apply simple_preprocessing_at.
    - destruct (startswith_at d Hat) as [d' ->]. done.
    - pose proof (startswith_word "@prototype" EmptyString d rest eq_refl Hsp) as E.
      etrans; [exact E|].
      destruct (String.eqb_spec "@prototype" d) as [<-|_]; done. }
  split_and!.
  - unfold BlockHeader_parse. rewrite simple_preprocessing_at; [|done|].
    + by apply minor_parsing_bare.
    + exact (startswith_word_bare "@prototype" EmptyString d Hsp).
  - intros Hproto Helse. unfold BlockHeader_parse. rewrite Hpre by done.
    by apply minor_parsing_argument.
  - intros ->. reflexivity.
  - intros Hd i Hi. unfold BlockHeader_parse. rewrite Hpre.
    + rewrite <- (append_assoc " " i a), <- (append_assoc d (" " +:+ i) a).
      apply minor_parsing_else_if.
      by rewrite !str_lower_app, Hd, Hi.
    + intros ->. discriminate Hd.
Qed.

Lemma BlockHeader_parse_atrule_witness :
  let d := "@Media" in
  let a := "screen and (max-width: 100PX)" in
  ascii_text d = true ∧ ascii_text a = true
  ∧ startswith "@" d = true ∧ str_find " " d = None
  ∧ BlockHeader_parse (d +:+ " " +:+ a) = Ok (BlockAtRuleHeader "@media" a).
Proof.
  intros d a.
  assert (ascii_text d = true) as Hd by reflexivity.
  assert (ascii_text a = true) as Ha by reflexivity.
  assert (startswith "@" d = true) as Hat by reflexivity.
  assert (str_find " " d = None) as Hsp by reflexivity.
  split_and!; [exact Hd|exact Ha|exact Hat|exact Hsp|].
  refine (proj1 (proj2 (BlockHeader_parse_atrule d a Hd Ha Hat Hsp)) _ _).
  - discriminate.
  - intros [E _]. discriminate E.
Defined.

Lemma render_argument d a :
  a ≠ EmptyString → BlockAtRuleHeader_render d a = d +:+ " " +:+ a.
Proof. by destruct a. Qed.

(** X11. On ASCII text, parsing an at-rule and rendering the header gives
    the text back, when the directive is in lower case and the argument is
    not empty;
    for [@else] the argument must moreover not start with [if] and a blank
    in any mix of cases, but [@else if] in lower case followed by a blank
    and an argument that is not empty is given back.  A directive alone is
    given back as well; a directive followed by a single blank loses the
    blank. *)
Theorem BlockAtRuleHeader_render_parse (d a : string) :
  ascii_text d = true → ascii_text a = true →
  startswith "@" d = true → str_find " " d = None →
  str_lower d = d → d ≠ "@prototype" →
  rendered d = Some d
  ∧ rendered (d +:+ " ") = Some d
  ∧ (a ≠ EmptyString →
     (d ≠ "@else" ∨ startswith "if " (str_lower a) = false →
      rendered (d +:+ " " +:+ a) = Some (d +:+ " " +:+ a))
     ∧ rendered ("@else if " +:+ a) = Some ("@else if " +:+ a)).
Proof.
  intros _ _ Hat Hsp Hlow Hproto.
  assert (∀ rest, simple_preprocessing (d +:+ " " +:+ rest) = d +:+ " " +:+ rest)
    as Hpre.
  { intros rest. apply simple_preprocessing_at.
    - destruct (startswith_at d Hat) as [d' ->]. done.
    - pose proof (startswith_word "@prototype" EmptyString d rest eq_refl Hsp) as E.
      etrans; [exact E|].
      destruct (String.eqb_spec "@prototype" d) as [<-|_]; done. }
  unfold rendered, BlockHeader_parse. split_and!.
  - rewrite simple_preprocessing_at; [|done|].
    + rewrite minor_parsing_bare by done. by rewrite Hlow.
    + exact (startswith_word_bare "@prototype" EmptyString d Hsp).
  - change (d +:+ " ") with (d +:+ " " +:+ EmptyString). rewrite Hpre.
    rewrite minor_parsing_argument; [by rewrite Hlow|done|done|].
    intros [_ E]. discriminate E.
  - intros Ha. split.
    + intros Helse. rewrite Hpre.
      rewrite minor_parsing_argument; [|done|done|].
      * by rewrite Hlow, render_argument.
      * rewrite Hlow. intros [E1 E2]. destruct Helse as [Hne|Hif]; congruence.
    + rewrite (simple_preprocessing_at ("@else if " +:+ a)) by done.
      rewrite (minor_parsing_else_if "@else if " a) by done.
      by rewrite render_argument.
Qed.

Lemma BlockAtRuleHeader_render_parse_witness :
  let d := "@media" in
  let a := "screen" in
  ascii_text d = true ∧ ascii_text a = true
  ∧ startswith "@" d = true ∧ str_find " " d = None ∧ str_lower d = d
  ∧ d ≠ "@prototype"
  ∧ rendered (d +:+ " " +:+ a) = Some (d +:+ " " +:+ a)
  ∧ rendered (d +:+ " ") = Some d.
Proof.
  intros d a.
  assert (ascii_text d = true) as Hd by reflexivity.
  assert (ascii_text a = true) as Ha by reflexivity.
  assert (startswith "@" d = true) as Hat by reflexivity.
  assert (str_find " " d = None) as Hsp by reflexivity.
  assert (str_lower d = d) as Hlow by reflexivity.
  assert (d ≠ "@prototype") as Hproto by discriminate.
  destruct (BlockAtRuleHeader_render_parse d a Hd Ha Hat Hsp Hlow Hproto)
    as (_ & Hblank & Harg).
  split_and!;
    [exact Hd|exact Ha|exact Hat|exact Hsp|exact Hlow|exact Hproto| |exact Hblank].
  apply Harg; [discriminate|]. left. discriminate.
Defined.

End HeaderFacts.

Section HeaderKinds.
Implicit Types (s t prop d a : string) (c : ascii).

Lemma endswith_find c s : endswith c s = true → is_Some (str_find c s).
Proof.
  induction s as [|x s IH]; cbn [endswith str_find]; [done|].
  destruct (Ascii.eqb x c) eqn:E; [by destruct s; eauto|].
  destruct s as [|y s]; [done|]. intros Hs.
  destruct (IH Hs) as [i ->]. cbn. eauto.
Qed.

Lemma str_in_colon_blank s : str_in ": " s = true → is_Some (str_find ":" s).
Proof.
  unfold str_in.
  induction s as [|x s IH]; cbn [String.index String.prefix str_find]; [done|].
  destruct (Ascii.eqb_spec x ":") as [->|Hx]; [eauto|].
  destruct (ascii_dec ":" x) as [<-|_]; [done|].
  destruct (String.index 0 ": " s); [|done].
  intros _. destruct IH as [i ->]; [done|]. cbn. eauto.
Qed.

Lemma str_in_found s t :
  str_in ": " (s +:+ String.String ":" (String.String " " t)) = true.
Proof.
  unfold str_in.
  induction s as [|x s IH]; rewrite ?append_cons, ?append_nil_l.
  - cbn [String.index String.prefix].
    destruct (ascii_dec ":" ":") as [_|]; [|done].
    destruct (ascii_dec " " " ") as [_|]; [|done]. by destruct t.
  - cbn [String.index].
    destruct (String.prefix _ _); [done|].
    by destruct (String.index 0 _ _).
Qed.

Lemma str_split1_found c s :
  is_Some (str_find c s) →
  ∃ before after,
    str_split1 c s = [before; after]
    ∧ s = before +:+ String.String c after ∧ str_find c before = None.
Proof.
  intros [i Hi]. pose proof (str_partition_spec c s) as Hp. rewrite Hi in Hp.
  destruct Hp as (before & after & Hp & Hs & Hb & _).
  exists before, after. unfold str_split1. by rewrite Hp.
Qed.

Lemma str_split1_at c s t :
  str_find c s = None → str_split1 c (s +:+ String.String c t) = [s; t].
Proof. intros Hs. unfold str_split1. by rewrite str_partition_found. Qed.

Lemma rstrip_cons x s :
  rstrip (String.String x s)
  = match rstrip s with
    | EmptyString => if is_space x then EmptyString else String.String x EmptyString
    | rest => String.String x rest
    end.
Proof. done. Qed.

Lemma rstrip_idem s : rstrip (rstrip s) = rstrip s.
Proof.
  induction s as [|x s IH]; [done|]. rewrite rstrip_cons.
  destruct (rstrip s) as [|y r] eqn:E.
  - destruct (is_space x) eqn:Ex; [done|].
    rewrite rstrip_cons. cbn [rstrip]. by rewrite Ex.
  - by rewrite rstrip_cons, IH.
Qed.

Lemma rstrip_prefix s : ∃ t, s = rstrip s +:+ t.
Proof.
  induction s as [|x s [t IH]]; [by exists EmptyString|]. rewrite rstrip_cons.
  destruct (rstrip s) as [|y r] eqn:E.
  - destruct (is_space x).
    + by exists (String.String x s).
    + exists s. done.
  - exists t. rewrite append_cons. by rewrite <- IH.
Qed.

Lemma str_find_rstrip c s : str_find c s = None → str_find c (rstrip s) = None.
Proof.
  intros Hs. destruct (rstrip_prefix s) as [t Ht].
  destruct (str_find c (rstrip s)) as [i|] eqn:E; [|done].
  apply (str_find_app_Some _ _ t) in E. rewrite <- Ht in E. congruence.
Qed.

Lemma lstrip_idem s : lstrip (lstrip s) = lstrip s.
Proof.
  induction s as [|x s IH]; cbn [lstrip]; [done|].
  destruct (is_space x) eqn:Ex; [done|]. cbn [lstrip]. by rewrite Ex.
Qed.

Lemma startswith_app_slice p q s :
  startswith p s = true →
  startswith (p +:+ q) s = startswith q (slice_from (String.length p) s).
Proof.
  revert s. induction p as [|x p IH]; intros s;
    rewrite ?append_cons, ?append_nil_l; [done|].
  destruct s as [|y s]; cbn [startswith String.length slice_from]; [done|].
  destruct (Ascii.eqb x y); [|done]. cbn [andb]. apply IH.
Qed.

Lemma include_arguments_at s :
  startswith "@" (include_arguments (String.String "@" s)) = true.
Proof.
  unfold include_arguments.
  destruct (if negb (has_char "(" (String.String "@" s)) then Ok true
            else match str_find ":" (String.String "@" s) with
                 | Some i =>
                     match str_find "(" (String.String "@" s) with
                     | Some j => Ok (i <? j)%nat
                     | None => Raise ValueError
                     end
                 | None => Raise ValueError
                 end) as [[]| |]; try done.
  cbn [replace_first]. change (Ascii.eqb "@" ":") with false. cbv iota.
  by destruct (has_char "(" _).
Qed.

(** The second part always returns a header; it is an at-rule exactly for
    a text that starts with [@]. *)
Lemma minor_parsing_total prop :
  ∃ h, minor_parsing prop = Ok h ∧ is_atrule h = startswith "@" prop.
Proof.
  unfold minor_parsing. destruct (startswith "@" prop) eqn:Hat.
  - destruct (startswith "@else if " (str_lower prop)); [eauto|].
    destruct (str_partition " " prop) as [[directive found] argument]. eauto.
  - destruct (endswith ":" prop || str_in ": " prop) eqn:Hscope; [|eauto].
    assert (is_Some (str_find ":" prop)) as Hfound.
    { apply orb_true_iff in Hscope as [Hend|Hin];
        [by apply endswith_find|by apply str_in_colon_blank]. }
    destruct (str_split1_found ":" prop Hfound) as (before & after & -> & _).
    unfold BlockScopeHeader_init. eauto.
Qed.

(** X12. [BlockHeader.parse] returns a header for every text: the unpacking
    of the split never fails.  The header is an at-rule exactly when the
    text starts with [+] or [=], with [@prototype] followed by a blank and
    [@], or with [@] but not with [@prototype] and a blank. *)
Theorem BlockHeader_parse_total (prop : string) :
  ∃ h, BlockHeader_parse prop = Ok h
       ∧ (is_atrule h = true ↔
          startswith "+" prop = true ∨ startswith "=" prop = true
          ∨ (startswith "@" prop = true
             ∧ (startswith "@prototype " prop = true →
                startswith "@prototype @" prop = true))).
Proof.
  unfold BlockHeader_parse.
  destruct (minor_parsing_total (simple_preprocessing prop)) as (h & Hh & Hat).
  exists h. split; [exact Hh|]. rewrite Hat. clear h Hh Hat.
  unfold simple_preprocessing.
  destruct (startswith "+" prop) eqn:Hplus.
  { change ("@include " +:+ slice_from 1 prop)
      with (String.String "@" ("include " +:+ slice_from 1 prop)).
    rewrite include_arguments_at. by split; [left|]. }
  destruct (startswith "=" prop) eqn:Heq.
  { split; [by right; left|done]. }
  destruct (startswith "@prototype " prop) eqn:Hproto.
  - pose proof (startswith_app_slice "@prototype " "@" prop Hproto) as E.
    change ("@prototype " +:+ "@") with "@prototype @" in E.
    change (String.length "@prototype ") with 11 in E. rewrite <- E.
    assert (startswith "@" prop = true) as Hat.
    { destruct prop as [|x prop]; [done|]. cbn [startswith] in Hproto |- *.
      destruct (Ascii.eqb "@" x); done. }
    split.
    + intros Hp. right; right. done.
    + intros [?|[?|[_ Hp]]]; [done|done|by apply Hp].
  - split.
    + intros Hat. right; right. done.
    + intros [?|[?|[Hat _]]]; done.
Qed.

Lemma startswith_char_app c s t x :
  Ascii.eqb c x = false →
  startswith (String.String c EmptyString) (s +:+ String.String x t)
  = startswith (String.String c EmptyString) s.
Proof.
  intros Hne. destruct s as [|y s]; rewrite ?append_cons, ?append_nil_l;
    cbn [startswith]; [|done]. by rewrite Hne.
Qed.

Lemma minor_parsing_scope prop s v :
  minor_parsing prop = Ok (BlockScopeHeader s v) →
  ∃ before after,
    prop = before +:+ ":" +:+ after ∧ str_find ":" before = None
    ∧ s = rstrip before
    ∧ v = match lstrip after with
          | EmptyString => None
          | _ => Some (lstrip after)
          end.
Proof.
  unfold minor_parsing. destruct (startswith "@" prop).
  { destruct (startswith "@else if " (str_lower prop)); [done|].
    by destruct (str_partition " " prop) as [[directive found] argument]. }
  destruct (endswith ":" prop || str_in ": " prop) eqn:Hscope; [|done].
  assert (is_Some (str_find ":" prop)) as Hfound.
  { apply orb_true_iff in Hscope as [Hend|Hin];
      [by apply endswith_find|by apply str_in_colon_blank]. }
  destruct (str_split1_found ":" prop Hfound) as (before & after & -> & -> & Hb).
  unfold BlockScopeHeader_init. intros [= <- <-]. exists before, after. done.
Qed.

(** X13. Scope headers, on ASCII text without the separators 28 to 31.
    When the result is a scope header, the scope has no colon and no white
    space at its end, and the value is either None or a text that is not
    empty and has no white space at its start: they are the two sides of
    the first colon of the pre-processed text, stripped.  In particular a
    name without colon followed by a colon is a scope without value, and
    followed by a colon, a blank and a text it is the scope of that text. *)
Theorem BlockHeader_parse_scope (prop : string) :
  plain_text prop = true →
  (∀ scope unscoped_value,
     BlockHeader_parse prop = Ok (BlockScopeHeader scope unscoped_value) →
     str_find ":" scope = None ∧ rstrip scope = scope
     ∧ match unscoped_value with
       | Some text => text ≠ EmptyString ∧ lstrip text = text
       | None => True
       end
     ∧ ∃ before after,
         simple_preprocessing prop = before +:+ ":" +:+ after
         ∧ scope = rstrip before
         ∧ default EmptyString unscoped_value = lstrip after)
  ∧ (str_find ":" prop = None →
     startswith "@" prop = false → startswith "+" prop = false →
     startswith "=" prop = false →
     BlockHeader_parse (prop +:+ ":") = Ok (BlockScopeHeader (rstrip prop) None)
     ∧ ∀ text,
         plain_text text = true →
         BlockHeader_parse (prop +:+ ": " +:+ text)
         = Ok (BlockScopeHeader_init (rstrip prop) (lstrip text))).
Proof.
  intros _. split.
  - intros scope unscoped_value Hparse.
    apply minor_parsing_scope in Hparse
      as (before & after & Hprop & Hb & -> & ->).
    split_and!.
    + by apply str_find_rstrip.
    + apply rstrip_idem.
    + destruct (lstrip after) eqn:E; [done|]. split; [done|].
      rewrite <- E. apply lstrip_idem.
    + exists before, after. split_and!; [done|done|].
      by destruct (lstrip after).
  - intros Hc Hat Hplus Heq.
    assert (∀ rest, simple_preprocessing (prop +:+ String.String ":" rest)
                    = prop +:+ String.String ":" rest) as Hpre.
    { intros rest. unfold simple_preprocessing.
      rewrite !startswith_char_app, Hplus, Heq by done.
      destruct (startswith "@prototype " _) eqn:E; [|done].
      assert (startswith "@" (prop +:+ String.String ":" rest) = true) as E'.
      { destruct (prop +:+ String.String ":" rest) as [|x r]; [done|].
        cbn [startswith] in E |- *. destruct (Ascii.eqb "@" x); done. }
      rewrite startswith_char_app in E' by done. congruence. }
    assert (∀ rest, startswith "@" (prop +:+ String.String ":" rest) = false)
      as Hat'.
    { intros rest. by rewrite startswith_char_app. }
    unfold BlockHeader_parse. split.
    + change (prop +:+ ":") with (prop +:+ String.String ":" EmptyString).
      rewrite Hpre. unfold minor_parsing. rewrite Hat'.
      assert (endswith ":" (prop +:+ String.String ":" EmptyString) = true) as ->.
      { clear. induction prop as [|x s IH]; [done|].
        rewrite append_cons. cbn [endswith].
        destruct (s +:+ String.String ":" EmptyString) eqn:E; [|done].
        by destruct s. }
      cbn [orb]. by rewrite str_split1_at.
    + intros text _.
      change (prop +:+ ": " +:+ text)
        with (prop +:+ String.String ":" (String.String " " text)).
      rewrite Hpre. unfold minor_parsing. rewrite Hat'.
      assert (str_in ": " (prop +:+ String.String ":" (String.String " " text))
              = true) as -> by apply str_in_found.
      rewrite orb_true_r. by rewrite str_split1_at.
Qed.

Lemma BlockHeader_parse_scope_witness :
  plain_text "font" = true ∧ plain_text "12px" = true
  ∧ BlockHeader_parse ("font" +:+ ": " +:+ "12px")
    = Ok (BlockScopeHeader "font" (Some "12px")).
Proof.
  assert (plain_text "font" = true) as Hprop by reflexivity.
  assert (plain_text "12px" = true) as Htext by reflexivity.
  split_and!; [exact Hprop|exact Htext|].
  exact (proj2 (proj2 (BlockHeader_parse_scope "font" Hprop)
                  eq_refl eq_refl eq_refl eq_refl) "12px" Htext).
Defined.

End HeaderKinds.

(** ** More on the evaluation of the AST *)

Section EvalMore.
Context {H : Type} (X : Externals H).
Context (parse : string → outcome Expression) (calculator : Calculator).
Implicit Types (m : machine H) (e : Expression) (d : bool) (l r : value).

Local Abbreviation Div l r := (BinaryOp operator.truediv (Literal l) (Literal r)).

Lemma variable_hyphen_equiv ns name name' h :
  hyphen_equiv name name' = true → variable ns name' h = variable ns name h.
Proof.
  intros Heq. apply normalize_var_equiv in Heq. unfold variable. by rewrite Heq.
Qed.

(** X14. A Variable node does not depend on the spelling of hyphens and
    underscores in its name, nor, when the variable holds a Sass value, on
    the [divide] flag: after [set_variable(name, v)] with a Sass value, the
    node for any spelling of the name evaluates to [v]. *)
Theorem Variable_spelling n name name' d m :
  hyphen_equiv name name' = true →
  evaluate X parse n calculator (Variable_ name') d m
  = evaluate X parse n calculator (Variable_ name) d m
  ∧ (∀ (v : value),
       variables_wf (namespace calculator) (mheap m) →
       let h' := snd (set_variable (namespace calculator) name (Sass v) (mheap m)) in
       fst (evaluate X parse (S n) calculator (Variable_ name') d (with_heap h' m))
       = Ok (Sass v)).
Proof.
  intros Heq. split.
  - destruct n as [|n]; [done|]. cbn [evaluate].
    apply bind_ext; [|done]. unfold lift_heap.
    by rewrite (variable_hyphen_equiv _ name name').
  - intros v Hwf h'. cbn [evaluate].
    destruct (variable_after_set_variable (namespace calculator) name v (mheap m) Hwf)
      as [_ Hread].
    specialize (Hread h' eq_refl). rewrite <- (variable_hyphen_equiv _ _ name') in Hread
      by done.
    unfold bind, lift_heap. cbn [mheap with_heap].
    destruct (variable (namespace calculator) name' h') as [o h''].
    cbn [fst] in Hread. subst o. done.
Qed.

(** X15. A list hands its own [divide] flag to its items, which no other
    node does.  A ListLiteral returns normally exactly when its items,
    evaluated in order with the flag of the list, all return normally; the
    result is the list of their results, with a comma as separator or
    none.  So a division of two literals that is an item of a list
    evaluated without the flag stays a slash, and in a parenthesised list
    it is divided. *)
Theorem ListLiteral_divide n items (comma : bool) d m :
  (∀ result m',
     evaluate X parse (S n) calculator (ListLiteral items comma) d m = (Ok result, m')
     ↔ ∃ os, runs (λ e, evaluate X parse n calculator e d) items m os m'
             ∧ result = Sass (ListValue os (if comma then "," else EmptyString)))
  ∧ (∀ l r,
       evaluate X parse (S (S (S n))) calculator (ListLiteral [Div l r] comma) false m
       = (Ok (Sass (ListValue
                      [Sass (String (render X l +:+ " / " +:+ render X r) None)]
                      (if comma then "," else EmptyString))), m)
       ∧ ∀ q,
           apply_binary X operator.truediv (Sass l) (Sass r) = Ok q →
           evaluate X parse (S (S (S (S n)))) calculator
             (Parentheses (ListLiteral [Div l r] comma)) d m
           = (Ok (Sass (ListValue [q] (if comma then "," else EmptyString))), m)).
Proof.
  split.
  - intros result m'. cbn [evaluate]. unfold bind at 1. split.
    + destruct (mapM _ items m) as [[os| |] m1] eqn:Hm; [|done|done].
      intros [= <- <-]. apply mapM_runs in Hm. eauto.
    + intros (os & Hruns & ->). apply mapM_runs in Hruns. by rewrite Hruns.
  - intros l r. split; [reflexivity|].
    intros q Hq. cbn [evaluate mapM]. 
    unfold bind, ret, lift_outcome. cbn. by rewrite Hq.
Qed.

(** X16. A call of a registered function.  When the argument expressions
    evaluate in order, with [divide] true, and the lookup of (name, number
    of arguments) finds a callable, the call is that callable applied to
    the unnamed values in order and to the named values; the namespace is
    passed to it exactly when it is named [__call].  What it returns or
    raises is the outcome of the node, a KeyError as well: no text is made
    up for the call and no warning is logged. *)
Theorem registered_function_call n (func_name : string) (argspec : ArgspecLiteral)
  d m (os : list pyobj) m1 (func : callable) :
  let lookup := function (namespace calculator) func_name
                  (Some (length argspec)) (mheap m1) in
  let evald_argpairs := zip (map fst argspec) os in
  let ns := if String.eqb (callable_name func) "__call"
            then Some (namespace calculator) else None in
  let run := evaluate X parse (S n) calculator (CallOp func_name argspec) d m in
  runs (λ e, evaluate X parse n calculator e true) (map snd argspec) m os m1 →
  fst lookup = Ok func →
  run = call X func ns (positional_args evald_argpairs)
          (keyword_args evald_argpairs) (with_heap (snd lookup) m1)
  ∧ fst run = fst (invoke X func ns (positional_args evald_argpairs)
                     (keyword_args evald_argpairs) (snd lookup, host m1))
  ∧ log (snd run) = log m1.
Proof.
  intros lookup evald_argpairs ns run Hruns Hlookup.
  assert (run = call X func ns (positional_args evald_argpairs)
                  (keyword_args evald_argpairs) (with_heap (snd lookup) m1)) as Hrun.
  { apply runs_pairs, mapM_runs in Hruns.
    unfold run. cbn [evaluate]. rewrite (bind_Ok _ _ _ _ _ Hruns).
    unfold try_KeyError, bind at 1, lift_heap.
    fold lookup. destruct lookup as [found h'] eqn:El. cbn [fst snd] in *.
    subst found.
    reflexivity. }
  rewrite Hrun. split; [done|]. unfold call. cbn [mheap host with_heap].
  by destruct (invoke X func ns _ _ _) as [res [h' s]].
Qed.

(** X18. [Calculator.parse_expression].  A text is parsed at most once: when
    the call returns an AST, the cache holds it under the text, and every
    later call for the text, with whatever parser, returns that AST and
    changes nothing.  Nothing but the cache is changed.  After a
    successful call, [evaluate_expression] of the text, when it is not the
    name of a variable, evaluates the cached AST without parsing.  The call
    raises exactly when the text is not cached and the parser raises: the
    exception is that of the parser, whatever the DEBUG flag, and the
    state stays as it was. *)
Theorem parse_expression_once text m :
  (∀ ast m',
     parse_expression parse text m = (Ok ast, m') →
     ast_cache m' !! text = Some ast
     ∧ ast_cache m ⊆ ast_cache m'
     ∧ mheap m' = mheap m ∧ log m' = log m ∧ host m' = host m
     ∧ (∀ parse', parse_expression parse' text m' = (Ok ast, m'))
     ∧ (∀ parse' k m1,
          lift_heap (variable (namespace calculator) text) m' = (Raise KeyError, m1) →
          evaluate_expression X parse' k calculator (PyStr text) m'
          = bind (evaluate X parse' k calculator ast false) (λ res, ret (Some res)) m1))
  ∧ (∀ ex m',
       parse_expression parse text m = (Raise ex, m')
       ↔ m' = m ∧ parse text = Raise ex ∧ ast_cache m !! text = None).
Proof.
  assert (∀ ast m0 parse',
            ast_cache m0 !! text = Some ast →
            parse_expression parse' text m0 = (Ok ast, m0)) as Hhit.
  { intros ast m0 parse' Hc. unfold parse_expression.
    rewrite bind_get_cache, Hc. done. }
  split.
  - intros ast m' Hrun.
    assert (ast_cache m' !! text = Some ast ∧ ast_cache m ⊆ ast_cache m'
            ∧ mheap m' = mheap m ∧ log m' = log m ∧ host m' = host m)
      as (Hc & Hsub & Hh & Hl & Hs).
    { unfold parse_expression in Hrun. rewrite bind_get_cache in Hrun.
      destruct (ast_cache m !! text) as [ast0|] eqn:Hc.
      - injection Hrun as <- <-. done.
      - unfold bind, lift_outcome, cache_store, ret in Hrun.
        destruct (parse text) as [ast0| |]; [|done|done].
        injection Hrun as <- <-. cbn.
        split_and!; try done.
        + apply lookup_insert_eq.
        + by apply insert_subseteq. }
    split_and!; try done.
    + intros parse'. by apply Hhit.
    + intros parse' k m1 Hmiss. unfold evaluate_expression.
      rewrite (evaluate_expression_with_miss X calculator parse' _ text m' m1 Hmiss).
      apply lift_heap_eq in Hmiss as [_ ->]. cbn [ast_cache with_heap].
      by rewrite Hc.
  - intros ex m'. unfold parse_expression. rewrite bind_get_cache. split.
    + destruct (ast_cache m !! text) as [ast0|] eqn:Hc; [done|].
      unfold bind, lift_outcome, cache_store, ret.
      destruct (parse text) as [ast0|ex'|]; [done| |done].
      by intros [= <- <-].
    + intros (-> & Hparse & ->). unfold bind, lift_outcome. by rewrite Hparse.
Qed.

End EvalMore.

Lemma Variable_spelling_witness :
  let calculator := mkCalculator Sample.parent_a in
  let m := mkMachine Sample.parents_heap ∅ [] 0 in
  let v := NumberValue 4 (Some "em") in
  let h' := snd (set_variable Sample.parent_a "$col_gap" (Sass v) Sample.parents_heap) in
  hyphen_equiv "$col_gap" "$col-gap" = true
  ∧ variables_wf Sample.parent_a Sample.parents_heap
  ∧ fst (evaluate Sample.X Sample.parse 1 calculator (Variable_ "$col-gap") false
           (with_heap h' m)) = Ok (Sass v).
Proof.
  intros calculator m v h'.
  assert (hyphen_equiv "$col_gap" "$col-gap" = true) as Heq by reflexivity.
  assert (variables_wf Sample.parent_a Sample.parents_heap) as Hwf.
  { exists 0, []. split; [done|]. apply Nat.ltb_lt. reflexivity. }
  split_and!; [exact Heq|exact Hwf|].
  exact (proj2 (Variable_spelling Sample.X Sample.parse calculator 0
                  "$col_gap" "$col-gap" false m Heq) v Hwf).
Defined.

Lemma registered_function_call_witness :
  let calculator := mkCalculator Sample.parent_a in
  let m := mkMachine Sample.library_heap ∅ [] 0 in
  let argspec := [(None, Literal (NumberValue 7 None))] in
  let run := evaluate Sample.X Sample.parse 2 calculator (CallOp "rgba" argspec) false m in
  fst (function (namespace calculator) "rgba" (Some 1) (mheap m))
  = Ok (mkCallable "rgba2" 1)
  ∧ fst run = Ok (Sass (NumberValue 7 None))
  ∧ log (snd run) = [].
Proof.
  intros calculator m argspec run.
  assert (fst (function (namespace calculator) "rgba" (Some (length argspec))
                 (mheap m)) = Ok (mkCallable "rgba2" 1)) as Hlookup
    by (vm_compute; reflexivity).
  assert (runs (λ e, evaluate Sample.X Sample.parse 1 calculator e true)
            (map snd argspec) m [Sass (NumberValue 7 None)] m) as Hruns.
  { repeat econstructor. }
  destruct (registered_function_call Sample.X Sample.parse calculator 1
              "rgba" argspec false m _ m _ Hruns Hlookup) as (_ & Hres & Hlog).
  split_and!; [exact Hlookup| |exact Hlog].
  etrans; [exact Hres|]. vm_compute. reflexivity.
Defined.

Section RawText.
Context {H : Type} (X : Externals H).
Context (parse : string → outcome Expression) (calculator : Calculator).
Implicit Types (m : machine H) (e ast : Expression) (d : bool) (l r : value).

Local Abbreviation Div l r := (BinaryOp operator.truediv (Literal l) (Literal r)).

Lemma bind_Some_unwrap (c : M (H:=H) pyobj) (v : pyobj) m :
  bind (bind c (λ res, ret (Some res)))
       (λ evald, match evald with Some res => ret res | None => ret v end) m
  = c m.
Proof. unfold bind, ret. by destruct (c m) as [[res| |] m']. Qed.

Lemma Variable_raw n name s d m m1 m2 :
  lift_heap (variable (namespace calculator) name) m = (Ok (PyStr s), m1) →
  lift_heap (variable (namespace calculator) s) m1 = (Raise KeyError, m2) →
  evaluate X parse (S n) calculator (Variable_ name) d m =
    match ast_cache m2 !! s with
    | Some ast => evaluate X parse n calculator ast false m2
    | None =>
        match parse s with
        | Ok ast =>
            evaluate X parse n calculator ast false
              (mkMachine (mheap m2) (<[s := ast]> (ast_cache m2)) (log m2) (host m2))
        | Raise ex => if DEBUG X then (Raise ex, m2) else (Ok (PyStr s), m2)
        | OutOfFuel => (OutOfFuel, m2)
        end
    end.
Proof.
  intros Hvar Hmiss. cbn [evaluate].
  rewrite (bind_Ok _ _ _ _ _ Hvar). cbn [is_str].
  destruct (ast_cache m2 !! s) as [ast|] eqn:Hc.
  - rewrite <- (bind_Some_unwrap (evaluate X parse n calculator ast false) (PyStr s)).
    unfold bind at 1 3.
    rewrite (evaluate_expression_with_miss X calculator parse _ s m1 m2 Hmiss), Hc.
    done.
  - destruct (parse s) as [ast|ex|] eqn:Hp.
    + rewrite <- (bind_Some_unwrap (evaluate X parse n calculator ast false) (PyStr s)).
      unfold bind at 1 3.
      rewrite (evaluate_expression_with_miss X calculator parse _ s m1 m2 Hmiss), Hc, Hp.
      done.
    + unfold bind at 1.
      rewrite (evaluate_expression_with_miss X calculator parse _ s m1 m2 Hmiss), Hc, Hp.
      by destruct (DEBUG X).
    + unfold bind at 1.
      rewrite (evaluate_expression_with_miss X calculator parse _ s m1 m2 Hmiss), Hc, Hp.
      done.
Qed.

(** X24. A variable that holds raw source text.  When the variable of a
    Variable node is bound to a text that is not itself the name of a
    variable, the node evaluates the AST of the text, from the cache or
    from the parser, and it does so without the [divide] flag, whatever
    the flag of the node: in parentheses too, a text that is the division
    of two literals gives the slash text and is not divided.  When the
    text does not parse and DEBUG is off, the node returns the raw text. *)
Theorem Variable_raw_text n name s d m m1 m2 :
  lift_heap (variable (namespace calculator) name) m = (Ok (PyStr s), m1) →
  lift_heap (variable (namespace calculator) s) m1 = (Raise KeyError, m2) →
  (∀ ast,
     ast_cache m2 !! s = Some ast
     ∨ (ast_cache m2 !! s = None ∧ parse s = Ok ast) →
     let m3 := mkMachine (mheap m2) (<[s := ast]> (ast_cache m2)) (log m2) (host m2) in
     evaluate X parse (S n) calculator (Variable_ name) d m
     = evaluate X parse n calculator ast false m3
     ∧ ∀ l r,
         ast = Div l r →
         evaluate X parse (S (S (S (S n)))) calculator
           (Parentheses (Variable_ name)) d m
         = (Ok (Sass (String (render X l +:+ " / " +:+ render X r) None)), m3))
  ∧ (∀ ex,
       ast_cache m2 !! s = None → parse s = Raise ex → DEBUG X = false →
       evaluate X parse (S n) calculator (Variable_ name) d m = (Ok (PyStr s), m2)).
Proof.
  intros Hvar Hmiss. split.
  - intros ast Hast m3.
    assert (∀ k d', evaluate X parse (S k) calculator (Variable_ name) d' m
                    = evaluate X parse k calculator ast false m3) as Hev.
    { intros k d'. rewrite (Variable_raw k name s d' m m1 m2 Hvar Hmiss).
      destruct Hast as [Hc|[Hc Hp]].
      - rewrite Hc. unfold m3. rewrite insert_id by done. by destruct m2.
      - by rewrite Hc, Hp. }
    split; [apply Hev|].
    intros l r ->.
    change (evaluate X parse (S (S (S (S n)))) calculator
              (Parentheses (Variable_ name)) d m)
      with (evaluate X parse (S (S (S n))) calculator (Variable_ name) true m).
    rewrite (Hev (S (S n)) true). reflexivity.
  - intros ex Hc Hp Hdebug.
    rewrite (Variable_raw n name s d m m1 m2 Hvar Hmiss), Hc, Hp, Hdebug. done.
Qed.

End RawText.

Lemma Variable_raw_text_witness :
  let calculator := mkCalculator Sample.parent_a in
  let h := snd (set_variable Sample.parent_a "$ratio" (PyStr "12px/1.5")
                  Sample.parents_heap) in
  let m := mkMachine h ∅ [] 0 in
  lift_heap (variable (namespace calculator) "$ratio") m = (Ok (PyStr "12px/1.5"), m)
  ∧ lift_heap (variable (namespace calculator) "12px/1.5") m = (Raise KeyError, m)
  ∧ fst (evaluate Sample.X Sample.parse 6 calculator
           (Parentheses (Variable_ "$ratio")) false m)
    = Ok (Sass (String "12px / 1.5" None)).
Proof.
  intros calculator h m.
  assert (lift_heap (variable (namespace calculator) "$ratio") m
          = (Ok (PyStr "12px/1.5"), m)) as Hvar by (vm_compute; reflexivity).
  assert (lift_heap (variable (namespace calculator) "12px/1.5") m
          = (Raise KeyError, m)) as Hmiss by (vm_compute; reflexivity).
  split_and!; [exact Hvar|exact Hmiss|].
  destruct (Variable_raw_text Sample.X Sample.parse calculator 2 "$ratio" "12px/1.5"
              false m m m Hvar Hmiss) as [Hast _].
  destruct (Hast (BinaryOp operator.truediv
                    (Literal (NumberValue 12 (Some "px")))
                    (Literal (NumberValue (3 # 2) None)))) as [_ Hdiv].
  { right. split; vm_compute; reflexivity. }
  rewrite (Hdiv _ _ eq_refl). vm_compute. reflexivity.
Defined.

Section ArgumentFacts.
Implicit Types (pairs before after : list (option string * pyobj)) (var : string).
Implicit Types (kwargs : gmap string pyobj) (v o : pyobj).

(** One step of the loop of [CallOp.evaluate] over the evaluated pairs. *)
Local Abbreviation step :=
  (λ kwargs (p : option string * pyobj),
     match fst p with
     | Some var => <[replace_hyphens (lstrip_dollar var) := snd p]> kwargs
     | None => kwargs
     end).

Lemma keyword_args_untouched after kwargs key :
  (∀ var' v', (Some var', v') ∈ after →
     replace_hyphens (lstrip_dollar var') ≠ key) →
  fold_left step after kwargs !! key = kwargs !! key.
Proof.
  revert kwargs. induction after as [|[[var'|] v'] after IH]; intros kwargs Hafter;
    cbn [fold_left fst snd]; [done| |].
  - rewrite IH.
    + apply lookup_insert_ne. apply (Hafter var' v'). apply elem_of_cons; by left.
    + intros var'' v'' Hin. apply (Hafter var'' v''). apply elem_of_cons; by right.
  - apply IH. intros var'' v'' Hin. apply (Hafter var'' v'').
    apply elem_of_cons; by right.
Qed.

(** X17. The arguments of a call.  The unnamed values are passed in the
    order of the call, whatever named ones stand between them.  A named
    value is passed under its name without leading dollar signs and with
    every hyphen turned into an underscore; when two names give the same
    key, the later value is the one passed. *)
Theorem call_arguments before after var v :
  (∀ var' v', (Some var', v') ∈ after →
     replace_hyphens (lstrip_dollar var') ≠ replace_hyphens (lstrip_dollar var)) →
  keyword_args (before ++ (Some var, v) :: after)
    !! replace_hyphens (lstrip_dollar var) = Some v
  ∧ positional_args (before ++ (Some var, v) :: after)
    = positional_args before ++ positional_args after
  ∧ (∀ o, positional_args (before ++ (None, o) :: after)
          = positional_args before ++ o :: positional_args after)
  ∧ (∀ o, keyword_args (before ++ (None, o) :: after)
          = keyword_args (before ++ after)).
Proof.
  intros Hafter. unfold keyword_args, positional_args. split_and!.
  - rewrite fold_left_app. cbn [fold_left fst snd].
    rewrite keyword_args_untouched by done. apply lookup_insert_eq.
  - by rewrite omap_app.
  - intros o. by rewrite omap_app.
  - intros o. by rewrite !fold_left_app.
Qed.

End ArgumentFacts.

Lemma call_arguments_witness :
  let one := Sass (NumberValue 1 None) in
  let two := Sass (NumberValue 2 None) in
  let three := Sass (NumberValue 3 None) in
  keyword_args [(Some "$line-height", one); (None, two); (Some "$line_height", three)]
    !! "line_height" = Some three.
Proof.
  intros one two three.
  refine (proj1 (call_arguments [(Some "$line-height", one); (None, two)] []
                   "$line_height" three _)).
  intros var' v' Hin. by apply elem_of_nil in Hin.
Defined.

(** ** The token patterns *)

Section PatternFacts.
Local Open Scope nat_scope.
Implicit Types (rest : list ascii) (prev : option ascii) (n : nat) (p : ascii → bool).

Lemma span_le p rest : span p rest ≤ length rest.
Proof.
  induction rest as [|c rest IH]; cbn [span length]; [done|].
  destruct (p c); lia.
Qed.

Lemma starts_with_length (t rest : list ascii) :
  starts_with t rest = true → length t ≤ length rest.
Proof.
  revert rest. induction t as [|x t IH]; intros [|c rest]; cbn [starts_with length];
    [lia|lia|done|].
  intros Hs. apply andb_true_iff in Hs as [_ Hs]. specialize (IH _ Hs). lia.
Qed.

Lemma drop_cons_length k (xs : list ascii) (x : ascii) (tl : list ascii) :
  drop k xs = x :: tl → k + S (length tl) = length xs.
Proof.
  intros E. pose proof (length_drop xs k) as Hl. rewrite E in Hl. cbn in Hl.
  assert (k < length xs); [|lia].
  destruct (decide (k < length xs)) as [|Hge]; [done|].
  rewrite drop_ge in E by lia. done.
Qed.

Lemma m_lit_bounds text prev rest n :
  m_lit text prev rest = Some n →
  n = length (list_ascii_of_string text) ∧ n ≤ length rest.
Proof.
  unfold m_lit. destruct (starts_with _ rest) eqn:E; [|done].
  intros [= <-]. split; [done|]. by apply starts_with_length.
Qed.

Lemma m_keyword_bounds word prev rest n :
  m_keyword word prev rest = Some n →
  n = length (list_ascii_of_string word) ∧ n ≤ length rest.
Proof.
  unfold m_keyword.
  destruct (not_prev is_hyphen_word prev); [|done]. cbn [andb].
  destruct (starts_with _ rest) eqn:E; [|done]. cbn [andb].
  destruct (not_next _ _); [|done].
  intros [= <-]. split; [done|]. by apply starts_with_length.
Qed.

Lemma m_ID_bounds prev rest n :
  m_ID prev rest = Some n → 0 < n ∧ n ≤ length rest.
Proof.
  unfold m_ID. destruct rest as [|c rest']; [done|].
  destruct (is_ident_start c); [|done]. intros [= <-].
  pose proof (span_le is_ident_char rest'). cbn [length]. lia.
Qed.

(** X19. Every pattern of the scanner but END consumes at least one
    character when it matches, and no pattern matches more than the text
    that is left. *)
Theorem patterns_consume (t : tok) (pattern : matcher) prev rest n :
  (t, pattern) ∈ _patterns →
  pattern prev rest = Some n →
  n ≤ length rest ∧ (t ≠ END → 0 < n).
Proof.
  intros Hin Hm. unfold _patterns in Hin.
  repeat (apply elem_of_cons in Hin as [[= -> ->]|Hin];
          [try (apply m_lit_bounds in Hm as [-> Hn]; split; [exact Hn|];
                intros _; cbn; lia);
           try (apply m_keyword_bounds in Hm as [-> Hn]; split; [exact Hn|];
                intros _; cbn; lia)
          |]).
  - (* WHITESPACE *)
    unfold m_whitespace in Hm. pose proof (span_le is_blank rest).
    destruct (span is_blank rest); [done|]. injection Hm as <-. split; lia.
  - (* LPAR *)
    unfold m_either in Hm. destruct rest as [|c rest']; [done|].
    destruct (_ || _); [|done]. injection Hm as <-. cbn. split; lia.
  - (* RPAR *)
    unfold m_either in Hm. destruct rest as [|c rest']; [done|].
    destruct (_ || _); [|done]. injection Hm as <-. cbn. split; lia.
  - (* END *)
    unfold m_END in Hm. split; [|done].
    destruct rest as [|c [|c' rest']]; [by injection Hm as <-| |done].
    destruct (Ascii.eqb c _); [|done]. injection Hm as <-. lia.
  - (* SUB *)
    unfold m_SUB in Hm. destruct rest as [|c [|c' rest']]; [done|done|].
    destruct (_ && _); [|done]. injection Hm as <-. cbn. split; lia.
  - (* SIGN *)
    unfold m_SIGN in Hm. destruct rest as [|c rest']; [done|].
    destruct (_ && _); [|done]. injection Hm as <-. cbn. split; lia.
  - (* STR *)
    unfold m_quoted in Hm. destruct rest as [|c rest']; [done|].
    destruct (Ascii.eqb c _); [|done].
    destruct (drop _ rest') as [|x tl] eqn:E; [done|]. injection Hm as <-.
    apply drop_cons_length in E. cbn [length]. split; lia.
  - (* QSTR *)
    unfold m_quoted in Hm. destruct rest as [|c rest']; [done|].
    destruct (Ascii.eqb c _); [|done].
    destruct (drop _ rest') as [|x tl] eqn:E; [done|]. injection Hm as <-.
    apply drop_cons_length in E. cbn [length]. split; lia.
  - (* UNITS *)
    unfold m_UNITS in Hm. destruct (not_prev is_space prev); [|done].
    pose proof (span_le is_alpha rest).
    destruct (span is_alpha rest) as [|k].
    + destruct rest as [|c rest']; [done|].
      destruct (_ && _); [|done]. injection Hm as <-. cbn. split; lia.
    + destruct (not_next _ _); [|done]. injection Hm as <-. split; lia.
  - (* NUM *)
    unfold m_NUM in Hm. pose proof (span_le is_digit rest).
    destruct (span is_digit rest) as [|k].
    + destruct rest as [|c rest']; [done|].
      destruct (Ascii.eqb c _); [|done].
      pose proof (span_le is_digit rest').
      destruct (span is_digit rest'); [done|]. injection Hm as <-.
      cbn [length]. split; lia.
    + destruct (drop (S k) rest) as [|c rest'] eqn:E.
      * injection Hm as <-. split; lia.
      * apply drop_cons_length in E. pose proof (span_le is_digit rest').
        destruct (Ascii.eqb c _); injection Hm as <-; split; lia.
  - (* COLOR *)
    unfold m_COLOR in Hm. destruct rest as [|c rest']; [done|].
    destruct (Ascii.eqb c _); [|done]. pose proof (span_le is_hex rest').
    destruct (span is_hex rest') as [|[|[|[|[|[|[|[|k]]]]]]]]; try done;
      injection Hm as <-; cbn [length]; split; lia.
  - (* VAR *)
    unfold m_VAR in Hm. destruct rest as [|c rest']; [done|].
    destruct (Ascii.eqb c _); [|done]. pose proof (span_le is_ident_char rest').
    destruct (span is_ident_char rest'); [done|]. injection Hm as <-.
    cbn [length]. split; lia.
  - (* FNCT *)
    unfold m_FNCT in Hm. destruct (m_ID prev rest) as [k|] eqn:E; [|done].
    apply m_ID_bounds in E. destruct (drop k rest) as [|c tl]; [done|].
    destruct (Ascii.eqb c _); [|done]. injection Hm as <-. split; lia.
  - (* ID *)
    apply m_ID_bounds in Hm. split; lia.
  - by apply elem_of_nil in Hin.
Qed.

Lemma starts_with_app (t rest : list ascii) :
  starts_with t rest = true → rest = t ++ drop (length t) rest.
Proof.
  revert rest. induction t as [|x t IH]; intros [|c rest]; cbn [starts_with];
    [done|done|done|].
  intros Hs. apply andb_true_iff in Hs as [Hx Hs].
  apply Ascii.eqb_eq in Hx as ->. cbn. f_equal. by apply IH.
Qed.

Lemma span_not_next p rest : not_next p rest = true → span p rest = 0.
Proof. destruct rest as [|c rest']; cbn; [done|]. by destruct (p c). Qed.

Lemma m_keyword_ID word prev rest n :
  word ∈ ["and"; "or"; "not"] →
  m_keyword word prev rest = Some n → m_ID prev rest = Some n.
Proof.
  intros Hw. unfold m_keyword.
  destruct (not_prev is_hyphen_word prev); [|done]. cbn [andb].
  destruct (starts_with _ rest) eqn:E; [|done]. cbn [andb].
  destruct (not_next _ _) eqn:Hnext; [|done]. intros [= <-].
  apply starts_with_app in E. apply span_not_next in Hnext.
  revert E Hnext. generalize (drop (length (list_ascii_of_string word)) rest).
  intros tl -> Hnext. unfold m_ID.
  assert (span is_ident_char tl = 0) as Hnext' by exact Hnext.
  repeat (apply elem_of_cons in Hw as [->|Hw];
          [cbn [list_ascii_of_string app length span];
           change (is_ident_start "a") with true;
           change (is_ident_start "o") with true;
           change (is_ident_start "n") with true;
           change (is_ident_char "n") with true;
           change (is_ident_char "d") with true;
           change (is_ident_char "r") with true;
           change (is_ident_char "o") with true;
           change (is_ident_char "t") with true;
           cbv iota; by rewrite Hnext'|]).
  by apply elem_of_nil in Hw.
Qed.

(** X20. The identifier pattern also matches, with the same length, every
    text that is matched as one of the keywords [and], [or], [not] or as a
    function name: only their place before ID in the table makes them
    tokens of their own.  A function name is an identifier directly
    followed by an opening parenthesis, which is not part of the match. *)
Theorem keywords_match_ID prev rest n :
  (m_keyword "and" prev rest = Some n ∨ m_keyword "or" prev rest = Some n
   ∨ m_keyword "not" prev rest = Some n → m_ID prev rest = Some n)
  ∧ (m_FNCT prev rest = Some n ↔
     m_ID prev rest = Some n ∧ ∃ tl, drop n rest = "("%char :: tl).
Proof.
  split.
  - intros [Hm|[Hm|Hm]]; (eapply m_keyword_ID; [|exact Hm]); set_solver.
  - unfold m_FNCT. destruct (m_ID prev rest) as [k|]; [|by split; [|intros [? _]]].
    split.
    + destruct (drop k rest) as [|c tl] eqn:E; [done|].
      destruct (Ascii.eqb_spec c "(") as [->|]; [|done].
      intros [= <-]. eauto.
    + intros [[= ->] [tl ->]]. done.
Qed.

End PatternFacts.

Lemma patterns_consume_witness :
  (NUM, m_NUM) ∈ _patterns
  ∧ m_NUM None (list_ascii_of_string "1.5em") = Some 3
  ∧ (3 ≤ length (list_ascii_of_string "1.5em"))%nat.
Proof.
  assert ((NUM, m_NUM) ∈ _patterns) as Hin.
  { unfold _patterns. do 24 (apply elem_of_cons; right). apply elem_of_cons. by left. }
  assert (m_NUM None (list_ascii_of_string "1.5em") = Some 3) as Hm by reflexivity.
  split_and!; [exact Hin|exact Hm|].
  exact (proj1 (patterns_consume NUM m_NUM None _ 3 Hin Hm)).
Defined.

(** ** Colour channels *)

Lemma Qle_bool_cases p q :
  (Qle_bool p q = true ∧ (p <= q)%Q) ∨ (Qle_bool p q = false ∧ (q < p)%Q).
Proof.
  destruct (Qle_bool p q) eqn:E.
  - left. split; [done|]. by apply Qle_bool_iff.
  - right. split; [done|]. apply Qnot_le_lt. intros Hle.
    apply Qle_bool_iff in Hle. congruence.
Qed.

Ltac number_cases :=
  repeat match goal with
         | |- context [Qle_bool ?p ?q] =>
             destruct (Qle_bool_cases p q) as [[-> ?]|[-> ?]]
         | H : context [Qle_bool ?p ?q] |- _ =>
             let E := fresh "E" in
             destruct (Qle_bool_cases p q) as [[E ?]|[E ?]];
             rewrite E in H; clear E
         end; cbn in *; try done; try (exfalso; lra).

(** X21. [_constrain].  When the lower bound is at most the upper bound
    (so neither is NaN): for a number that is not NaN the result lies
    between the bounds; a number between the bounds is returned as it is;
    constraining a second time changes nothing; and NaN, for which both
    comparisons are false, is returned as it is, outside the bounds. *)
Theorem _constrain_bounds (n lb ub : number) :
  number_le lb ub = true →
  (n ≠ NaN →
   number_le lb (_constrain n lb ub) = true
   ∧ number_le (_constrain n lb ub) ub = true)
  ∧ (number_le lb n = true → number_le n ub = true → _constrain n lb ub = n)
  ∧ _constrain (_constrain n lb ub) lb ub = _constrain n lb ub
  ∧ _constrain NaN lb ub = NaN
  ∧ number_le lb (_constrain NaN lb ub) = false.
Proof.
  intros Hb. unfold _constrain.
  destruct lb as [l|[]|], ub as [u|[]|]; try done;
    destruct n as [q|[]|]; cbn in *; split_and!; try done; intros; number_cases.
  all: repeat split; number_cases.
Qed.

(** Concrete runs with the bounds 0 and 255 of a colour channel: 300,
    infinity, -4, one half and NaN. *)
Lemma _constrain_bounds_witness :
  let lb := Finite 0 in
  let ub := Finite 255 in
  number_le lb ub = true
  ∧ _constrain (Finite 300) lb ub = ub
  ∧ _constrain (Infinity false) lb ub = ub
  ∧ _constrain (Finite (-4)) lb ub = lb
  ∧ number_le (_constrain (Finite (1 # 2)) lb ub) ub = true
  ∧ _constrain NaN lb ub = NaN.
Proof.
  intros lb ub.
  assert (number_le lb ub = true) as Hb by reflexivity.
  split_and!; [exact Hb|reflexivity|reflexivity|reflexivity| |].
  - refine (proj2 (proj1 (_constrain_bounds (Finite (1 # 2)) lb ub Hb) _)).
    discriminate.
  - exact (proj1 (proj2 (proj2 (proj2
             (_constrain_bounds (Finite (1 # 2)) lb ub Hb))))).
Defined.

(** ** Cache busters *)

Section UrlFacts.
Implicit Types (s t url mtime : string) (c : ascii).

Lemma str_split_absent c s : str_find c s = None → str_split c s = [s].
Proof.
  induction s as [|x s IH]; cbn [str_find str_split]; [done|].
  destruct (Ascii.eqb x c); [done|].
  destruct (str_find c s); [done|]. intros _. by rewrite IH.
Qed.

Lemma str_split_found c s t :
  str_find c s = None →
  str_split c (s +:+ String.String c t) = s :: str_split c t.
Proof.
  induction s as [|x s IH]; rewrite ?append_cons, ?append_nil_l;
    cbn [str_find str_split].
  - by rewrite Ascii.eqb_refl.
  - destruct (Ascii.eqb x c); [done|].
    destruct (str_find c s); [done|]. intros _. by rewrite IH.
Qed.

Lemma str_split_cons c s : ∃ piece pieces, str_split c s = piece :: pieces.
Proof.
  induction s as [|x s (piece & pieces & IH)]; cbn [str_split]; [eauto|].
  destruct (Ascii.eqb x c); [eauto|]. rewrite IH. eauto.
Qed.

Lemma concat_cons sep s t (pieces : list string) :
  String.concat sep (s :: t :: pieces) = s +:+ sep +:+ String.concat sep (t :: pieces).
Proof. done. Qed.

(** Joining the pieces of a split with the separator gives the text back. *)
Lemma join_split c s :
  String.concat (String.String c EmptyString) (str_split c s) = s.
Proof.
  induction s as [|x s IH]; cbn [str_split]; [done|].
  destruct (str_split_cons c s) as (piece & pieces & E). rewrite E in IH |- *.
  destruct (Ascii.eqb_spec x c) as [->|Hne].
  - by rewrite concat_cons, IH.
  - destruct pieces as [|t pieces].
    + cbn [String.concat] in IH |- *. by rewrite IH.
    + rewrite concat_cons in IH |- *. by rewrite append_cons, IH.
Qed.

(** The first piece of a split is empty exactly when the text is empty
    or starts with the separator. *)
Lemma str_split_head_empty c s :
  nth 0 (str_split c s) EmptyString = EmptyString
  ↔ s = EmptyString ∨ startswith (String.String c EmptyString) s = true.
Proof.
  destruct s as [|x s]; cbn [str_split startswith]; [by split; [left|]|].
  rewrite (Ascii.eqb_sym c x).
  destruct (Ascii.eqb x c); cbn [andb nth].
  - by split; [right|].
  - destruct (str_split_cons c s) as (piece & pieces & ->). cbn [nth].
    split; [done|]. by intros [?|?].
Qed.

Lemma add_cache_buster_no_fragment url mtime :
  str_find "#" url = None →
  add_cache_buster url mtime =
    let query := str_split "?" url in
    if (1 <? length query)%nat
       && negb (String.eqb (nth 1 query EmptyString) EmptyString)
    then String.concat "?" query +:+ "&_=" +:+ mtime
    else nth 0 query EmptyString +:+ "?_=" +:+ mtime.
Proof.
  intros Hf. unfold add_cache_buster. by rewrite str_split_absent.
Qed.

(** X22. [add_cache_buster].  For a url without fragment: without [?] the
    time stamp is added as the query [?_=mtime]; with a query that is not
    empty it is added to the query as [&_=mtime]; with an empty first
    query part, everything from the first [?] on is replaced by
    [?_=mtime].  A fragment is put back after the time stamp; a second
    [#] and what follows it are lost. *)
Theorem add_cache_buster_spec (url mtime : string) :
  str_find "#" url = None →
  (str_find "?" url = None →
   add_cache_buster url mtime = url +:+ "?_=" +:+ mtime)
  ∧ (∀ path query,
       url = path +:+ "?" +:+ query → str_find "?" path = None →
       (query ≠ EmptyString → startswith "?" query = false →
        add_cache_buster url mtime = url +:+ "&_=" +:+ mtime)
       ∧ (query = EmptyString ∨ startswith "?" query = true →
          add_cache_buster url mtime = path +:+ "?_=" +:+ mtime))
  ∧ (∀ fragment,
       str_find "#" fragment = None →
       add_cache_buster (url +:+ "#" +:+ fragment) mtime
       = add_cache_buster url mtime +:+ "#" +:+ fragment
       ∧ ∀ more,
           add_cache_buster (url +:+ "#" +:+ fragment +:+ "#" +:+ more) mtime
           = add_cache_buster url mtime +:+ "#" +:+ fragment).
Proof.
  intros Hf. split_and!.
  - intros Hq. rewrite add_cache_buster_no_fragment by done.
    by rewrite str_split_absent.
  - intros path query -> Hp.
    rewrite add_cache_buster_no_fragment by done. cbv zeta.
    rewrite (join_split "?" (path +:+ "?" +:+ query)).
    assert (str_split "?" (path +:+ "?" +:+ query)
            = path :: str_split "?" query) as -> by by apply str_split_found.
    destruct (str_split_cons "?" query) as (piece & pieces & E).
    pose proof (str_split_head_empty "?" query) as Hhead.
    rewrite E in Hhead |- *. cbn [nth length] in Hhead |- *.
    change (1 <? S (S (length pieces)))%nat with true. cbn [andb].
    split.
    + intros Hne Hstart.
      destruct (String.eqb_spec piece EmptyString) as [->|_]; [|done].
      destruct (proj1 Hhead eq_refl); congruence.
    + intros Hempty. apply Hhead in Hempty as ->. done.
  - intros fragment Hfr.
    rewrite (add_cache_buster_no_fragment url) by done. cbv zeta. split.
    + unfold add_cache_buster.
      change (url +:+ "#" +:+ fragment) with (url +:+ String.String "#" fragment).
      rewrite str_split_found by done. rewrite (str_split_absent _ fragment) by done.
      cbn [nth length]. reflexivity.
    + intros more. unfold add_cache_buster.
      change (url +:+ "#" +:+ fragment +:+ "#" +:+ more)
        with (url +:+ String.String "#" (fragment +:+ String.String "#" more)).
      rewrite !str_split_found by done.
      destruct (str_split_cons "#" more) as (piece & pieces & ->).
      cbn [nth length]. reflexivity.
Qed.

Lemma add_cache_buster_spec_witness :
  let url := "fonts/a.woff?v=2" in
  str_find "#" url = None
  ∧ add_cache_buster url "NA" = url +:+ "&_=" +:+ "NA"
  ∧ add_cache_buster (url +:+ "#" +:+ "iefix") "NA"
    = add_cache_buster url "NA" +:+ "#" +:+ "iefix".
Proof.
  intros url.
  assert (str_find "#" url = None) as Hf by reflexivity.
  destruct (add_cache_buster_spec url "NA" Hf) as (_ & Hq & Hfr).
  split_and!; [exact Hf| |].
  - refine (proj1 (Hq "fonts/a.woff" "v=2" eq_refl eq_refl) _ eq_refl).
    discriminate.
  - exact (proj1 (Hfr "iefix" eq_refl)).
Defined.

End UrlFacts.
